(** * Peer session and replication layer of the two-player tank game

    A shallow embedding of [src/webrtc.js] (with the [utils.js] helpers
    that travel in the same file), of the networking, damage, score
    and obstacle code of [src/game.js], and of the menu of [src/menu.js].

    Conventions of the embedding.
    - JavaScript numbers that carry measurements (health, damage,
      coordinates, ages) are IEEE-754 binary64 values, Rocq's primitive
      [float].  The two score counters only ever start at 0 and are
      incremented by one, they are natural numbers here.
    - [null] and [undefined] are [None].
    - A handler is a computation in the monad [M]: it threads the whole
      mutable world and may end in a thrown exception, in which case the
      mutations made before the throw stay in place, as in JavaScript.
    - Objects that are shared by reference (trees, barriers, warehouses)
      live in a heap [objects] indexed by object id; the arrays [trees],
      [collidables], [barriers] and the children of [scene] hold ids.
    - Functions of the platform whose result the code cannot determine
      (JSON, [String.prototype.trim], the Three.js raycaster) are
      variables of the section [Platform]; results of [Math.random] are
      inputs.
    - Console output, sounds, materials and the camera are not part of the
      modelled state.
    - Where the code looks into a string (the user name typed in the
      menu), the string is the list of its UTF-16 code units, and [trim]
      is defined on it; the menu and the event emitter are embedded as
      functions on their own state. *)

From Stdlib Require Import ZArith String List Bool Lia Floats.
From stdpp Require Import base option list strings functions pretty.

Local Open Scope string_scope.
Local Open Scope list_scope.
Local Open Scope nat_scope.

(** ** JavaScript numbers *)

(** [Math.max(a, b)]: NaN if either argument is NaN, and [+0] is larger
    than [-0]. *)
Definition Math_max (a b : float) : float :=
  if is_nan a || is_nan b then nan
  else if (a <? b)%float then b
  else if (b <? a)%float then a
  else if get_sign a then b else a.

(** A score limit: a finite count or JavaScript's [Infinity]. *)
Inductive Threshold : Type :=
  | Finite (n : nat)
  | Infinity.

(** [score >= threshold] on numbers. *)
Definition score_ge (score : nat) (t : Threshold) : bool :=
  match t with
  | Finite n => (n <=? score)%nat
  | Infinity => false
  end.

(** ** Three.js values *)

Record Vec3 : Type := mkVec3 { vx : float; vy : float; vz : float }.
Record Quat : Type := mkQuat { qx : float; qy : float; qz : float; qw : float }.

Definition Quat_identity : Quat := mkQuat 0 0 0 1.

(** ** utils.js *)

Inductive Role : Type := HOST | CLIENT.

Global Instance Role_eq_dec : EqDecision Role.
Proof. solve_decision. Defined.

Module GAME_MODES.
Definition BO3 : string := "bo3".
Definition BO5 : string := "bo5".
Definition INFINITE : string := "infinite".
End GAME_MODES.

(** [getWinThreshold(mode)]; the mode read from a message may be
  [undefined]. *)
Definition getWinThreshold (mode : option string) : Threshold :=
  if decide (mode = Some GAME_MODES.BO3) then Finite 2
  else if decide (mode = Some GAME_MODES.BO5) then Finite 3
  else if decide (mode = Some GAME_MODES.INFINITE) then Infinity
  else Infinity.

(** The [type] of a message: a string, or [undefined]. *)
Definition MsgType : Type := option string.

(** [MSG_TYPES]. The table has no [TREE_DESTROYED] entry, so the
  expression [MSG_TYPES.TREE_DESTROYED] that game.js uses evaluates to
  [undefined]. *)
Module MSG_TYPES.
Definition PLAYER_UPDATE : MsgType := Some "player_update".
Definition BULLET_SPAWN : MsgType := Some "bullet_spawn".
Definition DAMAGE : MsgType := Some "damage".
Definition DEATH : MsgType := Some "death".
Definition GAME_START : MsgType := Some "game_start".
Definition ROUND_START : MsgType := Some "round_start".
Definition ROUND_END : MsgType := Some "round_end".
Definition GAME_END : MsgType := Some "game_end".
Definition PLAYER_INFO : MsgType := Some "player_info".
Definition READY : MsgType := Some "ready".
Definition SYNC_REQUEST : MsgType := Some "sync_request".
Definition SYNC_RESPONSE : MsgType := Some "sync_response".
Definition TREE_DESTROYED : MsgType := None.
End MSG_TYPES.

(** ** Wire data *)

(** One entry of [decorationPositions.warehouses] or [.barriers]. *)
Record Placement : Type := mkPlacement {
  pl_x : float; pl_y : float; pl_z : float; pl_rotY : float
}.

(** One entry of [decorationPositions.trees]. *)
Record TreePlacement : Type := mkTreePlacement {
  tp_id : string;
  tp_x : float; tp_y : float; tp_z : float;
  tp_rotY : float; tp_scale : float
}.

(** The [decorationPositions] object of game.js. *)
Record DecorationPositions : Type := mkDecorationPositions {
  dp_warehouses : list Placement;
  dp_trees : list TreePlacement;
  dp_barriers : list Placement
}.

(** The [mapData] object as it arrives: each property may be missing. *)
Record MapData : Type := mkMapData {
  md_warehouses : option (list Placement);
  md_trees : option (list TreePlacement);
  md_barriers : option (list Placement)
}.

Definition mapData_of (d : DecorationPositions) : MapData :=
  mkMapData (Some (dp_warehouses d)) (Some (dp_trees d)) (Some (dp_barriers d)).

(** The [data] object of a message, by shape. *)
Inductive Payload : Type :=
  | PlayerInfoData (username color : option string)
  | GameStartData (mode : option string) (mapData : option MapData)
  | PlayerUpdateData (position : Vec3) (rotation : Quat)
      (headRotation turretRotation : float) (velocity : Vec3)
  | BulletSpawnData (position direction : Vec3)
  | DamageData (damage : float) (target : string)
  | TreeDestroyedData (treeId : option string)
  | EmptyData.

(** Property reads on [data]; a missing property reads [undefined]. *)
Definition data_username (d : Payload) : option string :=
  match d with PlayerInfoData u _ => u | _ => None end.
Definition data_color (d : Payload) : option string :=
  match d with PlayerInfoData _ c => c | _ => None end.
Definition data_mode (d : Payload) : option string :=
  match d with GameStartData m _ => m | _ => None end.
Definition data_mapData (d : Payload) : option MapData :=
  match d with GameStartData _ m => m | _ => None end.
Definition data_target (d : Payload) : option string :=
  match d with DamageData _ t => Some t | _ => None end.
(** [data.damage] as the right operand of [-=]: [undefined] converts to
    NaN. *)
Definition data_damage (d : Payload) : float :=
  match d with DamageData x _ => x | _ => nan end.
Definition data_treeId (d : Payload) : option string :=
  match d with TreeDestroyedData i => i | _ => None end.

(** The message object [{ type, data, timestamp }]. *)
Record Envelope : Type := mkEnvelope {
  type : MsgType;
  data : Payload;
  timestamp : Z
}.

(** A value produced by [JSON.parse]. *)
#[local] Unset Elimination Schemes.
Inductive JSON : Type :=
  | JNull
  | JBool (b : bool)
  | JNumber (x : float)
  | JString (s : string)
  | JArray (l : list JSON)
  | JObject (l : list (string * JSON)).
#[local] Set Elimination Schemes.

(** ** The mutable state *)

(** The two player objects created by the [GameState] constructor. *)
Inductive PlayerKey : Type := P1 | P2.

Global Instance PlayerKey_eq_dec : EqDecision PlayerKey.
Proof. solve_decision. Defined.

(** A tank group. [gameState.player1.tank] and the global [player1Tank]
    are assigned together in [createTanks] and always name the same
    object, likewise for player 2; the [tank] field stands for both. *)
Record Tank : Type := mkTank {
  tank_oid : nat;
  tank_position : Vec3;
  tank_quaternion : Quat
}.

Record PlayerRecord : Type := mkPlayerRecord {
  username : option string;
  color : option string;
  score : nat;
  health : float;
  tank : option Tank
}.

(** [class GameState]. [localPlayer] and [remotePlayer] are references
    to [player1] or [player2], or [null] before [createTanks].
    ([respawnTimers] is never read or written after construction.) *)
Record GameState : Type := mkGameState {
  isMultiplayer : bool;
  isTestMode : bool;
  role : option Role;
  localPlayer : option PlayerKey;
  remotePlayer : option PlayerKey;
  player1 : PlayerRecord;
  player2 : PlayerRecord;
  gameMode : option string;
  winThreshold : Threshold;
  isRoundActive : bool;
  isControlsLocked : bool;
  gameStarted : bool
}.

(** A decoration object of the scene, as far as the game reads it. *)
Record Obj : Type := mkObj {
  userData_type : string;
  userData_id : option string;
  obj_position : Vec3
}.

Record Bullet : Type := mkBullet {
  bullet_oid : nat;
  bullet_position : Vec3;
  bullet_velocity : Vec3;
  bullet_age : float;
  bullet_lastPosition : Vec3;
  isLocal : bool
}.

Record Explosion : Type := mkExplosion {
  explosion_oid : nat;
  explosion_position : Vec3;
  explosion_age : float;
  explosion_currentFrame : float;
  explosion_audioHelper : nat
}.

(** [remotePlayerState]. *)
Record RemoteSnapshot : Type := mkRemoteSnapshot {
  rs_position : Vec3;
  rs_rotation : Quat;
  rs_headRotation : float;
  rs_turretRotation : float;
  rs_velocity : Vec3;
  rs_lastUpdate : Z
}.

Inductive ReadyState : Type := connecting | open | closing | closed.

Global Instance ReadyState_eq_dec : EqDecision ReadyState.
Proof. solve_decision. Defined.

(** An [RTCDataChannel]: its state and the frames written to it. *)
Record DataChannel : Type := mkDataChannel {
  readyState : ReadyState;
  sent : list string
}.

(** [class WebRTCManager]. [peerConnection] holds the identity of the
    [RTCPeerConnection]; [pcs_created] counts the connections constructed
    so far and provides those identities. *)
Record WebRTCManager : Type := mkWebRTCManager {
  peerConnection : option nat;
  dataChannel : option DataChannel;
  rtc_role : option Role;
  isConnected : bool;
  connectionTimeout : option nat;
  pcs_created : nat;
  pcs_closed : list nat
}.

(** [cutsceneManager], as far as [playCutscene] touches it before its
    first suspension. *)
Record CutsceneManager : Type := mkCutsceneManager {
  cs_isPlaying : bool;
  cs_finalScores : option (nat * nat)
}.

(** [menuManager], as far as game.js reads it. *)
Record MenuManager : Type := mkMenuManager {
  mm_username : string;
  mm_color : string
}.

(** What [showWinMessage] displays. *)
Record WinMessage : Type := mkWinMessage {
  wm_winner : option string;
  wm_loser : option string;
  wm_color : option string;
  wm_show : bool
}.

(** The page. An element looked up by [getElementById] may be absent
    ([None]); the elements the [WebRTCManager] and [MenuManager]
    constructors dereference are present. *)
Record Dom : Type := mkDom {
  healthBarFill : option float;
  scoreLeftElement : option (option string * nat);
  scoreRightElement : option (option string * nat);
  winMessageElement : option WinMessage;
  gameUIElement : option bool;
  scoreboardElement : option bool;
  mainMenu : bool;
  modeSelection : bool;
  lobbyScreen : bool;
  lobbyStatus : string;
  offerInput : string;
  answerInput : string;
  joinCodeSection : bool
}.

(** Callbacks handed to [setTimeout]. *)
Inductive Callback : Type :=
  | CbRespawnLocalPlayer
  | CbHideWinMessage
  | CbConnectionTimeout.

Record Timer : Type := mkTimer {
  timer_id : nat;
  timer_delay : Z;
  timer_callback : Callback
}.

(** Events emitted by [webrtcManager]. *)
Inductive Event : Type :=
  | EvConnected (r : option Role)
  | EvMessage (m : Envelope)
  | EvDisconnected
  | EvCancelled
  | EvError
  | EvTimeout.

(** Work left suspended at an [await]. *)
Inductive Pending : Type :=
  | AwaitCreateOffer
  | AwaitSetRemoteOffer (offer : JSON)
  | AwaitSetRemoteAnswer (answer : JSON).

Record World : Type := mkWorld {
  gameState : GameState;
  webrtcManager : WebRTCManager;
  cutsceneManager : CutsceneManager;
  menuManager : MenuManager;
  dom : Dom;
  objects : nat → Obj;
  next_oid : nat;
  ground : nat;
  scene : list nat;
  collidables : list nat;
  trees : list nat;
  barriers : list nat;
  bullets : list Bullet;
  explosions : list Explosion;
  particles : list nat;
  decorationPositions : DecorationPositions;
  remotePlayerState : RemoteSnapshot;
  explosionAssets : bool;
  woodAssets : bool;
  isReloaded : bool;
  reloadProgress : float;
  timers : list Timer;
  next_timer : nat;
  emitted : list Event;
  pending : list Pending;
  randInts : list nat;
  clock : Z
}.

(** ** Field updates

    [set_f x r] is the record [r] after the assignment [r.f = x]. *)

Definition set_username x (p : PlayerRecord) : PlayerRecord :=
  mkPlayerRecord x (color p) (score p) (health p) (tank p).

Definition set_color x (p : PlayerRecord) : PlayerRecord :=
  mkPlayerRecord (username p) x (score p) (health p) (tank p).

Definition set_score x (p : PlayerRecord) : PlayerRecord :=
  mkPlayerRecord (username p) (color p) x (health p) (tank p).

Definition set_health x (p : PlayerRecord) : PlayerRecord :=
  mkPlayerRecord (username p) (color p) (score p) x (tank p).

Definition set_tank x (p : PlayerRecord) : PlayerRecord :=
  mkPlayerRecord (username p) (color p) (score p) (health p) x.

Definition set_isMultiplayer x (g : GameState) : GameState :=
  mkGameState x (isTestMode g) (role g) (localPlayer g) (remotePlayer g)
    (player1 g) (player2 g) (gameMode g) (winThreshold g) (isRoundActive g)
    (isControlsLocked g) (gameStarted g).

Definition set_isTestMode x (g : GameState) : GameState :=
  mkGameState (isMultiplayer g) x (role g) (localPlayer g) (remotePlayer g)
    (player1 g) (player2 g) (gameMode g) (winThreshold g) (isRoundActive g)
    (isControlsLocked g) (gameStarted g).

Definition set_role x (g : GameState) : GameState :=
  mkGameState (isMultiplayer g) (isTestMode g) x (localPlayer g)
    (remotePlayer g) (player1 g) (player2 g) (gameMode g) (winThreshold g)
    (isRoundActive g) (isControlsLocked g) (gameStarted g).

Definition set_localPlayer x (g : GameState) : GameState :=
  mkGameState (isMultiplayer g) (isTestMode g) (role g) x (remotePlayer g)
    (player1 g) (player2 g) (gameMode g) (winThreshold g) (isRoundActive g)
    (isControlsLocked g) (gameStarted g).

Definition set_remotePlayer x (g : GameState) : GameState :=
  mkGameState (isMultiplayer g) (isTestMode g) (role g) (localPlayer g) x
    (player1 g) (player2 g) (gameMode g) (winThreshold g) (isRoundActive g)
    (isControlsLocked g) (gameStarted g).

Definition set_player1 x (g : GameState) : GameState :=
  mkGameState (isMultiplayer g) (isTestMode g) (role g) (localPlayer g)
    (remotePlayer g) x (player2 g) (gameMode g) (winThreshold g)
    (isRoundActive g) (isControlsLocked g) (gameStarted g).

Definition set_player2 x (g : GameState) : GameState :=
  mkGameState (isMultiplayer g) (isTestMode g) (role g) (localPlayer g)
    (remotePlayer g) (player1 g) x (gameMode g) (winThreshold g)
    (isRoundActive g) (isControlsLocked g) (gameStarted g).

Definition set_gameMode x (g : GameState) : GameState :=
  mkGameState (isMultiplayer g) (isTestMode g) (role g) (localPlayer g)
    (remotePlayer g) (player1 g) (player2 g) x (winThreshold g)
    (isRoundActive g) (isControlsLocked g) (gameStarted g).

Definition set_winThreshold x (g : GameState) : GameState :=
  mkGameState (isMultiplayer g) (isTestMode g) (role g) (localPlayer g)
    (remotePlayer g) (player1 g) (player2 g) (gameMode g) x (isRoundActive g)
    (isControlsLocked g) (gameStarted g).

Definition set_isRoundActive x (g : GameState) : GameState :=
  mkGameState (isMultiplayer g) (isTestMode g) (role g) (localPlayer g)
    (remotePlayer g) (player1 g) (player2 g) (gameMode g) (winThreshold g) x
    (isControlsLocked g) (gameStarted g).

Definition set_isControlsLocked x (g : GameState) : GameState :=
  mkGameState (isMultiplayer g) (isTestMode g) (role g) (localPlayer g)
    (remotePlayer g) (player1 g) (player2 g) (gameMode g) (winThreshold g)
    (isRoundActive g) x (gameStarted g).

Definition set_gameStarted x (g : GameState) : GameState :=
  mkGameState (isMultiplayer g) (isTestMode g) (role g) (localPlayer g)
    (remotePlayer g) (player1 g) (player2 g) (gameMode g) (winThreshold g)
    (isRoundActive g) (isControlsLocked g) x.

Definition set_readyState x (c : DataChannel) : DataChannel :=
  mkDataChannel x (sent c).

Definition set_sent x (c : DataChannel) : DataChannel :=
  mkDataChannel (readyState c) x.

Definition set_peerConnection x (m : WebRTCManager) : WebRTCManager :=
  mkWebRTCManager x (dataChannel m) (rtc_role m) (isConnected m)
    (connectionTimeout m) (pcs_created m) (pcs_closed m).

Definition set_dataChannel x (m : WebRTCManager) : WebRTCManager :=
  mkWebRTCManager (peerConnection m) x (rtc_role m) (isConnected m)
    (connectionTimeout m) (pcs_created m) (pcs_closed m).

Definition set_rtc_role x (m : WebRTCManager) : WebRTCManager :=
  mkWebRTCManager (peerConnection m) (dataChannel m) x (isConnected m)
    (connectionTimeout m) (pcs_created m) (pcs_closed m).

Definition set_isConnected x (m : WebRTCManager) : WebRTCManager :=
  mkWebRTCManager (peerConnection m) (dataChannel m) (rtc_role m) x
    (connectionTimeout m) (pcs_created m) (pcs_closed m).

Definition set_connectionTimeout x (m : WebRTCManager) : WebRTCManager :=
  mkWebRTCManager (peerConnection m) (dataChannel m) (rtc_role m)
    (isConnected m) x (pcs_created m) (pcs_closed m).

Definition set_pcs_created x (m : WebRTCManager) : WebRTCManager :=
  mkWebRTCManager (peerConnection m) (dataChannel m) (rtc_role m)
    (isConnected m) (connectionTimeout m) x (pcs_closed m).

Definition set_pcs_closed x (m : WebRTCManager) : WebRTCManager :=
  mkWebRTCManager (peerConnection m) (dataChannel m) (rtc_role m)
    (isConnected m) (connectionTimeout m) (pcs_created m) x.

Definition set_cs_isPlaying x (c : CutsceneManager) : CutsceneManager :=
  mkCutsceneManager x (cs_finalScores c).

Definition set_cs_finalScores x (c : CutsceneManager) : CutsceneManager :=
  mkCutsceneManager (cs_isPlaying c) x.

Definition set_healthBarFill x (d : Dom) : Dom :=
  mkDom x (scoreLeftElement d) (scoreRightElement d) (winMessageElement d)
    (gameUIElement d) (scoreboardElement d) (mainMenu d) (modeSelection d)
    (lobbyScreen d) (lobbyStatus d) (offerInput d) (answerInput d)
    (joinCodeSection d).

Definition set_scoreLeftElement x (d : Dom) : Dom :=
  mkDom (healthBarFill d) x (scoreRightElement d) (winMessageElement d)
    (gameUIElement d) (scoreboardElement d) (mainMenu d) (modeSelection d)
    (lobbyScreen d) (lobbyStatus d) (offerInput d) (answerInput d)
    (joinCodeSection d).

Definition set_scoreRightElement x (d : Dom) : Dom :=
  mkDom (healthBarFill d) (scoreLeftElement d) x (winMessageElement d)
    (gameUIElement d) (scoreboardElement d) (mainMenu d) (modeSelection d)
    (lobbyScreen d) (lobbyStatus d) (offerInput d) (answerInput d)
    (joinCodeSection d).

Definition set_winMessageElement x (d : Dom) : Dom :=
  mkDom (healthBarFill d) (scoreLeftElement d) (scoreRightElement d) x
    (gameUIElement d) (scoreboardElement d) (mainMenu d) (modeSelection d)
    (lobbyScreen d) (lobbyStatus d) (offerInput d) (answerInput d)
    (joinCodeSection d).

Definition set_gameUIElement x (d : Dom) : Dom :=
  mkDom (healthBarFill d) (scoreLeftElement d) (scoreRightElement d)
    (winMessageElement d) x (scoreboardElement d) (mainMenu d)
    (modeSelection d) (lobbyScreen d) (lobbyStatus d) (offerInput d)
    (answerInput d) (joinCodeSection d).

Definition set_scoreboardElement x (d : Dom) : Dom :=
  mkDom (healthBarFill d) (scoreLeftElement d) (scoreRightElement d)
    (winMessageElement d) (gameUIElement d) x (mainMenu d) (modeSelection d)
    (lobbyScreen d) (lobbyStatus d) (offerInput d) (answerInput d)
    (joinCodeSection d).

Definition set_mainMenu x (d : Dom) : Dom :=
  mkDom (healthBarFill d) (scoreLeftElement d) (scoreRightElement d)
    (winMessageElement d) (gameUIElement d) (scoreboardElement d) x
    (modeSelection d) (lobbyScreen d) (lobbyStatus d) (offerInput d)
    (answerInput d) (joinCodeSection d).

Definition set_modeSelection x (d : Dom) : Dom :=
  mkDom (healthBarFill d) (scoreLeftElement d) (scoreRightElement d)
    (winMessageElement d) (gameUIElement d) (scoreboardElement d)
    (mainMenu d) x (lobbyScreen d) (lobbyStatus d) (offerInput d)
    (answerInput d) (joinCodeSection d).

Definition set_lobbyScreen x (d : Dom) : Dom :=
  mkDom (healthBarFill d) (scoreLeftElement d) (scoreRightElement d)
    (winMessageElement d) (gameUIElement d) (scoreboardElement d)
    (mainMenu d) (modeSelection d) x (lobbyStatus d) (offerInput d)
    (answerInput d) (joinCodeSection d).

Definition set_lobbyStatus x (d : Dom) : Dom :=
  mkDom (healthBarFill d) (scoreLeftElement d) (scoreRightElement d)
    (winMessageElement d) (gameUIElement d) (scoreboardElement d)
    (mainMenu d) (modeSelection d) (lobbyScreen d) x (offerInput d)
    (answerInput d) (joinCodeSection d).

Definition set_offerInput x (d : Dom) : Dom :=
  mkDom (healthBarFill d) (scoreLeftElement d) (scoreRightElement d)
    (winMessageElement d) (gameUIElement d) (scoreboardElement d)
    (mainMenu d) (modeSelection d) (lobbyScreen d) (lobbyStatus d) x
    (answerInput d) (joinCodeSection d).

Definition set_answerInput x (d : Dom) : Dom :=
  mkDom (healthBarFill d) (scoreLeftElement d) (scoreRightElement d)
    (winMessageElement d) (gameUIElement d) (scoreboardElement d)
    (mainMenu d) (modeSelection d) (lobbyScreen d) (lobbyStatus d)
    (offerInput d) x (joinCodeSection d).

Definition set_joinCodeSection x (d : Dom) : Dom :=
  mkDom (healthBarFill d) (scoreLeftElement d) (scoreRightElement d)
    (winMessageElement d) (gameUIElement d) (scoreboardElement d)
    (mainMenu d) (modeSelection d) (lobbyScreen d) (lobbyStatus d)
    (offerInput d) (answerInput d) x.

Definition set_gameState x (w : World) : World :=
  mkWorld x (webrtcManager w) (cutsceneManager w) (menuManager w) (dom w)
    (objects w) (next_oid w) (ground w) (scene w) (collidables w) (trees w)
    (barriers w) (bullets w) (explosions w) (particles w)
    (decorationPositions w) (remotePlayerState w) (explosionAssets w)
    (woodAssets w) (isReloaded w) (reloadProgress w) (timers w)
    (next_timer w) (emitted w) (pending w) (randInts w) (clock w).

Definition set_webrtcManager x (w : World) : World :=
  mkWorld (gameState w) x (cutsceneManager w) (menuManager w) (dom w)
    (objects w) (next_oid w) (ground w) (scene w) (collidables w) (trees w)
    (barriers w) (bullets w) (explosions w) (particles w)
    (decorationPositions w) (remotePlayerState w) (explosionAssets w)
    (woodAssets w) (isReloaded w) (reloadProgress w) (timers w)
    (next_timer w) (emitted w) (pending w) (randInts w) (clock w).

Definition set_cutsceneManager x (w : World) : World :=
  mkWorld (gameState w) (webrtcManager w) x (menuManager w) (dom w)
    (objects w) (next_oid w) (ground w) (scene w) (collidables w) (trees w)
    (barriers w) (bullets w) (explosions w) (particles w)
    (decorationPositions w) (remotePlayerState w) (explosionAssets w)
    (woodAssets w) (isReloaded w) (reloadProgress w) (timers w)
    (next_timer w) (emitted w) (pending w) (randInts w) (clock w).

Definition set_dom x (w : World) : World :=
  mkWorld (gameState w) (webrtcManager w) (cutsceneManager w) (menuManager w)
    x (objects w) (next_oid w) (ground w) (scene w) (collidables w) (trees w)
    (barriers w) (bullets w) (explosions w) (particles w)
    (decorationPositions w) (remotePlayerState w) (explosionAssets w)
    (woodAssets w) (isReloaded w) (reloadProgress w) (timers w)
    (next_timer w) (emitted w) (pending w) (randInts w) (clock w).

Definition set_objects x (w : World) : World :=
  mkWorld (gameState w) (webrtcManager w) (cutsceneManager w) (menuManager w)
    (dom w) x (next_oid w) (ground w) (scene w) (collidables w) (trees w)
    (barriers w) (bullets w) (explosions w) (particles w)
    (decorationPositions w) (remotePlayerState w) (explosionAssets w)
    (woodAssets w) (isReloaded w) (reloadProgress w) (timers w)
    (next_timer w) (emitted w) (pending w) (randInts w) (clock w).

Definition set_next_oid x (w : World) : World :=
  mkWorld (gameState w) (webrtcManager w) (cutsceneManager w) (menuManager w)
    (dom w) (objects w) x (ground w) (scene w) (collidables w) (trees w)
    (barriers w) (bullets w) (explosions w) (particles w)
    (decorationPositions w) (remotePlayerState w) (explosionAssets w)
    (woodAssets w) (isReloaded w) (reloadProgress w) (timers w)
    (next_timer w) (emitted w) (pending w) (randInts w) (clock w).

Definition set_scene x (w : World) : World :=
  mkWorld (gameState w) (webrtcManager w) (cutsceneManager w) (menuManager w)
    (dom w) (objects w) (next_oid w) (ground w) x (collidables w) (trees w)
    (barriers w) (bullets w) (explosions w) (particles w)
    (decorationPositions w) (remotePlayerState w) (explosionAssets w)
    (woodAssets w) (isReloaded w) (reloadProgress w) (timers w)
    (next_timer w) (emitted w) (pending w) (randInts w) (clock w).

Definition set_collidables x (w : World) : World :=
  mkWorld (gameState w) (webrtcManager w) (cutsceneManager w) (menuManager w)
    (dom w) (objects w) (next_oid w) (ground w) (scene w) x (trees w)
    (barriers w) (bullets w) (explosions w) (particles w)
    (decorationPositions w) (remotePlayerState w) (explosionAssets w)
    (woodAssets w) (isReloaded w) (reloadProgress w) (timers w)
    (next_timer w) (emitted w) (pending w) (randInts w) (clock w).

Definition set_trees x (w : World) : World :=
  mkWorld (gameState w) (webrtcManager w) (cutsceneManager w) (menuManager w)
    (dom w) (objects w) (next_oid w) (ground w) (scene w) (collidables w) x
    (barriers w) (bullets w) (explosions w) (particles w)
    (decorationPositions w) (remotePlayerState w) (explosionAssets w)
    (woodAssets w) (isReloaded w) (reloadProgress w) (timers w)
    (next_timer w) (emitted w) (pending w) (randInts w) (clock w).

Definition set_barriers x (w : World) : World :=
  mkWorld (gameState w) (webrtcManager w) (cutsceneManager w) (menuManager w)
    (dom w) (objects w) (next_oid w) (ground w) (scene w) (collidables w)
    (trees w) x (bullets w) (explosions w) (particles w)
    (decorationPositions w) (remotePlayerState w) (explosionAssets w)
    (woodAssets w) (isReloaded w) (reloadProgress w) (timers w)
    (next_timer w) (emitted w) (pending w) (randInts w) (clock w).

Definition set_bullets x (w : World) : World :=
  mkWorld (gameState w) (webrtcManager w) (cutsceneManager w) (menuManager w)
    (dom w) (objects w) (next_oid w) (ground w) (scene w) (collidables w)
    (trees w) (barriers w) x (explosions w) (particles w)
    (decorationPositions w) (remotePlayerState w) (explosionAssets w)
    (woodAssets w) (isReloaded w) (reloadProgress w) (timers w)
    (next_timer w) (emitted w) (pending w) (randInts w) (clock w).

Definition set_explosions x (w : World) : World :=
  mkWorld (gameState w) (webrtcManager w) (cutsceneManager w) (menuManager w)
    (dom w) (objects w) (next_oid w) (ground w) (scene w) (collidables w)
    (trees w) (barriers w) (bullets w) x (particles w)
    (decorationPositions w) (remotePlayerState w) (explosionAssets w)
    (woodAssets w) (isReloaded w) (reloadProgress w) (timers w)
    (next_timer w) (emitted w) (pending w) (randInts w) (clock w).

Definition set_particles x (w : World) : World :=
  mkWorld (gameState w) (webrtcManager w) (cutsceneManager w) (menuManager w)
    (dom w) (objects w) (next_oid w) (ground w) (scene w) (collidables w)
    (trees w) (barriers w) (bullets w) (explosions w) x
    (decorationPositions w) (remotePlayerState w) (explosionAssets w)
    (woodAssets w) (isReloaded w) (reloadProgress w) (timers w)
    (next_timer w) (emitted w) (pending w) (randInts w) (clock w).

Definition set_decorationPositions x (w : World) : World :=
  mkWorld (gameState w) (webrtcManager w) (cutsceneManager w) (menuManager w)
    (dom w) (objects w) (next_oid w) (ground w) (scene w) (collidables w)
    (trees w) (barriers w) (bullets w) (explosions w) (particles w) x
    (remotePlayerState w) (explosionAssets w) (woodAssets w) (isReloaded w)
    (reloadProgress w) (timers w) (next_timer w) (emitted w) (pending w)
    (randInts w) (clock w).

Definition set_remotePlayerState x (w : World) : World :=
  mkWorld (gameState w) (webrtcManager w) (cutsceneManager w) (menuManager w)
    (dom w) (objects w) (next_oid w) (ground w) (scene w) (collidables w)
    (trees w) (barriers w) (bullets w) (explosions w) (particles w)
    (decorationPositions w) x (explosionAssets w) (woodAssets w)
    (isReloaded w) (reloadProgress w) (timers w) (next_timer w) (emitted w)
    (pending w) (randInts w) (clock w).

Definition set_explosionAssets x (w : World) : World :=
  mkWorld (gameState w) (webrtcManager w) (cutsceneManager w) (menuManager w)
    (dom w) (objects w) (next_oid w) (ground w) (scene w) (collidables w)
    (trees w) (barriers w) (bullets w) (explosions w) (particles w)
    (decorationPositions w) (remotePlayerState w) x (woodAssets w)
    (isReloaded w) (reloadProgress w) (timers w) (next_timer w) (emitted w)
    (pending w) (randInts w) (clock w).

Definition set_woodAssets x (w : World) : World :=
  mkWorld (gameState w) (webrtcManager w) (cutsceneManager w) (menuManager w)
    (dom w) (objects w) (next_oid w) (ground w) (scene w) (collidables w)
    (trees w) (barriers w) (bullets w) (explosions w) (particles w)
    (decorationPositions w) (remotePlayerState w) (explosionAssets w) x
    (isReloaded w) (reloadProgress w) (timers w) (next_timer w) (emitted w)
    (pending w) (randInts w) (clock w).

Definition set_isReloaded x (w : World) : World :=
  mkWorld (gameState w) (webrtcManager w) (cutsceneManager w) (menuManager w)
    (dom w) (objects w) (next_oid w) (ground w) (scene w) (collidables w)
    (trees w) (barriers w) (bullets w) (explosions w) (particles w)
    (decorationPositions w) (remotePlayerState w) (explosionAssets w)
    (woodAssets w) x (reloadProgress w) (timers w) (next_timer w) (emitted w)
    (pending w) (randInts w) (clock w).

Definition set_reloadProgress x (w : World) : World :=
  mkWorld (gameState w) (webrtcManager w) (cutsceneManager w) (menuManager w)
    (dom w) (objects w) (next_oid w) (ground w) (scene w) (collidables w)
    (trees w) (barriers w) (bullets w) (explosions w) (particles w)
    (decorationPositions w) (remotePlayerState w) (explosionAssets w)
    (woodAssets w) (isReloaded w) x (timers w) (next_timer w) (emitted w)
    (pending w) (randInts w) (clock w).

Definition set_timers x (w : World) : World :=
  mkWorld (gameState w) (webrtcManager w) (cutsceneManager w) (menuManager w)
    (dom w) (objects w) (next_oid w) (ground w) (scene w) (collidables w)
    (trees w) (barriers w) (bullets w) (explosions w) (particles w)
    (decorationPositions w) (remotePlayerState w) (explosionAssets w)
    (woodAssets w) (isReloaded w) (reloadProgress w) x (next_timer w)
    (emitted w) (pending w) (randInts w) (clock w).

Definition set_next_timer x (w : World) : World :=
  mkWorld (gameState w) (webrtcManager w) (cutsceneManager w) (menuManager w)
    (dom w) (objects w) (next_oid w) (ground w) (scene w) (collidables w)
    (trees w) (barriers w) (bullets w) (explosions w) (particles w)
    (decorationPositions w) (remotePlayerState w) (explosionAssets w)
    (woodAssets w) (isReloaded w) (reloadProgress w) (timers w) x (emitted w)
    (pending w) (randInts w) (clock w).

Definition set_emitted x (w : World) : World :=
  mkWorld (gameState w) (webrtcManager w) (cutsceneManager w) (menuManager w)
    (dom w) (objects w) (next_oid w) (ground w) (scene w) (collidables w)
    (trees w) (barriers w) (bullets w) (explosions w) (particles w)
    (decorationPositions w) (remotePlayerState w) (explosionAssets w)
    (woodAssets w) (isReloaded w) (reloadProgress w) (timers w)
    (next_timer w) x (pending w) (randInts w) (clock w).

Definition set_pending x (w : World) : World :=
  mkWorld (gameState w) (webrtcManager w) (cutsceneManager w) (menuManager w)
    (dom w) (objects w) (next_oid w) (ground w) (scene w) (collidables w)
    (trees w) (barriers w) (bullets w) (explosions w) (particles w)
    (decorationPositions w) (remotePlayerState w) (explosionAssets w)
    (woodAssets w) (isReloaded w) (reloadProgress w) (timers w)
    (next_timer w) (emitted w) x (randInts w) (clock w).

Definition set_randInts x (w : World) : World :=
  mkWorld (gameState w) (webrtcManager w) (cutsceneManager w) (menuManager w)
    (dom w) (objects w) (next_oid w) (ground w) (scene w) (collidables w)
    (trees w) (barriers w) (bullets w) (explosions w) (particles w)
    (decorationPositions w) (remotePlayerState w) (explosionAssets w)
    (woodAssets w) (isReloaded w) (reloadProgress w) (timers w)
    (next_timer w) (emitted w) (pending w) x (clock w).

(** Updates through a reference held in the game state. *)
Definition upd_gameState (f : GameState → GameState) (w : World) : World :=
  set_gameState (f (gameState w)) w.
Definition upd_webrtcManager (f : WebRTCManager → WebRTCManager) (w : World) : World :=
  set_webrtcManager (f (webrtcManager w)) w.
Definition upd_dom (f : Dom → Dom) (w : World) : World :=
  set_dom (f (dom w)) w.

(** The object a [PlayerKey] refers to, and assignment through it. *)
Definition player (k : PlayerKey) (g : GameState) : PlayerRecord :=
  match k with P1 => player1 g | P2 => player2 g end.
Definition upd_player (k : PlayerKey) (f : PlayerRecord → PlayerRecord)
    (g : GameState) : GameState :=
  match k with
  | P1 => set_player1 (f (player1 g)) g
  | P2 => set_player2 (f (player2 g)) g
  end.

(** ** Computations *)

Inductive Error : Type := TypeError | SyntaxError | InvalidStateError.

Inductive Outcome (A : Type) : Type :=
  | Ret (a : A)
  | Throw (e : Error).
Global Arguments Ret {A} a.
Global Arguments Throw {A} e.

(** A piece of JavaScript run to completion on the world. *)
Definition M (A : Type) : Type := World → Outcome A * World.

Global Instance M_ret : MRet M := λ A a w, (Ret a, w).
Global Instance M_bind : MBind M := λ A B f m w,
  match m w with
  | (Ret a, w') => f a w'
  | (Throw e, w') => (Throw e, w')
  end.

Definition get : M World := λ w, (Ret w, w).
Definition modify (f : World → World) : M unit := λ w, (Ret (), f w).
Definition throw {A} (e : Error) : M A := λ w, (Throw e, w).

(** [try { m } catch (error) { h error }]. *)
Definition try_catch {A} (m : M A) (h : Error → M A) : M A := λ w,
  match m w with
  | (Ret a, w') => (Ret a, w')
  | (Throw e, w') => h e w'
  end.

(** Reading a property of [o]: a [TypeError] when [o] is [null] or
    [undefined]. *)
Definition deref {A} (o : option A) : M A :=
  match o with Some a => mret a | None => throw TypeError end.

(** The world a computation leaves behind, and whether it returned. *)
Definition exec {A} (m : M A) (w : World) : World := (m w).2.
Definition returns {A} (m : M A) (w : World) : Prop := ∃ a, (m w).1 = Ret a.

(** [for (let i = l.length - 1; i >= 0; i--) body(i)] over a snapshot of
    the indices. *)
Fixpoint for_down (n : nat) (body : nat → M unit) : M unit :=
  match n with
  | O => mret ()
  | S i => body i ;; for_down i body
  end.

(** ** Three.js operations *)

Definition Vec3_add (a b : Vec3) : Vec3 :=
  mkVec3 (vx a + vx b) (vy a + vy b) (vz a + vz b).
Definition Vec3_sub (a b : Vec3) : Vec3 :=
  mkVec3 (vx a - vx b) (vy a - vy b) (vz a - vz b).
Definition Vec3_multiplyScalar (a : Vec3) (s : float) : Vec3 :=
  mkVec3 (vx a * s) (vy a * s) (vz a * s).
Definition Vec3_length (a : Vec3) : float :=
  sqrt (vx a * vx a + vy a * vy a + vz a * vz a).
(** [a.length() || 1]: 0 and NaN are falsy. *)
Definition Vec3_normalize (a : Vec3) : Vec3 :=
  let l := Vec3_length a in
  let l := if is_zero l || is_nan l then 1%float else l in
  Vec3_multiplyScalar a (1 / l).
Definition Vec3_distanceTo (a b : Vec3) : float :=
  let dx := (vx a - vx b)%float in
  let dy := (vy a - vy b)%float in
  let dz := (vz a - vz b)%float in
  sqrt (dx * dx + dy * dy + dz * dz).

(** [children.indexOf(x)] then [splice(index, 1)]: the first occurrence
    goes, if there is one. *)
Fixpoint remove_first (x : nat) (l : list nat) : list nat :=
  match l with
  | [] => []
  | y :: l' => if decide (x = y) then l' else y :: remove_first x l'
  end.

(** [l.indexOf(x)], with [None] for -1. *)
Definition indexOf (x : nat) (l : list nat) : option nat :=
  fst <$> list_find (λ y, y = x) l.

(** ** Constants of game.js *)

Definition maxPlayerHealth : float := 100.
Definition bulletSpeed : float := 197.
Definition bulletGravityStrength : float := 50.
Definition explosionBlastRadius : float := 10.
Definition explosionMaxDamage : float := 50.

(** The decimal literals 0.8 and 0.4 of the decoration loaders, rounded to
    binary64 as JavaScript rounds them. *)
#[local] Set Warnings "-inexact-float".
Definition warehouseOffsetY : float := 0.8.
Definition barrierOffsetY : float := 0.4.
#[local] Set Warnings "inexact-float".

(** ** Small steps shared by the handlers *)

(** [scene.add(x)] for a fresh object and [scene.remove(x)]. *)
Definition scene_add (x : nat) : M unit :=
  modify (λ w, set_scene (scene w ++ [x]) w).
Definition scene_remove (x : nat) : M unit :=
  modify (λ w, set_scene (remove_first x (scene w)) w).

(** The identity of a newly constructed object. *)
Definition fresh_oid : M nat :=
  w ← get;
  modify (set_next_oid (S (next_oid w))) ;;
  mret (next_oid w).

Definition setTimeout (cb : Callback) (delay : Z) : M nat :=
  w ← get;
  modify (λ w, set_next_timer (S (next_timer w))
                 (set_timers (timers w ++ [mkTimer (next_timer w) delay cb]) w)) ;;
  mret (next_timer w).

Definition clearTimeout (handle : option nat) : M unit :=
  modify (λ w, set_timers
                 (filter (λ t, Some (timer_id t) ≠ handle) (timers w)) w).

(** [showElement] and [hideElement] on an element that may be absent. *)
Definition showElement (e : option bool) : option bool := (λ _, true) <$> e.
Definition hideElement (e : option bool) : option bool := (λ _, false) <$> e.

Section Platform.

(** [JSON.stringify] on a message object, [JSON.parse] on a received frame
    read as a message object and on a pasted description ([None] when it
    throws a [SyntaxError]), and [String.prototype.trim]. *)
Variable JSON_stringify : Envelope → string.
Variable JSON_parse_message : string → option Envelope.
Variable JSON_parse : string → option JSON.
Variable trim : string → string.

(** [raycaster.set(origin, direction)], [raycaster.far = far], then
    [raycaster.intersectObjects(targets, true)]: the point of the first
    intersection, if any. *)
Variable intersectObjects :
  (nat → Obj) → Vec3 → Vec3 → float → list nat → option Vec3.

(** ** webrtc.js: sending *)

(** [RTCDataChannel.send]: an [InvalidStateError] unless the channel is
    open. *)
Definition dataChannel_send (frame : string) : M unit :=
  w ← get;
  ch ← deref (dataChannel (webrtcManager w));
  if decide (readyState ch = open)
  then modify (upd_webrtcManager
                 (set_dataChannel (Some (set_sent (sent ch ++ [frame]) ch))))
  else throw InvalidStateError.

Definition send (type : MsgType) (data : Payload) : M bool :=
  w ← get;
  if negb (isConnected (webrtcManager w))
     || negb (bool_decide (is_Some (dataChannel (webrtcManager w))))
  then mret false
  else
    try_catch
      (let message := mkEnvelope type data (clock w) in
       dataChannel_send (JSON_stringify message) ;;
       mret true)
      (λ error, mret false).

Definition updateStatus (message : string) : M unit :=
  modify (upd_dom (set_lobbyStatus message)).

Definition showLobby : M unit := modify (upd_dom (set_lobbyScreen true)).
Definition hideLobby : M unit := modify (upd_dom (set_lobbyScreen false)).

(** ** game.js: display *)

Definition updateHealthBar : M unit :=
  w ← get;
  match healthBarFill (dom w) with
  | Some _ =>
      lp ← deref (localPlayer (gameState w));
      let healthPercent :=
        (health (player lp (gameState w)) / maxPlayerHealth * 100)%float in
      modify (upd_dom (set_healthBarFill (Some healthPercent)))
  | None => mret ()
  end.

Definition updateScoreboard : M unit :=
  modify (λ w,
    let g := gameState w in
    upd_dom (λ d,
      let d :=
        match scoreLeftElement d with
        | Some _ =>
            set_scoreLeftElement
              (Some (username (player1 g), score (player1 g))) d
        | None => d
        end in
      match scoreRightElement d with
      | Some _ =>
          set_scoreRightElement
            (Some (username (player2 g), score (player2 g))) d
      | None => d
      end) w).

(** [showWinMessage(getRandomWinMessage(winner, loser), color)]; the
    template drawn by [Math.random] is not recorded. *)
Definition showWinMessage (winner loser color : option string) : M unit :=
  w ← get;
  match winMessageElement (dom w) with
  | None => mret ()
  | Some _ =>
      modify (upd_dom
        (set_winMessageElement (Some (mkWinMessage winner loser color true)))) ;;
      _ ← setTimeout CbHideWinMessage 3000;
      mret ()
  end.

(** ** game.js: the end of a match *)

(** [cutsceneManager.playCutscene(player1Data, player2Data, finalScores)]
    up to its first [await]. The function is [async]: the [TypeError] of
    reading [tank.position] on a missing tank rejects its promise and
    does not reach the caller. *)
Definition playCutscene (tank1 tank2 : option Tank) (finalScores : nat * nat)
    : M unit :=
  w ← get;
  if cs_isPlaying (cutsceneManager w) then mret ()
  else
    modify (λ w, set_cutsceneManager (set_cs_isPlaying true (cutsceneManager w)) w) ;;
    modify (upd_dom (λ d, set_scoreboardElement (hideElement (scoreboardElement d)) d)) ;;
    match tank1, tank2 with
    | Some _, Some _ =>
        modify (λ w, set_cutsceneManager
                       (set_cs_finalScores (Some finalScores) (cutsceneManager w)) w)
    | _, _ => mret ()
    end.

Definition triggerFinalCutscene : M unit :=
  modify (upd_gameState (set_isControlsLocked true)) ;;
  modify (upd_dom (λ d, set_gameUIElement (hideElement (gameUIElement d)) d)) ;;
  w ← get;
  let g := gameState w in
  let finalScores := (score (player1 g), score (player2 g)) in
  playCutscene (tank (player1 g)) (tank (player2 g)) finalScores.

Definition checkWinCondition : M unit :=
  w ← get;
  lp ← deref (localPlayer (gameState w));
  if score_ge (score (player lp (gameState w))) (winThreshold (gameState w))
  then triggerFinalCutscene
  else
    rp ← deref (remotePlayer (gameState w));
    if score_ge (score (player rp (gameState w))) (winThreshold (gameState w))
    then triggerFinalCutscene
    else mret ().

(** ** game.js: deaths *)

(** [p.score++] through a reference. *)
Definition score_incr (k : PlayerKey) : M unit :=
  modify (upd_gameState (upd_player k (λ p, set_score (S (score p)) p))).

Definition handleLocalDeath : M unit :=
  w ← get;
  (if isMultiplayer (gameState w) && negb (isTestMode (gameState w))
   then _ ← send MSG_TYPES.DEATH EmptyData; mret ()
   else mret ()) ;;
  rp ← deref (remotePlayer (gameState w));
  score_incr rp ;;
  updateScoreboard ;;
  w ← get;
  lp ← deref (localPlayer (gameState w));
  showWinMessage (username (player rp (gameState w)))
                 (username (player lp (gameState w)))
                 (color (player rp (gameState w))) ;;
  checkWinCondition ;;
  _ ← setTimeout CbRespawnLocalPlayer 2000;
  mret ().

Definition handleRemoteDeath (data : Payload) : M unit :=
  w ← get;
  lp ← deref (localPlayer (gameState w));
  score_incr lp ;;
  updateScoreboard ;;
  w ← get;
  rp ← deref (remotePlayer (gameState w));
  showWinMessage (username (player lp (gameState w)))
                 (username (player rp (gameState w)))
                 (color (player lp (gameState w))) ;;
  checkWinCondition.

(** The callback of the timer set by [handleLocalDeath].
    ([updateReloadBar] and [updateActionInstructions] only write to the
    page.) *)
Definition respawnLocalPlayer : M unit :=
  w ← get;
  lp ← deref (localPlayer (gameState w));
  modify (upd_gameState (upd_player lp (set_health maxPlayerHealth))) ;;
  updateHealthBar ;;
  w ← get;
  (match tank (player lp (gameState w)) with
   | Some t =>
       let x := if decide (role (gameState w) = Some HOST)
                then (-50)%float else 50%float in
       modify (upd_gameState (upd_player lp
         (set_tank (Some (mkTank (tank_oid t) (mkVec3 x 30 0) Quat_identity)))))
   | None => mret ()
   end) ;;
  modify (set_isReloaded true) ;;
  modify (set_reloadProgress 1).

(** ** game.js: damage *)

(** [p.health -= damage; p.health = Math.max(0, p.health)]. *)
Definition apply_damage (k : PlayerKey) (damage : float) : M unit :=
  modify (upd_gameState (upd_player k (λ p, set_health (health p - damage) p))) ;;
  modify (upd_gameState (upd_player k (λ p, set_health (Math_max 0 (health p)) p))).

(** The body shared by the two branches of [handleRemoteDamage] and by
    the owner branches of [checkExplosionDamage]. *)
Definition damage_own (k : PlayerKey) (damage : float) : M unit :=
  apply_damage k damage ;;
  updateHealthBar ;;
  w ← get;
  if (health (player k (gameState w)) <=? 0)%float
  then handleLocalDeath
  else mret ().

Definition handleRemoteDamage (data : Payload) : M unit :=
  w ← get;
  if bool_decide (data_target data = Some "player1")
     && bool_decide (role (gameState w) = Some HOST)
  then damage_own P1 (data_damage data)
  else if bool_decide (data_target data = Some "player2")
          && bool_decide (role (gameState w) = Some CLIENT)
  then damage_own P2 (data_damage data)
  else mret ().

(** ** game.js: explosions *)

Fixpoint add_particles (count : nat) : M unit :=
  match count with
  | O => mret ()
  | S k =>
      particle ← fresh_oid;
      scene_add particle ;;
      modify (λ w, set_particles (particles w ++ [particle]) w) ;;
      add_particles k
  end.

(** [count] is the next value drawn by [THREE.MathUtils.randInt(10, 15)]. *)
Definition spawnWoodParticles (position : Vec3) : M unit :=
  w ← get;
  if negb (woodAssets w) then mret ()
  else
    let count := hd 10 (randInts w) in
    modify (set_randInts (tl (randInts w))) ;;
    add_particles count.

Definition explosion_damage (distance : float) : float :=
  let damageRatio := Math_max 0 (1 - distance / explosionBlastRadius) in
  (explosionMaxDamage * damageRatio)%float.

(** One of the two tank blocks of [checkExplosionDamage]. *)
Definition checkTankDamage (position : Vec3) (k : PlayerKey) (owner : Role)
    (target : string) : M unit :=
  w ← get;
  match tank (player k (gameState w)) with
  | Some t =>
      let distance := Vec3_distanceTo position (tank_position t) in
      if (distance <? explosionBlastRadius)%float then
        let damage := explosion_damage distance in
        if decide (role (gameState w) = Some owner) then damage_own k damage
        else if isMultiplayer (gameState w) && negb (isTestMode (gameState w))
        then _ ← send MSG_TYPES.DAMAGE (DamageData damage target); mret ()
        else mret ()
      else mret ()
  | None => mret ()
  end.

(** The body of the loop over [collidables] in [checkExplosionDamage]. *)
Definition checkTreeDamage (position : Vec3) (i : nat) : M unit :=
  w ← get;
  collidable ← deref (collidables w !! i);
  let o := objects w collidable in
  if decide (userData_type o = "tree") then
    let distance := Vec3_distanceTo position (obj_position o) in
    if (distance <? explosionBlastRadius + 5)%float then
      spawnWoodParticles (obj_position o) ;;
      scene_remove collidable ;;
      modify (λ w, set_collidables (delete i (collidables w)) w) ;;
      w ← get;
      (match indexOf collidable (trees w) with
       | Some treeIdx => modify (set_trees (delete treeIdx (trees w)))
       | None => mret ()
       end) ;;
      if isMultiplayer (gameState w) && negb (isTestMode (gameState w))
      then _ ← send MSG_TYPES.TREE_DESTROYED
                 (TreeDestroyedData (userData_id o)); mret ()
      else mret ()
    else mret ()
  else mret ().

Definition checkExplosionDamage (position : Vec3) : M unit :=
  checkTankDamage position P1 HOST "player1" ;;
  checkTankDamage position P2 CLIENT "player2" ;;
  w ← get;
  for_down (length (collidables w)) (checkTreeDamage position).

(** [explosionAssets] stands for
    [explosionSpriteSheet && explosionSoundBuffer]. *)
Definition createExplosion (position : Vec3) (isLocal : bool) : M unit :=
  w ← get;
  if negb (explosionAssets w) then mret ()
  else
    explosion ← fresh_oid;
    audioHelper ← fresh_oid;
    scene_add audioHelper ;;
    scene_add explosion ;;
    modify (λ w, set_explosions
      (explosions w ++ [mkExplosion explosion position 0 0 audioHelper]) w) ;;
    if isLocal then checkExplosionDamage position else mret ().

(** ** game.js: bullets *)

Definition spawnBullet (position direction : Vec3) (isLocal : bool) : M unit :=
  bullet ← fresh_oid;
  scene_add bullet ;;
  modify (λ w, set_bullets
    (bullets w ++ [mkBullet bullet position
                     (Vec3_multiplyScalar direction bulletSpeed) 0 position
                     isLocal]) w).

(** [fromArray(undefined)] throws a [TypeError]. *)
Definition spawnRemoteBullet (data : Payload) : M unit :=
  match data with
  | BulletSpawnData position direction => spawnBullet position direction false
  | _ => throw TypeError
  end.

Definition removeBullet (bullet : Bullet) (index : nat) : M unit :=
  scene_remove (bullet_oid bullet) ;;
  modify (λ w, set_bullets (delete index (bullets w)) w).

(** The body of the loop in [updateBullets], for the bullet found at
    index [i]. *)
Definition updateBullet (delta : float) (i : nat) (bullet : Bullet) : M unit :=
  w ← get;
  let lastPosition := bullet_position bullet in
  let velocity :=
    mkVec3 (vx (bullet_velocity bullet))
           (vy (bullet_velocity bullet) - bulletGravityStrength * delta)
           (vz (bullet_velocity bullet)) in
  let position :=
    Vec3_add (bullet_position bullet) (Vec3_multiplyScalar velocity delta) in
  let moved :=
    mkBullet (bullet_oid bullet) position velocity (bullet_age bullet)
             lastPosition (isLocal bullet) in
  modify (λ w, set_bullets (<[i := moved]> (bullets w)) w) ;;
  let bulletTravelVec := Vec3_sub position lastPosition in
  let bulletTravelDist := Vec3_length bulletTravelVec in
  let intersects :=
    if (0 <? bulletTravelDist)%float
    then intersectObjects (objects w) lastPosition
           (Vec3_normalize bulletTravelVec) bulletTravelDist
           (ground w :: collidables w)
    else None in
  match intersects with
  | Some point =>
      createExplosion point (isLocal bullet) ;;
      removeBullet moved i
  | None =>
      let aged :=
        mkBullet (bullet_oid bullet) position velocity
                 (bullet_age bullet + delta) lastPosition (isLocal bullet) in
      modify (λ w, set_bullets (<[i := aged]> (bullets w)) w) ;;
      if (5 <? bullet_age aged)%float then removeBullet aged i
      else mret ()
  end.

Definition updateBullets (delta : float) : M unit :=
  w ← get;
  for_down (length (bullets w)) (λ i,
    w ← get;
    bullet ← deref (bullets w !! i);
    updateBullet delta i bullet).

(** ** game.js: assets *)

(** [loadAssets]: the wood particle geometry and material exist at once;
    the explosion sound arrives in the callback of its loader. *)
Definition loadAssets : M unit := modify (set_woodAssets true).
Definition explosionSound_onload : M unit := modify (set_explosionAssets true).

(** ** game.js: the map *)

(** What [Math.random], [randFloat] and the ground raycast yield for one
    decoration: its position, rotation and scale. The length of the list
    of draws is the value of [randInt] for the count. *)
Record Draw : Type := mkDraw {
  draw_x : float;
  draw_z : float;
  draw_rotY : float;
  draw_groundY : float;
  draw_scale : float
}.

(** [for (let i = start; i < start + draws.length; i++) body(i, draw)]. *)
Fixpoint for_each_draw (i : nat) (draws : list Draw)
    (body : nat → Draw → M unit) : M unit :=
  match draws with
  | [] => mret ()
  | d :: rest => body i d ;; for_each_draw (S i) rest body
  end.

Definition push_dp_warehouses (p : Placement) (d : DecorationPositions) :=
  mkDecorationPositions (dp_warehouses d ++ [p]) (dp_trees d) (dp_barriers d).
Definition push_dp_trees (p : TreePlacement) (d : DecorationPositions) :=
  mkDecorationPositions (dp_warehouses d) (dp_trees d ++ [p]) (dp_barriers d).
Definition push_dp_barriers (p : Placement) (d : DecorationPositions) :=
  mkDecorationPositions (dp_warehouses d) (dp_trees d) (dp_barriers d ++ [p]).

(** The callback of the loader in [loadWarehouse]. *)
Definition loadWarehouse (draws : list Draw) : M unit :=
  for_each_draw 0 draws (λ i d,
    warehouse ← fresh_oid;
    let y := (draw_groundY d + warehouseOffsetY)%float in
    modify (λ w, set_objects
      (<[warehouse := mkObj "warehouse" None (mkVec3 (draw_x d) y (draw_z d))]>
         (objects w)) w) ;;
    scene_add warehouse ;;
    modify (λ w, set_collidables (collidables w ++ [warehouse]) w) ;;
    modify (λ w, set_decorationPositions
      (push_dp_warehouses (mkPlacement (draw_x d) y (draw_z d) (draw_rotY d))
         (decorationPositions w)) w)).

(** The callback of the loader in [loadTrees]. *)
Definition loadTrees (draws : list Draw) : M unit :=
  for_each_draw 0 draws (λ i d,
    tree ← fresh_oid;
    let id := "tree_" +:+ pretty i in
    modify (λ w, set_objects
      (<[tree := mkObj "tree" (Some id)
                   (mkVec3 (draw_x d) (draw_groundY d) (draw_z d))]>
         (objects w)) w) ;;
    scene_add tree ;;
    modify (λ w, set_collidables (collidables w ++ [tree]) w) ;;
    modify (λ w, set_trees (trees w ++ [tree]) w) ;;
    modify (λ w, set_decorationPositions
      (push_dp_trees
         (mkTreePlacement id (draw_x d) (draw_groundY d) (draw_z d)
            (draw_rotY d) (draw_scale d))
         (decorationPositions w)) w)).

(** The callback of the loader in [loadBarriers]. *)
Definition loadBarriers (draws : list Draw) : M unit :=
  for_each_draw 0 draws (λ i d,
    barrier ← fresh_oid;
    let y := (draw_groundY d - barrierOffsetY)%float in
    modify (λ w, set_objects
      (<[barrier := mkObj "barrier" None (mkVec3 (draw_x d) y (draw_z d))]>
         (objects w)) w) ;;
    scene_add barrier ;;
    modify (λ w, set_collidables (collidables w ++ [barrier]) w) ;;
    modify (λ w, set_barriers (barriers w ++ [barrier]) w) ;;
    modify (λ w, set_decorationPositions
      (push_dp_barriers (mkPlacement (draw_x d) y (draw_z d) (draw_rotY d))
         (decorationPositions w)) w)).

(** [generateMap], with the three loader callbacks run in the order the
    loaders were started. *)
Definition generateMap (warehouseDraws treeDraws barrierDraws : list Draw)
    : M unit :=
  w ← get;
  scene_add (ground w) ;;
  loadWarehouse warehouseDraws ;;
  loadTrees treeDraws ;;
  loadBarriers barrierDraws.

(** [x || []] on an array that may be missing. *)
Definition or_empty {A} (x : option (list A)) : list A := default [] x.

Definition syncMapFromHost (mapData : MapData) : M unit :=
  modify (set_decorationPositions
    (mkDecorationPositions (or_empty (md_warehouses mapData))
                           (or_empty (md_trees mapData))
                           (or_empty (md_barriers mapData)))).

(** A loop that leaves at the first iteration whose body answers
    [true] ([break]). *)
Fixpoint for_down_until (n : nat) (body : nat → M bool) : M unit :=
  match n with
  | O => mret ()
  | S i => stop ← body i; if stop : bool then mret () else for_down_until i body
  end.

(** What [handleRemoteTreeDestruction] does once [trees[i]] matches. *)
Definition removeMatchedTree (i tree : nat) : M unit :=
  scene_remove tree ;;
  modify (λ w, set_trees (delete i (trees w)) w) ;;
  w ← get;
  let colIdx := trees w !! i ≫= (λ t, indexOf t (collidables w)) in
  match colIdx with
  | Some c => modify (set_collidables (delete c (collidables w)))
  | None => mret ()
  end.

Definition handleRemoteTreeDestruction (data : Payload) : M unit :=
  let treeId := data_treeId data in
  w ← get;
  for_down_until (length (trees w)) (λ i,
    w ← get;
    tree ← deref (trees w !! i);
    if decide (userData_id (objects w tree) = treeId) then
      removeMatchedTree i tree ;;
      mret true
    else mret false).

Definition handleRoundEnd (data : Payload) : M unit := mret ().

(** ** game.js: starting a match *)

Definition createTankGroup (position : Vec3) : M Tank :=
  tank ← fresh_oid;
  scene_add tank ;;
  mret (mkTank tank position Quat_identity).

(** [createTanks]. ([loadTankModels] starts loaders whose callbacks only
    attach meshes.) *)
Definition createTanks : M unit :=
  player1Tank ← createTankGroup (mkVec3 (-50) 30 0);
  modify (upd_gameState (upd_player P1 (set_tank (Some player1Tank)))) ;;
  player2Tank ← createTankGroup (mkVec3 50 30 0);
  modify (upd_gameState (upd_player P2 (set_tank (Some player2Tank)))) ;;
  w ← get;
  if decide (role (gameState w) = Some HOST)
  then modify (upd_gameState (λ g,
         set_remotePlayer (Some P2) (set_localPlayer (Some P1) g)))
  else modify (upd_gameState (λ g,
         set_remotePlayer (Some P1) (set_localPlayer (Some P2) g))).

Definition startGame : M unit :=
  modify (upd_gameState (set_gameStarted true)) ;;
  createTanks ;;
  modify (upd_dom (λ d, set_gameUIElement (showElement (gameUIElement d)) d)) ;;
  modify (upd_dom (λ d,
    set_scoreboardElement (showElement (scoreboardElement d)) d)) ;;
  updateScoreboard ;;
  modify (upd_gameState (set_isRoundActive true)) ;;
  w ← get;
  if isMultiplayer (gameState w) && negb (isTestMode (gameState w))
  then _ ← send MSG_TYPES.READY EmptyData; mret ()
  else mret ().

(** ** game.js: incoming messages *)

Definition updateRemotePlayer (data : Payload) : M unit :=
  w ← get;
  rp ← deref (remotePlayer (gameState w));
  match tank (player rp (gameState w)) with
  | None => mret ()
  | Some _ =>
      match data with
      | PlayerUpdateData position rotation headRotation turretRotation velocity =>
          modify (set_remotePlayerState
            (mkRemoteSnapshot position rotation headRotation turretRotation
               velocity (clock w)))
      | _ => throw TypeError
      end
  end.

Definition handleNetworkMessage (message : Envelope) : M unit :=
  let t := type message in
  let d := data message in
  if decide (t = MSG_TYPES.PLAYER_INFO) then
    w ← get;
    let k := if decide (role (gameState w) = Some HOST) then P2 else P1 in
    modify (upd_gameState (upd_player k (set_username (data_username d)))) ;;
    modify (upd_gameState (upd_player k (set_color (data_color d))))
  else if decide (t = MSG_TYPES.GAME_START) then
    modify (upd_gameState (set_gameMode (data_mode d))) ;;
    modify (upd_gameState (set_winThreshold (getWinThreshold (data_mode d)))) ;;
    (match data_mapData d with
     | Some mapData => syncMapFromHost mapData
     | None => mret ()
     end) ;;
    startGame
  else if decide (t = MSG_TYPES.PLAYER_UPDATE) then updateRemotePlayer d
  else if decide (t = MSG_TYPES.BULLET_SPAWN) then spawnRemoteBullet d
  else if decide (t = MSG_TYPES.DAMAGE) then handleRemoteDamage d
  else if decide (t = MSG_TYPES.DEATH) then handleRemoteDeath d
  else if decide (t = MSG_TYPES.ROUND_END) then handleRoundEnd d
  else if decide (t = MSG_TYPES.TREE_DESTROYED) then handleRemoteTreeDestruction d
  else mret ().

(** ** game.js: listeners on [webrtcManager] *)

Definition showMainMenu : M unit := modify (upd_dom (set_mainMenu true)).

(** The ['connected'] listener. *)
Definition on_connected (r : option Role) : M unit :=
  w ← get;
  _ ← send MSG_TYPES.PLAYER_INFO
        (PlayerInfoData (Some (mm_username (menuManager w)))
                        (Some (mm_color (menuManager w))));
  if decide (r = Some HOST)
  then _ ← send MSG_TYPES.GAME_START
             (GameStartData (gameMode (gameState w))
                (Some (mapData_of (decorationPositions w))));
       mret ()
  else mret ().

(** The listeners registered by [setupWebRTCListeners]; the
    ['disconnected'] listener only writes to the console, and nothing
    listens to ['error'] or ['timeout']. *)
Definition listener (ev : Event) : M unit :=
  match ev with
  | EvConnected r => on_connected r
  | EvMessage message => handleNetworkMessage message
  | EvDisconnected => mret ()
  | EvCancelled => showMainMenu
  | EvError => mret ()
  | EvTimeout => mret ()
  end.

(** [EventEmitter.emit], with the emitted event kept in a log. *)
Definition emit (ev : Event) : M unit :=
  modify (λ w, set_emitted (emitted w ++ [ev]) w) ;;
  listener ev.

(** ** webrtc.js: the data channel callbacks *)

Definition dataChannel_onopen : M unit :=
  modify (upd_webrtcManager (set_isConnected true)) ;;
  w ← get;
  clearTimeout (connectionTimeout (webrtcManager w)) ;;
  emit (EvConnected (rtc_role (webrtcManager w))).

Definition dataChannel_onclose : M unit :=
  modify (upd_webrtcManager (set_isConnected false)) ;;
  emit EvDisconnected.

Definition dataChannel_onerror : M unit := emit EvError.

Definition dataChannel_onmessage (event_data : string) : M unit :=
  try_catch
    (match JSON_parse_message event_data with
     | Some message => emit (EvMessage message)
     | None => throw SyntaxError
     end)
    (λ error, mret ()).

(** The [ondatachannel] callback that [createPeerConnection] installs:
    the responder receives the channel the initiator created. *)
Definition peerConnection_ondatachannel (channel : DataChannel) : M unit :=
  modify (upd_webrtcManager (set_dataChannel (Some channel))).

(** The channel changes state and then fires the matching callback. *)
Definition set_channel_state (s : ReadyState) : M unit :=
  modify (upd_webrtcManager (λ m,
    set_dataChannel (set_readyState s <$> dataChannel m) m)).
Definition channel_opens : M unit := set_channel_state open ;; dataChannel_onopen.
Definition channel_closes : M unit := set_channel_state closed ;; dataChannel_onclose.

(** ** webrtc.js: negotiation *)

(** [createPeerConnection]: [new RTCPeerConnection(config)] and the
    installation of its callbacks. *)
Definition createPeerConnection : M unit :=
  modify (upd_webrtcManager (λ m,
    set_pcs_created (S (pcs_created m))
      (set_peerConnection (Some (pcs_created m)) m))).

Definition setConnectionTimeout : M unit :=
  handle ← setTimeout CbConnectionTimeout 60000;
  modify (upd_webrtcManager (set_connectionTimeout (Some handle))).

(** [startHost] up to [await this.peerConnection.createOffer()]. *)
Definition startHost : M unit :=
  modify (upd_webrtcManager (set_rtc_role (Some HOST))) ;;
  showLobby ;;
  createPeerConnection ;;
  modify (upd_webrtcManager
    (set_dataChannel (Some (mkDataChannel connecting [])))) ;;
  modify (λ w, set_pending (pending w ++ [AwaitCreateOffer]) w).

Definition startJoin : M unit :=
  modify (upd_webrtcManager (set_rtc_role (Some CLIENT))) ;;
  showLobby ;;
  modify (upd_dom (set_joinCodeSection true)) ;;
  updateStatus "Paste the host's Offer JSON below." ;;
  setConnectionTimeout.

(** [handleOfferSubmit] up to
    [await this.peerConnection.setRemoteDescription(offer)]. *)
Definition handleOfferSubmit : M unit :=
  w ← get;
  let offerJSON := trim (offerInput (dom w)) in
  if decide (offerJSON = "") then
    updateStatus "Please paste the Offer JSON from the host."
  else
    updateStatus "Connecting..." ;;
    try_catch
      (offer ← match JSON_parse offerJSON with
               | Some v => mret v
               | None => throw SyntaxError
               end;
       createPeerConnection ;;
       modify (λ w, set_pending (pending w ++ [AwaitSetRemoteOffer offer]) w))
      (λ error,
         updateStatus
           "Invalid Offer JSON or connection failed. Please try again.").

(** [handleAnswerSubmit] up to
    [await this.peerConnection.setRemoteDescription(answer)]. *)
Definition handleAnswerSubmit : M unit :=
  w ← get;
  let answerJSON := trim (answerInput (dom w)) in
  if decide (answerJSON = "") then
    updateStatus "Please paste the Answer JSON from your opponent."
  else
    updateStatus "Processing answer..." ;;
    try_catch
      (answer ← match JSON_parse answerJSON with
                | Some v => mret v
                | None => throw SyntaxError
                end;
       w ← get;
       _ ← deref (peerConnection (webrtcManager w));
       modify (λ w, set_pending (pending w ++ [AwaitSetRemoteAnswer answer]) w))
      (λ error,
         updateStatus "Invalid Answer JSON. Please check and try again.").

Definition cancelConnection : M unit :=
  w ← get;
  clearTimeout (connectionTimeout (webrtcManager w)) ;;
  (match peerConnection (webrtcManager w) with
   | Some pc =>
       modify (upd_webrtcManager (λ m,
         set_peerConnection None (set_pcs_closed (pcs_closed m ++ [pc]) m)))
   | None => mret ()
   end) ;;
  (match dataChannel (webrtcManager w) with
   | Some _ => modify (upd_webrtcManager (set_dataChannel None))
   | None => mret ()
   end) ;;
  modify (upd_webrtcManager (set_isConnected false)) ;;
  hideLobby ;;
  emit EvCancelled.

(** The user pastes text into the offer or the answer input. *)
Definition paste_offer (text : string) : M unit :=
  modify (upd_dom (set_offerInput text)).
Definition paste_answer (text : string) : M unit :=
  modify (upd_dom (set_answerInput text)).

(** ** game.js: listeners on [menuManager] *)

Definition on_host (mode : option string) : M unit :=
  modify (upd_gameState (set_gameMode mode)) ;;
  modify (upd_gameState (set_winThreshold (getWinThreshold mode))) ;;
  modify (upd_gameState (set_role (Some HOST))) ;;
  modify (upd_gameState (set_isMultiplayer true)) ;;
  w ← get;
  modify (upd_gameState (upd_player P1
    (set_username (Some (mm_username (menuManager w)))))) ;;
  modify (upd_gameState (upd_player P1
    (set_color (Some (mm_color (menuManager w)))))) ;;
  modify (upd_dom (set_mainMenu false)) ;;
  modify (upd_dom (set_modeSelection false)) ;;
  startHost.

Definition on_join : M unit :=
  modify (upd_gameState (set_role (Some CLIENT))) ;;
  modify (upd_gameState (set_isMultiplayer true)) ;;
  w ← get;
  modify (upd_gameState (upd_player P2
    (set_username (Some (mm_username (menuManager w)))))) ;;
  modify (upd_gameState (upd_player P2
    (set_color (Some (mm_color (menuManager w)))))) ;;
  modify (upd_dom (set_mainMenu false)) ;;
  startJoin.

Definition on_test_mode : M unit :=
  modify (upd_gameState (set_isTestMode true)) ;;
  modify (upd_gameState (set_role (Some HOST))) ;;
  modify (upd_gameState (set_isMultiplayer false)) ;;
  modify (upd_gameState (set_gameMode (Some GAME_MODES.BO3))) ;;
  modify (upd_gameState (set_winThreshold (Finite 2))) ;;
  w ← get;
  modify (upd_gameState (upd_player P1
    (set_username (Some (mm_username (menuManager w)))))) ;;
  modify (upd_gameState (upd_player P1
    (set_color (Some (mm_color (menuManager w)))))) ;;
  modify (upd_gameState (upd_player P2 (set_username (Some "DummyBot")))) ;;
  modify (upd_gameState (upd_player P2 (set_color (Some "blue")))) ;;
  modify (upd_dom (set_mainMenu false)) ;;
  startGame.

(** ** cutscene.js: the winner *)

(** The winner that [runCutsceneSequence] reads off the final scores
    [(player1, player2)]:
    [finalScores.player1 > finalScores.player2 ? 'player1' : 'player2']. *)
Definition cutscene_winner (finalScores : nat * nat) : PlayerKey :=
  if (finalScores.2 <? finalScores.1)%nat then P1 else P2.

End Platform.

(** * utils.js: user names *)

(** A JavaScript string as the sequence of its UTF-16 code units, so that
    [length] is the string's [length]. *)
Definition CodeUnits : Type := list N.

(** The WhiteSpace and LineTerminator code points, which
    [String.prototype.trim] strips from both ends. *)
Definition isWhiteSpace (c : N) : bool :=
  bool_decide (c ∈ [9; 10; 11; 12; 13; 32; 160; 5760; 8232; 8233; 8239;
                    8287; 12288; 65279]%N)
  || ((8192 <=? c) && (c <=? 8202))%N.

Fixpoint trimStart (s : CodeUnits) : CodeUnits :=
  match s with
  | c :: s' => if isWhiteSpace c then trimStart s' else s
  | [] => []
  end.

Definition trimEnd (s : CodeUnits) : CodeUnits :=
  reverse (trimStart (reverse s)).

Definition String_trim (s : CodeUnits) : CodeUnits := trimEnd (trimStart s).

(** The class [[a-zA-Z0-9]] and the test of [/^[a-zA-Z0-9]+$/]. *)
Definition isAlnum (c : N) : bool :=
  ((97 <=? c) && (c <=? 122) || (65 <=? c) && (c <=? 90)
   || (48 <=? c) && (c <=? 57))%N.

Definition alnum_test (s : CodeUnits) : bool :=
  match s with
  | [] => false
  | _ :: _ => forallb isAlnum s
  end.

(** The result object of [validateUsername]: [{ valid: false, error }] or
    [{ valid: true, username }]. *)
Inductive Validation : Type :=
  | Rejected (error : string)
  | Accepted (username : CodeUnits).

Definition validateUsername (username : CodeUnits) : Validation :=
  let trimmed := String_trim username in
  if (length trimmed <? 3)%nat
  then Rejected "Username must be at least 3 characters"
  else if (12 <? length trimmed)%nat
  then Rejected "Username must be 12 characters or less"
  else if negb (alnum_test trimmed)
  then Rejected "Only letters and numbers allowed"
  else Accepted trimmed.

Definition COLOR_NAMES : list string :=
  ["red"; "blue"; "yellow"; "pink"; "magenta"; "white"; "black"].

(** * menu.js *)

Module Menu.

(** What [menuManager] has emitted: ['host'] with the mode of the button,
    ['join'], ['test-mode']. *)
Inductive Emitted : Type :=
  | Host (mode : option string)
  | Join
  | TestMode.

(** The [MenuManager] object with the elements of the page it works on
    (all present on the page), and the local storage item
    ['tankGamePlayer']: the object last written by [savePlayerData], as
    [JSON.parse] gives it back, or [None] when the item is missing or does
    not parse. [usernameInput] is the [value] of the name field, which
    returns the text it was given. [mainMenu], [modeSelection] and
    [testModeIndicator] tell whether the element carries the class
    [active]. *)
Record State : Type := mkState {
  username : CodeUnits;
  color : string;
  isValid : bool;
  usernameInput : CodeUnits;
  usernameError : string;
  usernameInput_error : bool;
  hostBtn_disabled : bool;
  joinBtn_disabled : bool;
  mainMenu : bool;
  modeSelection : bool;
  testModeIndicator : bool;
  storage : option (CodeUnits * string);
  emitted : list Emitted
}.

Definition set_username x (m : State) : State :=
  mkState x (color m) (isValid m) (usernameInput m) (usernameError m)
    (usernameInput_error m) (hostBtn_disabled m) (joinBtn_disabled m)
    (mainMenu m) (modeSelection m) (testModeIndicator m) (storage m) (emitted
    m).

Definition set_color x (m : State) : State :=
  mkState (username m) x (isValid m) (usernameInput m) (usernameError m)
    (usernameInput_error m) (hostBtn_disabled m) (joinBtn_disabled m)
    (mainMenu m) (modeSelection m) (testModeIndicator m) (storage m) (emitted
    m).

Definition set_isValid x (m : State) : State :=
  mkState (username m) (color m) x (usernameInput m) (usernameError m)
    (usernameInput_error m) (hostBtn_disabled m) (joinBtn_disabled m)
    (mainMenu m) (modeSelection m) (testModeIndicator m) (storage m) (emitted
    m).

Definition set_usernameInput x (m : State) : State :=
  mkState (username m) (color m) (isValid m) x (usernameError m)
    (usernameInput_error m) (hostBtn_disabled m) (joinBtn_disabled m)
    (mainMenu m) (modeSelection m) (testModeIndicator m) (storage m) (emitted
    m).

Definition set_usernameError x (m : State) : State :=
  mkState (username m) (color m) (isValid m) (usernameInput m) x
    (usernameInput_error m) (hostBtn_disabled m) (joinBtn_disabled m)
    (mainMenu m) (modeSelection m) (testModeIndicator m) (storage m) (emitted
    m).

Definition set_usernameInput_error x (m : State) : State :=
  mkState (username m) (color m) (isValid m) (usernameInput m)
    (usernameError m) x (hostBtn_disabled m) (joinBtn_disabled m) (mainMenu m)
    (modeSelection m) (testModeIndicator m) (storage m) (emitted m).

Definition set_hostBtn_disabled x (m : State) : State :=
  mkState (username m) (color m) (isValid m) (usernameInput m)
    (usernameError m) (usernameInput_error m) x (joinBtn_disabled m) (mainMenu
    m) (modeSelection m) (testModeIndicator m) (storage m) (emitted m).

Definition set_joinBtn_disabled x (m : State) : State :=
  mkState (username m) (color m) (isValid m) (usernameInput m)
    (usernameError m) (usernameInput_error m) (hostBtn_disabled m) x (mainMenu
    m) (modeSelection m) (testModeIndicator m) (storage m) (emitted m).

Definition set_mainMenu x (m : State) : State :=
  mkState (username m) (color m) (isValid m) (usernameInput m)
    (usernameError m) (usernameInput_error m) (hostBtn_disabled m)
    (joinBtn_disabled m) x (modeSelection m) (testModeIndicator m) (storage m)
    (emitted m).

Definition set_modeSelection x (m : State) : State :=
  mkState (username m) (color m) (isValid m) (usernameInput m)
    (usernameError m) (usernameInput_error m) (hostBtn_disabled m)
    (joinBtn_disabled m) (mainMenu m) x (testModeIndicator m) (storage m)
    (emitted m).

Definition set_testModeIndicator x (m : State) : State :=
  mkState (username m) (color m) (isValid m) (usernameInput m)
    (usernameError m) (usernameInput_error m) (hostBtn_disabled m)
    (joinBtn_disabled m) (mainMenu m) (modeSelection m) x (storage m) (emitted
    m).

Definition set_storage x (m : State) : State :=
  mkState (username m) (color m) (isValid m) (usernameInput m)
    (usernameError m) (usernameInput_error m) (hostBtn_disabled m)
    (joinBtn_disabled m) (mainMenu m) (modeSelection m) (testModeIndicator m)
    x (emitted m).

Definition set_emitted x (m : State) : State :=
  mkState (username m) (color m) (isValid m) (usernameInput m)
    (usernameError m) (usernameInput_error m) (hostBtn_disabled m)
    (joinBtn_disabled m) (mainMenu m) (modeSelection m) (testModeIndicator m)
    (storage m) x.

(** ** utils.js: storage *)

Definition savePlayerData (username : CodeUnits) (color : string)
    (m : State) : State :=
  set_storage (Some (username, color)) m.

Definition loadPlayerData (m : State) : option (CodeUnits * string) :=
  storage m.

(** ** MenuManager *)

Definition emit (e : Emitted) (m : State) : State :=
  set_emitted (emitted m ++ [e]) m.

Definition updateButtons (m : State) : State :=
  set_joinBtn_disabled (negb (isValid m))
    (set_hostBtn_disabled (negb (isValid m)) m).

Definition validateInput (m : State) : State :=
  let m :=
    match validateUsername (usernameInput m) with
    | Rejected error =>
        set_isValid false
          (set_usernameInput_error true (set_usernameError error m))
    | Accepted username =>
        let m :=
          set_username username
            (set_usernameInput_error false (set_usernameError "" m)) in
        set_isValid (bool_decide (color m ≠ "")) m
    end in
  updateButtons m.

Definition selectColor (colorName : string) (m : State) : State :=
  validateInput (set_color colorName m).

Definition loadSavedData (m : State) : State :=
  match loadPlayerData m with
  | Some (saved_username, saved_color) =>
      if bool_decide (saved_username ≠ [])
         && bool_decide (saved_color ≠ "")
      then
        let m := set_usernameInput saved_username m in
        let m := set_username saved_username m in
        let m := selectColor saved_color m in
        validateInput m
      else m
  | None => m
  end.

Definition saveAndProceed (m : State) : State :=
  savePlayerData (username m) (color m) m.

Definition show : State → State := set_mainMenu true.
Definition hide : State → State := set_mainMenu false.
Definition showModeSelection : State → State := set_modeSelection true.
Definition hideModeSelection : State → State := set_modeSelection false.

Definition getPlayerData (m : State) : CodeUnits * string :=
  (username m, color m).

(** ['TestPlayer'] *)
Definition TestPlayer : CodeUnits :=
  [84; 101; 115; 116; 80; 108; 97; 121; 101; 114]%N.

Definition activateTestMode (m : State) : State :=
  let m :=
    if bool_decide (username m = [])
    then set_username TestPlayer (set_usernameInput TestPlayer m)
    else m in
  let m := if bool_decide (color m = "") then selectColor "red" m else m in
  let m := validateInput m in
  let m := set_testModeIndicator true m in
  let m := saveAndProceed m in
  emit TestMode m.

(** The constructor and [init], on a page in state [page]: the fields are
    initialised, the saved player is loaded and the listeners below are
    bound. *)
Definition init (m : State) : State := loadSavedData m.

Definition new_MenuManager (page : State) : State :=
  init (set_isValid false (set_color "" (set_username [] page))).

(** ** The listeners bound by [setupListeners] and [setupTestMode] *)

(** The ['input'] listener, run once the field holds [value]. *)
Definition usernameInput_oninput (value : CodeUnits) (m : State) : State :=
  validateInput (set_usernameInput value m).

Definition hostBtn_onclick (m : State) : State :=
  if isValid m then showModeSelection (saveAndProceed m) else m.

Definition joinBtn_onclick (m : State) : State :=
  if isValid m then emit Join (saveAndProceed m) else m.

Definition modeBtn_onclick (mode : option string) (m : State) : State :=
  emit (Host mode) m.

(** What can happen to the menu: the user edits the name, clicks a colour
    option, a button or a mode button, or has held T for two seconds;
    game.js calls [show], [hide] or [hideModeSelection]. *)
Inductive Input : Type :=
  | EditName (value : CodeUnits)
  | ClickColor (colorName : string)
  | ClickHost
  | ClickJoin
  | ClickMode (mode : option string)
  | HoldT
  | CallShow
  | CallHide
  | CallHideModeSelection.

Definition handle (i : Input) (m : State) : State :=
  match i with
  | EditName value => usernameInput_oninput value m
  | ClickColor colorName => selectColor colorName m
  | ClickHost => hostBtn_onclick m
  | ClickJoin => joinBtn_onclick m
  | ClickMode mode => modeBtn_onclick mode m
  | HoldT => activateTestMode m
  | CallShow => show m
  | CallHide => hide m
  | CallHideModeSelection => hideModeSelection m
  end.

(** A colour option exists for each of [COLOR_NAMES] only, and a mode
    button can be clicked only while the mode selection is displayed. *)
Definition possible (i : Input) (m : State) : Prop :=
  match i with
  | ClickColor colorName => colorName ∈ COLOR_NAMES
  | ClickMode _ => modeSelection m = true
  | _ => True
  end.

(** The states of the menu of a page that loads in state [page]. *)
Inductive reachable (page : State) : State → Prop :=
  | reachable_new : reachable page (new_MenuManager page)
  | reachable_handle (i : Input) (m : State) :
      reachable page m → possible i m → reachable page (handle i m).

End Menu.

(** * utils.js: EventEmitter *)

Module EventEmitter.

(** A function registered as a listener: a function of the caller,
    told apart by [id], or the closure [onceWrapper] that a call of
    [once] creates over its [event] and [callback]; each call of [once]
    creates a new closure, told apart by [wrapper]. *)
Inductive Callback : Type :=
  | Plain (id : nat)
  | OnceWrapper (wrapper : nat) (event : string) (callback : nat).

Global Instance Callback_eq_dec : EqDecision Callback.
Proof. solve_decision. Defined.

(** The caller's function that a listener runs. *)
Definition target (cb : Callback) : nat :=
  match cb with
  | Plain id => id
  | OnceWrapper _ _ id => id
  end.

Definition is_plain (cb : Callback) : bool :=
  match cb with
  | Plain _ => true
  | OnceWrapper _ _ _ => false
  end.

(** The emitter: the own properties of [this.events], the number of
    closures that [once] has created, and the calls of the caller's
    functions so far, each with its arguments. *)
Record State : Type := mkState {
  events : string → option (list Callback);
  wrappers : nat;
  calls : list (nat * list JSON)
}.

Definition set_events x (s : State) : State :=
  mkState x (wrappers s) (calls s).
Definition set_wrappers x (s : State) : State :=
  mkState (events s) x (calls s).
Definition set_calls x (s : State) : State :=
  mkState (events s) (wrappers s) x.

Definition new_EventEmitter : State := mkState (λ _, None) 0 [].

(** [this.events] is created by [{}], so a name that it does not own is
    looked up in [Object.prototype]. *)
Definition Object_prototype : list string :=
  ["constructor"; "__defineGetter__"; "__defineSetter__"; "hasOwnProperty";
   "__lookupGetter__"; "__lookupSetter__"; "isPrototypeOf";
   "propertyIsEnumerable"; "toString"; "valueOf"; "__proto__";
   "toLocaleString"].

(** [this.events[event]]: [undefined], a member of [Object.prototype], or
    an array of listeners. *)
Inductive Slot : Type :=
  | Undefined
  | Inherited
  | Listeners (l : list Callback).

Definition slot (event : string) (s : State) : Slot :=
  match events s event with
  | Some l => Listeners l
  | None =>
      if bool_decide (event ∈ Object_prototype) then Inherited else Undefined
  end.

Section Callbacks.

(** What a function of the caller does when it is called: it returns, or
    it throws the given error. It does not use the emitter itself. *)
Variable throws : nat → list JSON → option Error.

Definition on (event : string) (callback : Callback) (s : State) :
    Outcome unit * State :=
  match slot event s with
  | Undefined =>
      (Ret (), set_events (<[event := Some [callback]]> (events s)) s)
  | Listeners l =>
      (Ret (), set_events (<[event := Some (l ++ [callback])]> (events s)) s)
  | Inherited => (Throw TypeError, s)
  end.

Definition off (event : string) (callback : Callback) (s : State) :
    Outcome unit * State :=
  match slot event s with
  | Undefined => (Ret (), s)
  | Listeners l =>
      (Ret (),
       set_events
         (<[event := Some (filter (λ cb, cb ≠ callback) l)]> (events s)) s)
  | Inherited => (Throw TypeError, s)
  end.

Definition call_plain (id : nat) (args : list JSON) (s : State) :
    Outcome unit * State :=
  let s := set_calls (calls s ++ [(id, args)]) s in
  match throws id args with
  | Some e => (Throw e, s)
  | None => (Ret (), s)
  end.

(** Calling a listener; [onceWrapper] calls the function and then takes
    itself off. *)
Definition call (cb : Callback) (args : list JSON) (s : State) :
    Outcome unit * State :=
  match cb with
  | Plain id => call_plain id args s
  | OnceWrapper _ event id =>
      match call_plain id args s with
      | (Ret _, s') => off event cb s'
      | (Throw e, s') => (Throw e, s')
      end
  end.

(** [array.forEach(callback => callback(...args))] on the array that
    [this.events[event]] held when [emit] was entered; [off] replaces
    that array by a new one and leaves this one as it is. *)
Fixpoint forEach (l : list Callback) (args : list JSON) (s : State) :
    Outcome unit * State :=
  match l with
  | [] => (Ret (), s)
  | cb :: l' =>
      match call cb args s with
      | (Ret _, s') => forEach l' args s'
      | (Throw e, s') => (Throw e, s')
      end
  end.

Definition emit (event : string) (args : list JSON) (s : State) :
    Outcome unit * State :=
  match slot event s with
  | Undefined => (Ret (), s)
  | Listeners l => forEach l args s
  | Inherited => (Throw TypeError, s)
  end.

Definition once (event : string) (callback : nat) (s : State) :
    Outcome unit * State :=
  let onceWrapper := OnceWrapper (wrappers s) event callback in
  on event onceWrapper (set_wrappers (S (wrappers s)) s).

(** The calls a user of the emitter can make. *)
Inductive Call : Type :=
  | CallOn (event : string) (callback : nat)
  | CallOff (event : string) (callback : nat)
  | CallEmit (event : string) (args : list JSON)
  | CallOnce (event : string) (callback : nat).

Definition run (c : Call) (s : State) : Outcome unit * State :=
  match c with
  | CallOn event callback => on event (Plain callback) s
  | CallOff event callback => off event (Plain callback) s
  | CallEmit event args => emit event args s
  | CallOnce event callback => once event callback s
  end.

(** The states of an emitter in use. *)
Inductive reachable : State → Prop :=
  | reachable_new : reachable new_EventEmitter
  | reachable_run (c : Call) (s : State) :
      reachable s → reachable (run c s).2.

(** The listeners registered for [event]. *)
Definition listeners (event : string) (s : State) : list Callback :=
  default [] (events s event).

End Callbacks.

End EventEmitter.



(** ** The state after the scripts have loaded *)

(** [new GameState()]. *)
Definition newGameState : GameState :=
  mkGameState false false None None None
    (mkPlayerRecord (Some "") (Some "") 0 100 None)
    (mkPlayerRecord (Some "") (Some "") 0 100 None)
    (Some GAME_MODES.INFINITE) Infinity false false false.

(** [new WebRTCManager()]. *)
Definition newWebRTCManager : WebRTCManager :=
  mkWebRTCManager None None None false None 0 [].

(** A page on which every element the scripts look up exists. *)
Definition fullPage : Dom :=
  mkDom (Some 100%float) (Some (None, 0)) (Some (None, 0))
    (Some (mkWinMessage None None None false)) (Some false) (Some false)
    false false false "" "" "" false.

Definition origin : Vec3 := mkVec3 0 0 0.

(** The world when [init] starts: the ground is object 0, nothing has
    been loaded. *)
Definition initialWorld (page : Dom) (menu : MenuManager) : World :=
  mkWorld newGameState newWebRTCManager (mkCutsceneManager false None) menu
    page (λ _, mkObj "" None origin) 1 0 [] [] [] [] [] [] []
    (mkDecorationPositions [] [] [])
    (mkRemoteSnapshot origin (mkQuat 0 0 0 1) 0 0 origin 0)
    false false true 1 [] 0 [] [] [] 0.

(** * Properties *)

(** ** Vocabulary *)

(** [m] takes every world to an [R]-related world, whether it returns or
    throws. *)
Definition stable (R : relation World) {A} (m : M A) : Prop :=
  ∀ w, R w (exec m w).

(** The relation "the projection [f] has kept its value". *)
Definition same {X} (f : World → X) : relation World := λ w w', f w' = f w.

(** The peer that owns a player record, and the name by which a damage
    message addresses the record. *)
Definition owner (k : PlayerKey) : Role :=
  match k with P1 => HOST | P2 => CLIENT end.
Definition player_name (k : PlayerKey) : string :=
  match k with P1 => "player1" | P2 => "player2" end.

Definition role_of (w : World) : option Role := role (gameState w).
Definition hp (k : PlayerKey) (w : World) : float :=
  health (player k (gameState w)).
Definition points (k : PlayerKey) (w : World) : nat :=
  score (player k (gameState w)).

(** What no handler but the damage code writes. *)
Definition authority (w : World) : option Role * float * float :=
  (role_of w, hp P1 w, hp P2 w).

(** The role is kept, and so is the health of [k] unless this peer owns
    [k]. *)
Definition keeps_foreign_health (k : PlayerKey) : relation World := λ w w',
  role_of w' = role_of w ∧
  (role_of w ≠ Some (owner k) → hp k w' = hp k w).

(** ** Laws of the computations *)

Lemma bind_run {A B} (m : M A) (k : A → M B) (w : World) :
  (m ≫= k) w =
  match m w with
  | (Ret a, w') => k a w'
  | (Throw e, w') => (Throw e, w')
  end.
Proof. reflexivity. Qed.

Lemma exec_bind {A B} (m : M A) (k : A → M B) (w : World) :
  exec (m ≫= k) w =
  match m w with
  | (Ret a, w') => exec (k a) w'
  | (Throw e, w') => w'
  end.
Proof. unfold exec. rewrite bind_run. by destruct (m w) as [[a|e] w']. Qed.

Global Instance same_preorder {X} (f : World → X) : PreOrder (same f).
Proof.
  split.
  - intros w. reflexivity.
  - intros w1 w2 w3 H12 H23. unfold same in *. congruence.
Qed.

Global Instance keeps_foreign_health_preorder k :
  PreOrder (keeps_foreign_health k).
Proof.
  split.
  - intros w. split; [reflexivity | intros _; reflexivity].
  - intros w1 w2 w3 [Hr12 Hh12] [Hr23 Hh23]. split.
    + congruence.
    + intros Hne. rewrite Hh23 by congruence. apply Hh12, Hne.
Qed.

Section Stable.
Context (R : relation World) `{!PreOrder R}.

Lemma stable_ret {A} (a : A) : stable R (mret a).
Proof. intros w. reflexivity. Qed.

Lemma stable_throw {A} (e : Error) : stable R (@throw A e).
Proof. intros w. reflexivity. Qed.

Lemma stable_get : stable R get.
Proof. intros w. reflexivity. Qed.

Lemma stable_deref {A} (o : option A) : stable R (deref o).
Proof. destruct o; [apply stable_ret | apply stable_throw]. Qed.

Lemma stable_modify (g : World → World) :
  (∀ w, R w (g w)) → stable R (modify g).
Proof. intros H w. apply H. Qed.

Lemma stable_bind {A B} (m : M A) (k : A → M B) :
  stable R m → (∀ a, stable R (k a)) → stable R (m ≫= k).
Proof.
  intros Hm Hk w. rewrite exec_bind.
  specialize (Hm w). unfold exec in Hm.
  destruct (m w) as [[a|e] w']; simpl in *.
  - etransitivity; [exact Hm | apply Hk].
  - exact Hm.
Qed.

Lemma stable_try_catch {A} (m : M A) (h : Error → M A) :
  stable R m → (∀ e, stable R (h e)) → stable R (try_catch m h).
Proof.
  intros Hm Hh w. unfold exec, try_catch.
  specialize (Hm w). unfold exec in Hm.
  destruct (m w) as [[a|e] w']; simpl in *.
  - exact Hm.
  - etransitivity; [exact Hm | apply Hh].
Qed.

Lemma stable_for_down (n : nat) (body : nat → M unit) :
  (∀ i, stable R (body i)) → stable R (for_down n body).
Proof.
  intros Hb. induction n as [|n IH]; simpl.
  - apply stable_ret.
  - apply stable_bind; [apply Hb | intros _; exact IH].
Qed.

Lemma stable_for_down_until (n : nat) (body : nat → M bool) :
  (∀ i, stable R (body i)) → stable R (for_down_until n body).
Proof.
  intros Hb. induction n as [|n IH]; simpl.
  - apply stable_ret.
  - apply stable_bind; [apply Hb |].
    intros [|]; [apply stable_ret | exact IH].
Qed.

Lemma stable_for_each_draw (draws : list Draw) (body : nat → Draw → M unit) :
  (∀ i d, stable R (body i d)) → ∀ i, stable R (for_each_draw i draws body).
Proof.
  intros Hb. induction draws as [|d rest IH]; intros i; simpl.
  - apply stable_ret.
  - apply stable_bind; [apply Hb | intros _; apply IH].
Qed.
End Stable.

Lemma stable_weaken (R R' : relation World) {A} (m : M A) :
  (∀ w w', R w w' → R' w w') → stable R m → stable R' m.
Proof. intros HR Hm w. apply HR, Hm. Qed.

(** One step of a proof that a program is [stable]: descend through its
    structure, close an assignment with [tac]. *)
Ltac stable_lemma l := apply l; try typeclasses eauto.

Ltac stable_step tac :=
  lazymatch goal with
  | |- @stable _ _ (mret _) => stable_lemma stable_ret
  | |- @stable _ _ (throw _) => stable_lemma stable_throw
  | |- @stable _ _ get => stable_lemma stable_get
  | |- @stable _ _ (deref _) => stable_lemma stable_deref
  | |- @stable _ _ (modify _) => stable_lemma stable_modify; intros; tac
  | |- @stable _ _ (mbind _ _) => stable_lemma stable_bind; [|intros]
  | |- @stable _ _ (try_catch _ _) => stable_lemma stable_try_catch; [|intros]
  | |- @stable _ _ (for_down _ _) => stable_lemma stable_for_down; intros
  | |- @stable _ _ (for_down_until _ _) =>
      stable_lemma stable_for_down_until; intros
  | |- @stable _ _ (for_each_draw _ _ _) =>
      stable_lemma stable_for_each_draw; intros
  | |- @stable _ _ (if false then _ else _) => cbv iota
  | |- @stable _ _ (if true then _ else _) => cbv iota
  | |- @stable _ _ (if ?b then _ else _) => destruct b; try congruence
  | |- @stable _ _ (match ?x with _ => _ end) => destruct x; try congruence
  | |- @stable _ _ (let _ := _ in _) => cbv zeta
  end.

Create HintDb stable discriminated.

Ltac stable_with tac :=
  repeat first [ solve [auto with stable] | stable_step tac ].

(** Closes [same f w (g w)] when [g] leaves [f] alone. *)
Ltac same_field :=
  unfold same, authority, role_of, hp, points;
  repeat match goal with
         | k : PlayerKey |- _ => destruct k
         | |- context [if ?b then _ else _] => destruct b
         end;
  reflexivity.

(** Runs the leading steps of a computation applied to a world. *)
Ltac run :=
  repeat first
    [ rewrite bind_run
    | progress (unfold get, modify, mret, M_ret, throw, deref; cbv beta iota)
    | progress cbn [fst snd] ].

Section Properties.

#[local] Set Default Proof Using "Type".

Variable JSON_stringify : Envelope → string.
Variable JSON_parse_message : string → option Envelope.
Variable JSON_parse : string → option JSON.
Variable trim : string → string.
Variable intersectObjects :
  (nat → Obj) → Vec3 → Vec3 → float → list nat → option Vec3.


(** ** Sending *)

(** What [send] leaves on an open channel. *)
Definition frame_written (t : MsgType) (d : Payload) (ch : DataChannel)
    (w : World) : World :=
  upd_webrtcManager
    (set_dataChannel
       (Some (set_sent
                (sent ch ++ [JSON_stringify (mkEnvelope t d (clock w))]) ch)))
    w.

Lemma send_not_connected t d w :
  isConnected (webrtcManager w) = false ∨ dataChannel (webrtcManager w) = None →
  send JSON_stringify t d w = (Ret false, w).
Proof.
  intros H. unfold send. rewrite bind_run. simpl.
  destruct H as [-> | ->]; simpl; [reflexivity |].
  by rewrite orb_true_r.
Qed.

Lemma send_open t d w ch :
  isConnected (webrtcManager w) = true →
  dataChannel (webrtcManager w) = Some ch →
  readyState ch = open →
  send JSON_stringify t d w = (Ret true, frame_written t d ch w).
Proof.
  intros Hc Hch Hopen. unfold send. rewrite bind_run. simpl.
  rewrite Hc, Hch. simpl.
  unfold try_catch, dataChannel_send. rewrite !bind_run. simpl.
  rewrite Hch. simpl. rewrite bind_run. simpl.
  rewrite decide_True by done. reflexivity.
Qed.

Lemma send_not_open t d w ch :
  isConnected (webrtcManager w) = true →
  dataChannel (webrtcManager w) = Some ch →
  readyState ch ≠ open →
  send JSON_stringify t d w = (Ret false, w).
Proof.
  intros Hc Hch Hstate. unfold send. rewrite bind_run. simpl.
  rewrite Hc, Hch. simpl.
  unfold try_catch, dataChannel_send. rewrite !bind_run. simpl.
  rewrite Hch. simpl. rewrite bind_run. simpl.
  rewrite decide_False by done. reflexivity.
Qed.

Lemma send_returns t d w : ∃ b, (send JSON_stringify t d w).1 = Ret b.
Proof.
  unfold send. rewrite bind_run. simpl.
  destruct (negb (isConnected (webrtcManager w)) || _); [by eexists |].
  unfold try_catch.
  destruct ((dataChannel_send (JSON_stringify _) ≫= _) w) as [[b|e] w'];
    by eexists.
Qed.

(** C6. [send(type, data)] never throws. When [isConnected] is false or
    there is no data channel it returns [false] and changes nothing. When
    the session is connected and its channel is open it returns [true] and
    the only change is one frame appended to the channel: the serialized
    message [{type, data, timestamp}] whose timestamp is the current
    time. (A channel object that is no longer open while [isConnected] is
    still true makes the write fail; [send] catches that, returns [false]
    and changes nothing.) *)
Theorem send_spec (t : MsgType) (d : Payload) (w : World) :
  returns (send JSON_stringify t d) w ∧
  (isConnected (webrtcManager w) = false ∨ dataChannel (webrtcManager w) = None →
   send JSON_stringify t d w = (Ret false, w)) ∧
  (∀ ch,
     isConnected (webrtcManager w) = true →
     dataChannel (webrtcManager w) = Some ch →
     readyState ch = open →
     send JSON_stringify t d w = (Ret true, frame_written t d ch w) ∧
     sent <$> dataChannel (webrtcManager (frame_written t d ch w)) =
       Some (sent ch ++ [JSON_stringify (mkEnvelope t d (clock w))])) ∧
  (∀ ch,
     isConnected (webrtcManager w) = true →
     dataChannel (webrtcManager w) = Some ch →
     readyState ch ≠ open →
     send JSON_stringify t d w = (Ret false, w)).
Proof.
  split; [apply send_returns |].
  split; [apply send_not_connected |].
  split.
  - intros ch Hc Hch Hopen. split; [by apply send_open | reflexivity].
  - intros ch Hc Hch Hstate. by apply (send_not_open t d w ch).
Qed.

(** ** Pasted descriptions *)

Definition offer_error (text : string) : string :=
  if decide (text = "") then "Please paste the Offer JSON from the host."
  else "Invalid Offer JSON or connection failed. Please try again.".

Definition answer_error (text : string) : string :=
  if decide (text = "") then "Please paste the Answer JSON from your opponent."
  else "Invalid Answer JSON. Please check and try again.".

Lemma handleOfferSubmit_malformed w :
  JSON_parse (trim (offerInput (dom w))) = None →
  handleOfferSubmit JSON_parse trim w =
    (Ret (), upd_dom (set_lobbyStatus (offer_error (trim (offerInput (dom w))))) w).
Proof.
  intros Hparse. unfold handleOfferSubmit, offer_error.
  rewrite bind_run. simpl.
  destruct (decide (trim (offerInput (dom w)) = "")) as [He|Hne]; [reflexivity |].
  rewrite bind_run. simpl. unfold try_catch. rewrite bind_run. simpl.
  rewrite Hparse. reflexivity.
Qed.

Lemma handleAnswerSubmit_malformed w :
  JSON_parse (trim (answerInput (dom w))) = None →
  handleAnswerSubmit JSON_parse trim w =
    (Ret (), upd_dom (set_lobbyStatus (answer_error (trim (answerInput (dom w))))) w).
Proof.
  intros Hparse. unfold handleAnswerSubmit, answer_error.
  rewrite bind_run. simpl.
  destruct (decide (trim (answerInput (dom w)) = "")) as [He|Hne]; [reflexivity |].
  rewrite bind_run. simpl. unfold try_catch. rewrite bind_run. simpl.
  rewrite Hparse. reflexivity.
Qed.

(** C7. When the text pasted by the responder does not parse,
    [handleOfferSubmit] returns without throwing, the only change to the
    world is the error message put in the lobby status (so no peer
    connection is constructed, no timer is set or cleared, nothing is left
    pending and the manager is as before), and the pasted text is still in
    the input for another try. *)
Theorem malformed_offer_rejected (w : World) :
  JSON_parse (trim (offerInput (dom w))) = None →
  let w' := exec (handleOfferSubmit JSON_parse trim) w in
  returns (handleOfferSubmit JSON_parse trim) w ∧
  w' = upd_dom (set_lobbyStatus (offer_error (trim (offerInput (dom w))))) w ∧
  lobbyStatus (dom w') = offer_error (trim (offerInput (dom w))) ∧
  webrtcManager w' = webrtcManager w ∧
  peerConnection (webrtcManager w') = peerConnection (webrtcManager w) ∧
  pcs_created (webrtcManager w') = pcs_created (webrtcManager w) ∧
  pending w' = pending w ∧
  timers w' = timers w ∧
  offerInput (dom w') = offerInput (dom w).
Proof.
  intros Hparse w'. subst w'. unfold exec, returns.
  rewrite (handleOfferSubmit_malformed _ Hparse). simpl.
  repeat split; try reflexivity. by eexists.
Qed.

(** ** Obstacle destruction *)

(** The world after [removeMatchedTree i tree]. *)
Definition tree_removed (i tree : nat) (w : World) : World :=
  let w1 :=
    set_trees (delete i (trees w))
      (set_scene (remove_first tree (scene w)) w) in
  match trees w1 !! i ≫= (λ t, indexOf t (collidables w1)) with
  | Some c => set_collidables (delete c (collidables w1)) w1
  | None => w1
  end.

(** The loop of [handleRemoteTreeDestruction] from index [n - 1] down. *)
Fixpoint destroy_from (treeId : option string) (n : nat) (w : World) : World :=
  match n with
  | O => w
  | S i =>
      match trees w !! i with
      | Some tree =>
          if decide (userData_id (objects w tree) = treeId)
          then tree_removed i tree w
          else destroy_from treeId i w
      | None => w
      end
  end.

Definition tree_id (w : World) (tree : nat) : option string :=
  userData_id (objects w tree).

Lemma removeMatchedTree_run i tree w :
  removeMatchedTree i tree w = (Ret (), tree_removed i tree w).
Proof.
  unfold removeMatchedTree, tree_removed, scene_remove. run.
  cbn [trees collidables set_trees set_scene].
  by destruct (mbind _ (delete i (trees w) !! i)).
Qed.

Lemma handleRemoteTreeDestruction_loop treeId n w :
  n ≤ length (trees w) →
  for_down_until n (λ i,
    w ← get;
    tree ← deref (trees w !! i);
    if decide (userData_id (objects w tree) = treeId) then
      removeMatchedTree i tree ;;
      mret true
    else mret false) w = (Ret (), destroy_from treeId n w).
Proof.
  induction n as [|n IH]; intros Hn; [reflexivity |].
  destruct (lookup_lt_is_Some_2 (trees w) n) as [tree Htree]; [lia |].
  cbn [for_down_until destroy_from]. run. rewrite Htree. run.
  destruct (decide (userData_id (objects w tree) = treeId)) as [Heq|Hne]; run.
  - rewrite removeMatchedTree_run. by run.
  - apply IH. lia.
Qed.

Lemma handleRemoteTreeDestruction_run data w :
  handleRemoteTreeDestruction data w =
    (Ret (), destroy_from (data_treeId data) (length (trees w)) w).
Proof.
  unfold handleRemoteTreeDestruction. run.
  by apply handleRemoteTreeDestruction_loop.
Qed.

Lemma destroy_from_absent treeId w n :
  (∀ tree, tree ∈ trees w → tree_id w tree ≠ treeId) →
  destroy_from treeId n w = w.
Proof.
  intros Habsent. induction n as [|n IH]; [reflexivity |]. simpl.
  destruct (trees w !! n) as [tree|] eqn:Htree; [|reflexivity].
  rewrite decide_False; [exact IH |].
  apply Habsent. by eapply list_elem_of_lookup_2.
Qed.

Lemma destroy_from_found treeId w i tree n :
  i < n → n ≤ length (trees w) →
  trees w !! i = Some tree →
  tree_id w tree = treeId →
  (∀ j t, i < j → trees w !! j = Some t → tree_id w t ≠ treeId) →
  destroy_from treeId n w = tree_removed i tree w.
Proof.
  intros Hi Hn Htree Hid Hlater. induction n as [|n IH]; [lia |]. simpl.
  destruct (decide (i = n)) as [->|Hne].
  - rewrite Htree. by rewrite decide_True.
  - destruct (trees w !! n) as [t|] eqn:Ht.
    + rewrite decide_False; [apply IH; lia |].
      apply (Hlater n t); [lia | done].
    + apply lookup_ge_None in Ht. lia.
Qed.

(** Either no tree below [n] carries the id, or the loop stops at the
    last one that does. *)
Lemma destroy_from_cases treeId w n :
  n ≤ length (trees w) →
  ((∀ j t, j < n → trees w !! j = Some t → tree_id w t ≠ treeId) ∧
   destroy_from treeId n w = w) ∨
  (∃ i tree, trees w !! i = Some tree ∧ tree_id w tree = treeId ∧
             destroy_from treeId n w = tree_removed i tree w).
Proof.
  induction n as [|n IH]; intros Hn.
  - left. split; [intros; lia | reflexivity].
  - simpl.
    destruct (lookup_lt_is_Some_2 (trees w) n) as [tree Htree]; [lia |].
    rewrite Htree.
    destruct (decide (userData_id (objects w tree) = treeId)) as [Heq|Hne].
    + right. by exists n, tree.
    + destruct IH as [[Hnone Hsame]|Hfound]; [lia | | by right].
      left. split; [|done].
      intros j t Hj Ht. destruct (decide (j = n)) as [->|]; [|apply (Hnone j t); [lia|done]].
      rewrite Htree in Ht. by injection Ht as <-.
Qed.

Lemma remove_first_indexOf (x : nat) (l : list nat) :
  remove_first x l =
    match indexOf x l with Some c => delete c l | None => l end.
Proof.
  unfold indexOf. induction l as [|y l IH]; [reflexivity |]. simpl.
  destruct (decide (x = y)) as [->|Hne].
  - by rewrite decide_True.
  - rewrite decide_False by congruence. rewrite IH.
    by destruct (list_find _ l) as [[c z]|].
Qed.

Lemma remove_first_other (x y : nat) (l : list nat) :
  x ≠ y → y ∈ l → y ∈ remove_first x l.
Proof.
  intros Hne. induction l as [|z l IH]; [done |]. simpl.
  rewrite elem_of_cons. intros [->|Hin].
  - rewrite decide_False by done. apply list_elem_of_here.
  - destruct (decide (x = z)); [done |].
    apply list_elem_of_further. by apply IH.
Qed.

Lemma tree_removed_collidables i tree w :
  collidables (tree_removed i tree w) =
    match trees w !! S i with
    | Some other => remove_first other (collidables w)
    | None => collidables w
    end.
Proof.
  unfold tree_removed. simpl.
  rewrite list_lookup_delete_ge by lia.
  destruct (trees w !! S i) as [other|]; [|reflexivity]. simpl.
  rewrite (remove_first_indexOf other).
  by destruct (indexOf other (collidables w)).
Qed.

Lemma tree_removed_trees i tree w :
  trees (tree_removed i tree w) = delete i (trees w).
Proof. unfold tree_removed. simpl. by destruct (_ ≫= _). Qed.

Lemma tree_removed_scene i tree w :
  scene (tree_removed i tree w) = remove_first tree (scene w).
Proof. unfold tree_removed. simpl. by destruct (_ ≫= _). Qed.

Lemma tree_removed_objects i tree w :
  objects (tree_removed i tree w) = objects w.
Proof. unfold tree_removed. simpl. by destruct (_ ≫= _). Qed.

Lemma NoDup_fmap_delete {A B} (f : A → B) (l : list A) (i : nat) (x : A) :
  NoDup (f <$> l) → l !! i = Some x →
  ∀ y, y ∈ delete i l → f y ≠ f x.
Proof.
  intros Hnd Hx y Hy Heq.
  rewrite <- (take_drop_middle l i x Hx) in Hnd.
  rewrite fmap_app, fmap_cons in Hnd.
  apply NoDup_app in Hnd as (_ & Hdisj & Hnd).
  apply NoDup_cons in Hnd as [Hnotin _].
  rewrite delete_take_drop in Hy. apply elem_of_app in Hy as [Hy|Hy].
  - apply (Hdisj (f y)); [by apply list_elem_of_fmap_2|].
    rewrite Heq. apply list_elem_of_here.
  - apply Hnotin. rewrite <- Heq. by apply list_elem_of_fmap_2.
Qed.

(** C8. Applying an obstacle-destroyed message for an id that no tree in
    [trees] carries (its tree has been removed already) returns and leaves
    the world, hence [trees], [collidables] and the scene, as it was. With
    the ids that [loadTrees] hands out, which differ from tree to tree, a
    second application of the same message is therefore a no-op. *)
Theorem tree_destruction_idempotent (data : Payload) (w : World) :
  ((∀ tree, tree ∈ trees w → tree_id w tree ≠ data_treeId data) →
   handleRemoteTreeDestruction data w = (Ret (), w)) ∧
  (NoDup (tree_id w <$> trees w) →
   let w' := exec (handleRemoteTreeDestruction data) w in
   handleRemoteTreeDestruction data w' = (Ret (), w') ∧
   trees (exec (handleRemoteTreeDestruction data) w') = trees w' ∧
   collidables (exec (handleRemoteTreeDestruction data) w') = collidables w' ∧
   scene (exec (handleRemoteTreeDestruction data) w') = scene w').
Proof.
  assert (Habsent : ∀ w0,
    (∀ tree, tree ∈ trees w0 → tree_id w0 tree ≠ data_treeId data) →
    handleRemoteTreeDestruction data w0 = (Ret (), w0)).
  { intros w0 H. rewrite handleRemoteTreeDestruction_run.
    by rewrite destroy_from_absent. }
  split; [apply Habsent |].
  intros Hnd w'.
  assert (Hgone : ∀ tree, tree ∈ trees w' → tree_id w' tree ≠ data_treeId data).
  { subst w'. unfold exec. rewrite handleRemoteTreeDestruction_run. simpl.
    destruct (destroy_from_cases (data_treeId data) w (length (trees w)))
      as [[Hnone ->]|(i & t & Ht & Hid & ->)]; [done | |].
    - intros tree Hin. apply list_elem_of_lookup in Hin as [j Hj].
      apply (Hnone j tree); [by eapply lookup_lt_Some | done].
    - intros tree. rewrite tree_removed_trees. intros Hin.
      unfold tree_id. rewrite tree_removed_objects. rewrite <- Hid.
      by apply (NoDup_fmap_delete (tree_id w) (trees w) i t). }
  unfold exec. rewrite (Habsent w' Hgone). by simpl.
Qed.

(** C10. When [handleRemoteTreeDestruction] finds the tree carrying the
    received id at index [i] of [trees] (the last such index), it removes
    that tree from the scene and from [trees], and then looks up in
    [collidables] whatever [trees] holds at index [i] after the removal,
    which is the tree that followed: that other tree's entry is what
    [collidables] loses, or nothing when the matched tree was last. The
    matched tree's own entry stays in [collidables]. *)
Theorem remote_tree_destruction_keeps_collidable
    (data : Payload) (w : World) (i tree : nat) :
  trees w !! i = Some tree →
  tree_id w tree = data_treeId data →
  (∀ j t, i < j → trees w !! j = Some t → tree_id w t ≠ data_treeId data) →
  let w' := exec (handleRemoteTreeDestruction data) w in
  scene w' = remove_first tree (scene w) ∧
  trees w' = delete i (trees w) ∧
  collidables w' =
    match trees w !! S i with
    | Some other => remove_first other (collidables w)
    | None => collidables w
    end ∧
  (∀ other, trees w !! S i = Some other → other ≠ tree) ∧
  (tree ∈ collidables w → tree ∈ collidables w').
Proof.
  intros Htree Hid Hlater w'.
  assert (Hw' : w' = tree_removed i tree w).
  { subst w'. unfold exec. rewrite handleRemoteTreeDestruction_run. simpl.
    apply destroy_from_found; [by eapply lookup_lt_Some | done..]. }
  assert (Hother : ∀ other, trees w !! S i = Some other → other ≠ tree).
  { intros other Ho ->. by apply (Hlater (S i) tree); [lia | |]. }
  rewrite Hw', tree_removed_scene, tree_removed_trees,
    tree_removed_collidables.
  repeat split; [exact Hother |].
  destruct (trees w !! S i) as [other|] eqn:Ho; [|done].
  apply remove_first_other. by apply Hother.
Qed.

(** ** Explosions of remote origin *)

(** Everything but the objects that are only drawn: the scene graph, the
    bullets, the explosions and the allocation counter are left out. *)
Definition non_visual (w : World) :=
  (gameState w, trees w, collidables w, barriers w, objects w,
   webrtcManager w, dom w, timers w, particles w).

(** Every bullet in flight came from a [bullet_spawn] message. *)
Definition remote_only (w : World) : Prop :=
  Forall (λ b, isLocal b = false) (bullets w).

Definition keeps_non_visual : relation World := λ w w',
  non_visual w' = non_visual w ∧ (remote_only w → remote_only w').

Global Instance keeps_non_visual_preorder : PreOrder keeps_non_visual.
Proof.
  split.
  - intros w. by split.
  - intros w1 w2 w3 [H12 R12] [H23 R23]. split; [congruence | auto].
Qed.

Ltac visual_field :=
  split;
  [ reflexivity
  | unfold remote_only; cbn [bullets set_bullets set_scene set_explosions
                             set_next_oid]; intros;
    first [ assumption
          | apply Forall_insert; [assumption | done]
          | apply Forall_delete; assumption
          | apply Forall_app; split; [assumption | by repeat constructor] ] ].

Lemma createExplosion_remote position :
  stable keeps_non_visual (createExplosion JSON_stringify position false).
Proof.
  unfold createExplosion, fresh_oid, scene_add. stable_with visual_field.
Qed.

Lemma updateBullet_remote delta i bullet :
  isLocal bullet = false →
  stable keeps_non_visual
    (updateBullet JSON_stringify intersectObjects delta i bullet).
Proof.
  intros Hremote. unfold updateBullet, removeBullet, scene_remove.
  rewrite Hremote.
  pose proof createExplosion_remote as Hexpl.
  stable_with visual_field.
Qed.

Lemma updateBullets_loop delta n w :
  remote_only w →
  keeps_non_visual w
    (exec (for_down n (λ i,
       w ← get;
       bullet ← deref (bullets w !! i);
       updateBullet JSON_stringify intersectObjects delta i bullet)) w).
Proof.
  revert w. induction n as [|n IH]; intros w Hremote; [reflexivity |].
  cbn [for_down]. rewrite exec_bind. run.
  destruct (bullets w !! n) as [bullet|] eqn:Hb; run; [|reflexivity].
  assert (Hlocal : isLocal bullet = false).
  { unfold remote_only in Hremote. rewrite Forall_lookup in Hremote.
    by apply (Hremote n). }
  pose proof (updateBullet_remote delta n bullet Hlocal w) as Hstep.
  unfold exec in Hstep.
  destruct (updateBullet _ _ delta n bullet w) as [[[]|e] w1]; simpl in *.
  - etransitivity; [exact Hstep |]. apply IH. by apply Hstep.
  - exact Hstep.
Qed.

Lemma spawnRemoteBullet_run position direction w :
  spawnRemoteBullet (BulletSpawnData position direction) w =
    (Ret (),
     set_bullets
       (bullets w ++
          [mkBullet (next_oid w) position
             (Vec3_multiplyScalar direction bulletSpeed) 0 position false])
       (set_scene (scene w ++ [next_oid w])
          (set_next_oid (S (next_oid w)) w))).
Proof. reflexivity. Qed.

(** C9. A bullet created for a received [bullet_spawn] message carries
    [isLocal = false]; an explosion created with [isLocal = false] changes
    nothing but what is drawn; so the step of [updateBullets] for such a
    bullet, its impact included, and a whole pass of [updateBullets]
    while every bullet in flight is of remote origin, leave both health
    values, both scores, [trees] and [collidables] (indeed everything
    outside the scene graph, the bullet and explosion lists and the
    allocation counter) as they were. *)
Theorem remote_explosions_are_visual :
  (∀ position direction time w,
     let w' := exec (handleNetworkMessage JSON_stringify
                       (mkEnvelope MSG_TYPES.BULLET_SPAWN
                          (BulletSpawnData position direction) time)) w in
     (∃ b, bullets w' = bullets w ++ [b] ∧ isLocal b = false) ∧
     non_visual w' = non_visual w) ∧
  (∀ position w,
     non_visual (exec (createExplosion JSON_stringify position false) w)
       = non_visual w) ∧
  (∀ delta i bullet w,
     isLocal bullet = false →
     non_visual
       (exec (updateBullet JSON_stringify intersectObjects delta i bullet) w)
       = non_visual w) ∧
  (∀ delta w,
     remote_only w →
     let w' := exec (updateBullets JSON_stringify intersectObjects delta) w in
     remote_only w' ∧
     non_visual w' = non_visual w ∧
     (∀ k, hp k w' = hp k w ∧ points k w' = points k w) ∧
     trees w' = trees w ∧
     collidables w' = collidables w).
Proof.
  split; [|split; [|split]].
  - intros position direction time w w'. subst w'.
    change (handleNetworkMessage JSON_stringify _)
      with (spawnRemoteBullet (BulletSpawnData position direction)).
    unfold exec. rewrite spawnRemoteBullet_run. simpl.
    split; [by eexists | reflexivity].
  - intros position w. apply createExplosion_remote.
  - intros delta i bullet w Hremote. by apply updateBullet_remote.
  - intros delta w Hremote w'.
    assert (H : keeps_non_visual w w').
    { subst w'. unfold updateBullets. rewrite exec_bind. run.
      by apply updateBullets_loop. }
    destruct H as [Hsame Hkeep].
    split; [by apply Hkeep |]. split; [exact Hsame |].
    unfold non_visual in Hsame. injection Hsame as Hgs Htrees Hcol _ _ _ _ _ _.
    unfold hp, points. rewrite Hgs. by repeat split.
Qed.

(** ** Authority over health *)

(** What a peer reacts to: a received message, or an explosion it
    detects itself ([createExplosion(position, true)]). *)
Inductive Input : Type :=
  | Receive (message : Envelope)
  | Explode (position : Vec3).

Definition step (i : Input) : M unit :=
  match i with
  | Receive message => handleNetworkMessage JSON_stringify message
  | Explode position => createExplosion JSON_stringify position true
  end.

Definition run_inputs (inputs : list Input) (w : World) : World :=
  foldl (λ w i, exec (step i) w) w inputs.

(** The inputs through which the health of [k] may be written: a local
    detection, or a damage message that names [k]. *)
Definition may_damage (k : PlayerKey) (i : Input) : Prop :=
  match i with
  | Explode _ => True
  | Receive message =>
      type message = MSG_TYPES.DAMAGE ∧
      data_target (data message) = Some (player_name k)
  end.

Lemma send_authority t d : stable (same authority) (send JSON_stringify t d).
Proof. unfold send, dataChannel_send. stable_with same_field. Qed.

Lemma handleLocalDeath_authority :
  stable (same authority) (handleLocalDeath JSON_stringify).
Proof.
  pose proof send_authority.
  unfold handleLocalDeath, checkWinCondition, triggerFinalCutscene,
    playCutscene, showWinMessage, updateScoreboard, score_incr, setTimeout.
  stable_with same_field.
Qed.

Lemma add_particles_authority n : stable (same authority) (add_particles n).
Proof.
  induction n as [|n IH]; simpl; unfold fresh_oid, scene_add;
    stable_with same_field.
Qed.

Lemma checkTreeDamage_authority position i :
  stable (same authority) (checkTreeDamage JSON_stringify position i).
Proof.
  pose proof send_authority. pose proof add_particles_authority.
  unfold checkTreeDamage, spawnWoodParticles, scene_remove.
  stable_with same_field.
Qed.

(** Messages of any type but [damage] leave the role and both health
    values alone. *)
Lemma handleNetworkMessage_authority message :
  type message ≠ MSG_TYPES.DAMAGE →
  stable (same authority) (handleNetworkMessage JSON_stringify message).
Proof.
  intros Hne. pose proof send_authority.
  unfold handleNetworkMessage, updateRemotePlayer, spawnRemoteBullet,
    spawnBullet, handleRemoteDeath, handleRoundEnd,
    handleRemoteTreeDestruction, removeMatchedTree, startGame, createTanks,
    createTankGroup, syncMapFromHost, checkWinCondition,
    triggerFinalCutscene, playCutscene, showWinMessage, updateScoreboard,
    score_incr, setTimeout, scene_remove, scene_add, fresh_oid.
  stable_with same_field.
Qed.

(** The damage code of one player keeps the role and the other player's
    health. *)
Lemma damage_own_role k' damage :
  stable (same role_of) (damage_own JSON_stringify k' damage).
Proof.
  pose proof (stable_weaken (same authority) (same role_of)
                (handleLocalDeath JSON_stringify)) as Hdeath.
  unfold damage_own, apply_damage, updateHealthBar.
  stable_with same_field.
  apply Hdeath; [|apply handleLocalDeath_authority].
  unfold same, authority. intros w1 w2 Heq. congruence.
Qed.

Lemma damage_own_other k k' damage :
  k ≠ k' →
  stable (same (hp k)) (damage_own JSON_stringify k' damage).
Proof.
  intros Hne.
  pose proof (stable_weaken (same authority) (same (hp k))
                (handleLocalDeath JSON_stringify)) as Hdeath.
  unfold damage_own, apply_damage, updateHealthBar.
  stable_with ltac:(unfold same, hp; destruct k, k'; done).
  apply Hdeath; [|apply handleLocalDeath_authority].
  unfold same, authority. intros w1 w2 Heq. destruct k; congruence.
Qed.

Lemma damage_own_foreign k k' damage w :
  role_of w = Some (owner k') →
  keeps_foreign_health k w (exec (damage_own JSON_stringify k' damage) w).
Proof.
  intros Hrole. split; [apply damage_own_role |].
  intros Hne. apply damage_own_other. intros ->. congruence.
Qed.

Lemma authority_keeps_foreign_health k w w' :
  same authority w w' → keeps_foreign_health k w w'.
Proof.
  unfold same, authority. intros Heq. split; [congruence |].
  intros _. destruct k; congruence.
Qed.

Lemma handleRemoteDamage_foreign k data w :
  keeps_foreign_health k w (exec (handleRemoteDamage JSON_stringify data) w).
Proof.
  unfold handleRemoteDamage. rewrite exec_bind. run.
  destruct (bool_decide (data_target data = Some "player1")
            && bool_decide (role (gameState w) = Some HOST)) eqn:H1.
  { apply andb_prop in H1 as [_ Hrole%bool_decide_eq_true].
    by apply (damage_own_foreign k P1). }
  destruct (bool_decide (data_target data = Some "player2")
            && bool_decide (role (gameState w) = Some CLIENT)) eqn:H2.
  { apply andb_prop in H2 as [_ Hrole%bool_decide_eq_true].
    by apply (damage_own_foreign k P2). }
  reflexivity.
Qed.

(** A damage message that does not name [k] keeps the health of [k]. *)
Lemma handleRemoteDamage_not_aimed k data w :
  data_target data ≠ Some (player_name k) →
  hp k (exec (handleRemoteDamage JSON_stringify data) w) = hp k w.
Proof.
  intros Hne. unfold handleRemoteDamage. rewrite exec_bind. run.
  destruct (bool_decide (data_target data = Some "player1")
            && bool_decide (role (gameState w) = Some HOST)) eqn:H1.
  { apply andb_prop in H1 as [Ht%bool_decide_eq_true _].
    apply damage_own_other. intros ->. by apply Hne. }
  destruct (bool_decide (data_target data = Some "player2")
            && bool_decide (role (gameState w) = Some CLIENT)) eqn:H2.
  { apply andb_prop in H2 as [Ht%bool_decide_eq_true _].
    apply damage_own_other. intros ->. by apply Hne. }
  reflexivity.
Qed.

Lemma handleNetworkMessage_damage message :
  type message = MSG_TYPES.DAMAGE →
  handleNetworkMessage JSON_stringify message =
    handleRemoteDamage JSON_stringify (data message).
Proof. intros Ht. unfold handleNetworkMessage. rewrite Ht. reflexivity. Qed.

Lemma checkTankDamage_foreign k position k' target :
  stable (keeps_foreign_health k)
    (checkTankDamage JSON_stringify position k' (owner k') target).
Proof.
  intros w. unfold checkTankDamage. rewrite exec_bind. run.
  destruct (tank (player k' (gameState w))) as [t|]; [|reflexivity].
  destruct (_ <? _)%float; [|reflexivity].
  destruct (decide (role (gameState w) = Some (owner k'))) as [Hrole|Hrole].
  { by apply damage_own_foreign. }
  apply authority_keeps_foreign_health.
  destruct (isMultiplayer (gameState w) && negb (isTestMode (gameState w)));
    [|reflexivity].
  pose proof send_authority.
  assert (Hs : stable (same authority)
    (_ ← send JSON_stringify MSG_TYPES.DAMAGE
           (DamageData (explosion_damage
              (Vec3_distanceTo position (tank_position t))) target);
     mret ())) by stable_with same_field.
  apply Hs.
Qed.

Lemma createExplosion_foreign k position isLocal :
  stable (keeps_foreign_health k)
    (createExplosion JSON_stringify position isLocal).
Proof.
  pose proof (checkTankDamage_foreign k position P1 "player1") as H1.
  pose proof (checkTankDamage_foreign k position P2 "player2") as H2.
  pose proof (λ i, stable_weaken (same authority) (keeps_foreign_health k)
                (checkTreeDamage JSON_stringify position i)
                (authority_keeps_foreign_health k)
                (checkTreeDamage_authority position i)) as H3.
  simpl in H1, H2.
  unfold createExplosion, checkExplosionDamage, fresh_oid, scene_add.
  stable_with ltac:(by split).
Qed.

Lemma step_foreign k i : stable (keeps_foreign_health k) (step i).
Proof.
  destruct i as [message|position]; simpl.
  - destruct (decide (type message = MSG_TYPES.DAMAGE)) as [Ht|Ht].
    + rewrite (handleNetworkMessage_damage _ Ht).
      intros w. apply handleRemoteDamage_foreign.
    + eapply stable_weaken; [apply authority_keeps_foreign_health |].
      by apply handleNetworkMessage_authority.
  - apply createExplosion_foreign.
Qed.

Lemma step_not_aimed k i w :
  ¬ may_damage k i → hp k (exec (step i) w) = hp k w.
Proof.
  destruct i as [message|position]; simpl; [|intros Hnot; by destruct Hnot].
  intros Hnot.
  destruct (decide (type message = MSG_TYPES.DAMAGE)) as [Ht|Ht].
  - rewrite (handleNetworkMessage_damage _ Ht).
    apply handleRemoteDamage_not_aimed. intros Htarget. by apply Hnot.
  - pose proof (handleNetworkMessage_authority message Ht w) as Hsame.
    unfold same, authority in Hsame. destruct k; congruence.
Qed.

Lemma run_inputs_snoc inputs i w :
  run_inputs (inputs ++ [i]) w = exec (step i) (run_inputs inputs w).
Proof. unfold run_inputs. by rewrite foldl_app. Qed.

Lemma run_inputs_foreign k inputs w :
  keeps_foreign_health k w (run_inputs inputs w).
Proof.
  induction inputs as [|i inputs IH] using rev_ind; [reflexivity |].
  rewrite run_inputs_snoc. etransitivity; [exact IH | apply step_foreign].
Qed.

Lemma run_inputs_not_aimed k inputs w :
  Forall (λ i, ¬ may_damage k i) inputs →
  hp k (run_inputs inputs w) = hp k w.
Proof.
  induction inputs as [|i inputs IH] using rev_ind; [reflexivity |].
  intros [Hinit Hlast]%Forall_app.
  rewrite Forall_singleton in Hlast.
  rewrite run_inputs_snoc. rewrite step_not_aimed; [by apply IH | exact Hlast].
Qed.

(** C1. Over every sequence of received messages and locally detected
    explosions: the role of the peer never changes; the health of a
    player the peer does not own (the host owns player 1, the client
    player 2) is never changed; and the health of any player is unchanged
    when no input of the sequence is a local detection or a damage
    message naming that player. In particular [player_update] and every
    other message type that is not [damage] change no health value.
    (The callback that a local death schedules for the respawn is not
    among these inputs.) *)
Theorem authority_invariant (inputs : list Input) (w : World) (k : PlayerKey) :
  role_of (run_inputs inputs w) = role_of w ∧
  (role_of w ≠ Some (owner k) → hp k (run_inputs inputs w) = hp k w) ∧
  (Forall (λ i, ¬ may_damage k i) inputs →
   hp k (run_inputs inputs w) = hp k w).
Proof.
  destruct (run_inputs_foreign k inputs w) as [Hrole Hhp].
  split; [exact Hrole |]. split; [exact Hhp |].
  apply run_inputs_not_aimed.
Qed.

(** ** Scores and the end of the match *)

Inductive Death : Type := LocalDeath | RemoteDeath.

Definition death_step (d : Death) : M unit :=
  match d with
  | LocalDeath => handleLocalDeath JSON_stringify
  | RemoteDeath => handleRemoteDeath EmptyData
  end.

Definition run_deaths (deaths : list Death) (w : World) : World :=
  foldl (λ w d, exec (death_step d) w) w deaths.

(** The match has been set up by [createTanks]: [localPlayer] and
    [remotePlayer] refer to the two different player objects. *)
Definition in_match (w : World) : Prop :=
  ∃ lp rp, localPlayer (gameState w) = Some lp ∧
           remotePlayer (gameState w) = Some rp ∧ lp ≠ rp.

(** The side that survives a death event. *)
Definition survivor (d : Death) (w : World) : option PlayerKey :=
  match d with
  | LocalDeath => remotePlayer (gameState w)
  | RemoteDeath => localPlayer (gameState w)
  end.

(** Some score has reached the threshold. *)
Definition reached (w : World) : bool :=
  score_ge (points P1 w) (winThreshold (gameState w))
  || score_ge (points P2 w) (winThreshold (gameState w)).


Lemma send_cases t d w :
  send JSON_stringify t d w = (Ret false, w) ∨
  ∃ ch, send JSON_stringify t d w = (Ret true, frame_written t d ch w).
Proof.
  destruct (isConnected (webrtcManager w)) eqn:Hc;
    [|left; apply send_not_connected; by left].
  destruct (dataChannel (webrtcManager w)) as [ch|] eqn:Hch;
    [|left; apply send_not_connected; by right].
  destruct (decide (readyState ch = open)) as [Hopen|Hstate].
  - right. exists ch. by apply send_open.
  - left. by apply (send_not_open t d w ch).
Qed.

(** The part of the world the score code reads and writes. *)
Definition match_view (w : World) : GameState * CutsceneManager :=
  (gameState w, cutsceneManager w).

Lemma notify_view (b : bool) t d w :
  ∃ w', (if b then _ ← send JSON_stringify t d; mret () else mret ()) w
          = (Ret (), w') ∧
        match_view w' = match_view w.
Proof.
  destruct b; [|by eexists].
  destruct (send_cases t d w) as [Hs|[ch Hs]]; run; rewrite Hs; run;
    by eexists.
Qed.

Lemma updateScoreboard_view w :
  ∃ w', updateScoreboard w = (Ret (), w') ∧ match_view w' = match_view w.
Proof. by eexists. Qed.

Lemma showWinMessage_view winner loser c w :
  ∃ w', showWinMessage winner loser c w = (Ret (), w') ∧
        match_view w' = match_view w.
Proof.
  unfold showWinMessage. run.
  destruct (winMessageElement (dom w)); run; by eexists.
Qed.

Definition incr_score (p : PlayerRecord) : PlayerRecord :=
  set_score (S (score p)) p.

(** [checkWinCondition] on a game state. *)
Definition decided (g : GameState) : bool :=
  score_ge (score (player1 g)) (winThreshold g)
  || score_ge (score (player2 g)) (winThreshold g).

Lemma decided_reached w : decided (gameState w) = reached w.
Proof. reflexivity. Qed.

Lemma playCutscene_view t1 t2 scores w :
  ∃ w', playCutscene t1 t2 scores w = (Ret (), w') ∧
        gameState w' = gameState w ∧
        cs_isPlaying (cutsceneManager w') = true.
Proof.
  unfold playCutscene. run.
  destruct (cs_isPlaying (cutsceneManager w)) eqn:Hp; run; [by eexists |].
  destruct t1, t2; run; by eexists.
Qed.

Lemma triggerFinalCutscene_view w :
  ∃ w', triggerFinalCutscene w = (Ret (), w') ∧
        gameState w' = set_isControlsLocked true (gameState w) ∧
        cs_isPlaying (cutsceneManager w') = true.
Proof.
  unfold triggerFinalCutscene. run.
  edestruct playCutscene_view as (w' & -> & Hg & Hp). run.
  exists w'. by rewrite Hg.
Qed.

Lemma checkWinCondition_view w :
  in_match w →
  ∃ w', checkWinCondition w = (Ret (), w') ∧
        gameState w' =
          (if reached w then set_isControlsLocked true (gameState w)
           else gameState w) ∧
        cs_isPlaying (cutsceneManager w') =
          cs_isPlaying (cutsceneManager w) || reached w.
Proof.
  intros (lp & rp & Hl & Hr & Hne). unfold checkWinCondition. run.
  rewrite Hl. run.
  assert (Hreached : reached w =
    score_ge (score (player lp (gameState w))) (winThreshold (gameState w))
    || score_ge (score (player rp (gameState w))) (winThreshold (gameState w))).
  { unfold reached, points. destruct lp, rp; try done; simpl; apply orb_comm. }
  rewrite Hreached.
  destruct (score_ge (score (player lp _)) _); simpl.
  { destruct (triggerFinalCutscene_view w) as (w' & -> & Hg & Hp).
    exists w'. by rewrite Hp, orb_true_r. }
  run. rewrite Hr. run.
  destruct (score_ge (score (player rp _)) _); simpl.
  { destruct (triggerFinalCutscene_view w) as (w' & -> & Hg & Hp).
    exists w'. by rewrite Hp, orb_true_r. }
  exists w. by rewrite orb_false_r.
Qed.

(** The game state after a death event whose survivor is [s]. *)
Definition after_death (s : PlayerKey) (g : GameState) : GameState :=
  let g' := upd_player s incr_score g in
  if decided g' then set_isControlsLocked true g' else g'.

Lemma upd_player_refs k f g :
  localPlayer (upd_player k f g) = localPlayer g ∧
  remotePlayer (upd_player k f g) = remotePlayer g.
Proof. by destruct k. Qed.

Lemma in_match_after_death s w w' :
  gameState w' = upd_player s incr_score (gameState w) →
  in_match w → in_match w'.
Proof.
  intros Hg (lp & rp & Hl & Hr & Hne). exists lp, rp.
  rewrite Hg. destruct (upd_player_refs s incr_score (gameState w)) as [-> ->].
  done.
Qed.

Lemma death_step_view d s w :
  in_match w → survivor d w = Some s →
  ∃ w', death_step d w = (Ret (), w') ∧
        gameState w' = after_death s (gameState w) ∧
        cs_isPlaying (cutsceneManager w') =
          cs_isPlaying (cutsceneManager w)
          || decided (upd_player s incr_score (gameState w)).
Proof.
  intros Hin Hs. pose proof Hin as (lp & rp & Hl & Hr & Hne).
  destruct d; simpl in Hs.
  - (* local death *)
    assert (s = rp) as -> by congruence.
    unfold death_step, handleLocalDeath. run.
    edestruct notify_view as (w1 & -> & Hv1). run.
    rewrite Hr. run. unfold score_incr. run.
    edestruct updateScoreboard_view as (w2 & -> & Hv2). run.
    injection Hv1 as Hg1 Hc1. injection Hv2 as Hg2 Hc2.
    cbn [gameState cutsceneManager upd_gameState set_gameState] in Hg2, Hc2.
    rewrite Hg1 in Hg2. rewrite Hc1 in Hc2.
    change (λ p, set_score (S (score p)) p) with incr_score in Hg2.
    assert (Hl2 : localPlayer (gameState w2) = Some lp).
    { rewrite Hg2. by destruct (upd_player_refs rp incr_score (gameState w))
        as [-> _]. }
    rewrite Hl2. run.
    edestruct showWinMessage_view as (w3 & -> & Hv3). run.
    injection Hv3 as Hg3 Hc3. rewrite Hg2 in Hg3. rewrite Hc2 in Hc3.
    destruct (checkWinCondition_view w3) as (w4 & -> & Hg4 & Hp4).
    { by apply (in_match_after_death rp w). }
    run. unfold setTimeout. run.
    eexists. split; [reflexivity |].
    cbn [gameState cutsceneManager set_timers set_next_timer].
    rewrite Hg4, Hp4, <- decided_reached, Hg3, Hc3. by unfold after_death.
  - (* remote death *)
    assert (s = lp) as -> by congruence.
    unfold death_step, handleRemoteDeath. run.
    rewrite Hl. run. unfold score_incr. run.
    edestruct updateScoreboard_view as (w2 & -> & Hv2). run.
    injection Hv2 as Hg2 Hc2.
    cbn [gameState cutsceneManager upd_gameState set_gameState] in Hg2, Hc2.
    change (λ p, set_score (S (score p)) p) with incr_score in Hg2.
    assert (Hr2 : remotePlayer (gameState w2) = Some rp).
    { rewrite Hg2. by destruct (upd_player_refs lp incr_score (gameState w))
        as [_ ->]. }
    rewrite Hr2. run.
    edestruct showWinMessage_view as (w3 & -> & Hv3). run.
    injection Hv3 as Hg3 Hc3. rewrite Hg2 in Hg3. rewrite Hc2 in Hc3.
    destruct (checkWinCondition_view w3) as (w4 & Hrun & Hg4 & Hp4).
    { by apply (in_match_after_death lp w). }
    exists w4. split; [exact Hrun |].
    rewrite Hg4, Hp4, <- decided_reached, Hg3, Hc3. by unfold after_death.
Qed.



Lemma after_death_score s g k :
  score (player k (after_death s g)) =
    if decide (k = s) then S (score (player k g)) else score (player k g).
Proof.
  unfold after_death.
  destruct (decided _); destruct s, k; reflexivity.
Qed.


Lemma after_death_decided s g :
  decided (after_death s g) = decided (upd_player s incr_score g).
Proof.
  unfold after_death.
  destruct (decided (upd_player s incr_score g)) eqn:Hd; exact Hd.
Qed.

Lemma after_death_winThreshold s g :
  winThreshold (after_death s g) = winThreshold g.
Proof. unfold after_death. destruct (decided _); by destruct s. Qed.


Lemma survivor_in_match d w : in_match w → ∃ s, survivor d w = Some s.
Proof. intros (lp & rp & Hl & Hr & _). destruct d; by eexists. Qed.







(** ** Damage messages *)

(** The world after [p.health -= damage; p.health = Math.max(0, p.health)]
    on player [k]. *)
Definition health_updated (k : PlayerKey) (damage : float) (w : World) : World :=
  upd_gameState
    (upd_player k (λ p, set_health (Math_max 0 (health p - damage)) p)) w.

(** [updateHealthBar] returns: the health bar element is absent, or
    [localPlayer] has been set. *)
Definition health_bar_ready (w : World) : Prop :=
  healthBarFill (dom w) = None ∨ is_Some (localPlayer (gameState w)).



Lemma apply_damage_run k damage w :
  apply_damage k damage w = (Ret (), health_updated k damage w).
Proof. by destruct k. Qed.

Lemma hp_health_updated k damage w :
  hp k (health_updated k damage w) = Math_max 0 (hp k w - damage).
Proof. by destruct k. Qed.

Lemma hp_health_updated_other k k' damage w :
  k' ≠ k → hp k' (health_updated k damage w) = hp k' w.
Proof. by destruct k, k'. Qed.

Lemma updateHealthBar_ready w :
  health_bar_ready w →
  ∃ w', updateHealthBar w = (Ret (), w') ∧ gameState w' = gameState w.
Proof.
  intros Hready. unfold updateHealthBar. run.
  destruct (healthBarFill (dom w)) as [width|] eqn:Hbar; [|by eexists].
  destruct Hready as [Hnone|[lp Hlp]]; [congruence |].
  rewrite Hlp. run. by eexists.
Qed.

Lemma health_bar_ready_health_updated k damage w :
  health_bar_ready w → health_bar_ready (health_updated k damage w).
Proof.
  unfold health_bar_ready, health_updated. simpl.
  by destruct (upd_player_refs k
    (λ p, set_health (Math_max 0 (health p - damage)) p) (gameState w))
    as [-> _].
Qed.

(** The owner's branch: the health update, the health bar, then the
    death check. *)
Lemma damage_own_run k damage w :
  health_bar_ready w →
  let w1 := exec updateHealthBar (health_updated k damage w) in
  damage_own JSON_stringify k damage w =
    (if (hp k w1 <=? 0)%float then handleLocalDeath JSON_stringify w1
     else (Ret (), w1)) ∧
  hp k w1 = Math_max 0 (hp k w - damage).
Proof.
  intros Hready w1.
  destruct (updateHealthBar_ready (health_updated k damage w)) as (w2 & Hrun & Hg);
    [by apply health_bar_ready_health_updated |].
  assert (w1 = w2) as -> by (subst w1; unfold exec; by rewrite Hrun).
  assert (Hhp : hp k w2 = Math_max 0 (hp k w - damage)).
  { unfold hp at 1. rewrite Hg. apply hp_health_updated. }
  split; [|exact Hhp].
  unfold damage_own. run. rewrite apply_damage_run. run. rewrite Hrun. run.
  unfold hp. by destruct (_ <=? _)%float.
Qed.

Lemma handleRemoteDamage_owner k damage w :
  role_of w = Some (owner k) →
  handleRemoteDamage JSON_stringify (DamageData damage (player_name k)) w =
    damage_own JSON_stringify k damage w.
Proof.
  unfold role_of. intros Hrole. unfold handleRemoteDamage. run.
  rewrite Hrole. by destruct k.
Qed.

Lemma handleRemoteDamage_not_owner k damage w :
  role_of w ≠ Some (owner k) →
  handleRemoteDamage JSON_stringify (DamageData damage (player_name k)) w =
    (Ret (), w).
Proof.
  unfold role_of. intros Hrole. unfold handleRemoteDamage. run.
  destruct k; simpl in Hrole; rewrite (bool_decide_eq_false_2 _ Hrole);
    reflexivity.
Qed.




(** X1. Before [createTanks] has set [localPlayer], on a page that has
    the health bar, the refresh of the bar throws after the health has been
    written, and the death check is not reached. *)
Lemma handleRemoteDamage_before_start k damage w width :
  role_of w = Some (owner k) →
  localPlayer (gameState w) = None →
  healthBarFill (dom w) = Some width →
  handleRemoteDamage JSON_stringify (DamageData damage (player_name k)) w =
    (Throw TypeError, health_updated k damage w).
Proof.
  intros Hrole Hlp Hbar. rewrite handleRemoteDamage_owner by done.
  unfold damage_own. run. rewrite apply_damage_run. run.
  unfold updateHealthBar. run.
  unfold health_updated at 1. cbn [dom upd_gameState set_gameState].
  rewrite Hbar.
  assert (Hl : localPlayer (gameState (health_updated k damage w)) = None).
  { unfold health_updated. simpl.
    by destruct (upd_player_refs k
      (λ p, set_health (Math_max 0 (health p - damage)) p) (gameState w))
      as [-> _]. }
  rewrite Hl. by run.
Qed.

(** ** The map on the responder *)

(** The decoration objects a peer renders and collides with. *)
Definition placed (w : World) :=
  (objects w, collidables w, trees w, barriers w).

Lemma send_placed t d : stable (same placed) (send JSON_stringify t d).
Proof. unfold send, dataChannel_send. stable_with ltac:(by unfold same). Qed.

(** Handling [game_start] leaves the decoration objects, which
    [generateMap] placed at load time from this peer's own random draws,
    exactly as they were. *)
Lemma game_start_keeps_placed message :
  type message = MSG_TYPES.GAME_START →
  stable (same placed) (handleNetworkMessage JSON_stringify message).
Proof.
  intros Ht. pose proof send_placed.
  unfold handleNetworkMessage. rewrite Ht. simpl.
  unfold startGame, createTanks, createTankGroup, syncMapFromHost,
    updateScoreboard, scene_add, fresh_oid.
  stable_with ltac:(by unfold same).
Qed.

Lemma syncMapFromHost_run mapData w :
  decorationPositions (exec (syncMapFromHost mapData) w) =
    mkDecorationPositions (or_empty (md_warehouses mapData))
      (or_empty (md_trees mapData)) (or_empty (md_barriers mapData)).
Proof. reflexivity. Qed.

(** ** A closed channel *)

Lemma dataChannel_onclose_run w :
  dataChannel_onclose JSON_stringify w =
    (Ret (),
     set_emitted (emitted w ++ [EvDisconnected])
       (upd_webrtcManager (set_isConnected false) w)).
Proof. reflexivity. Qed.

Lemma cancelConnection_shows_menu w :
  mainMenu (dom (exec (cancelConnection JSON_stringify) w)) = true.
Proof.
  unfold cancelConnection, exec. run.
  unfold clearTimeout. run.
  destruct (peerConnection (webrtcManager w)); run;
    destruct (dataChannel (webrtcManager w)); run; reflexivity.
Qed.

(** ** The start of the match *)




(** X3. The timer callback set by a local death gives the local player its
    full health back and writes no other player's health, no score and
    no role. *)
Theorem respawn_restores_local_health (lp : PlayerKey) (w : World) :
  localPlayer (gameState w) = Some lp →
  let w' := exec respawnLocalPlayer w in
  returns respawnLocalPlayer w ∧
  hp lp w' = maxPlayerHealth ∧
  (∀ k, k ≠ lp → hp k w' = hp k w) ∧
  (∀ k, points k w' = points k w) ∧
  role_of w' = role_of w.
Proof.
  intros Hlp w'. subst w'. unfold returns, exec, respawnLocalPlayer.
  run. rewrite Hlp. run. unfold updateHealthBar. run.
  cbn [dom upd_gameState set_gameState gameState].
  assert (Hl : localPlayer (upd_player lp (set_health maxPlayerHealth)
                              (gameState w)) = Some lp).
  { by destruct (upd_player_refs lp (set_health maxPlayerHealth) (gameState w))
      as [-> _]. }
  destruct (healthBarFill (dom w)) as [width|]; run;
    cbn [gameState upd_dom set_dom upd_gameState set_gameState];
    rewrite ?Hl; run;
    cbn [gameState upd_dom set_dom upd_gameState set_gameState];
    destruct lp;
    cbn [player upd_player set_player1 set_player2 player1 player2 tank set_health];
    destruct (tank _) as [t|]; run;
    (split; [by eexists |]);
    unfold hp, points, role_of; simpl;
    (split_and!; [reflexivity | by intros [] | by intros [] | reflexivity]).
Qed.

(** X4. The initiator's counterpart of the rejected offer: when the pasted
    answer does not parse, [handleAnswerSubmit] returns, the only change
    is the error message in the lobby status, and the peer connection,
    the channel and what is pending are as before. *)
Theorem malformed_answer_rejected (w : World) :
  JSON_parse (trim (answerInput (dom w))) = None →
  let w' := exec (handleAnswerSubmit JSON_parse trim) w in
  returns (handleAnswerSubmit JSON_parse trim) w ∧
  w' = upd_dom (set_lobbyStatus (answer_error (trim (answerInput (dom w))))) w ∧
  webrtcManager w' = webrtcManager w ∧
  pending w' = pending w ∧
  timers w' = timers w ∧
  answerInput (dom w') = answerInput (dom w).
Proof.
  intros Hparse w'. subst w'. unfold exec, returns.
  rewrite (handleAnswerSubmit_malformed _ Hparse). simpl.
  split_and!; try reflexivity. by eexists.
Qed.

(** ** The map that [generateMap] builds *)

(** A loop over draws whose every round returns and takes the invariant
    of round [i] to that of round [i + 1]. *)
Lemma for_each_draw_invariant (body : nat → Draw → M unit)
    (I : nat → World → Prop) :
  (∀ i d w, I i w → ∃ w', body i d w = (Ret (), w') ∧ I (S i) w') →
  ∀ draws i w, I i w →
    ∃ w', for_each_draw i draws body w = (Ret (), w') ∧
          I (i + length draws) w'.
Proof.
  intros Hbody. induction draws as [|d rest IH]; intros i w Hi.
  - exists w. split; [reflexivity |]. by rewrite Nat.add_0_r.
  - cbn [for_each_draw length]. rewrite bind_run.
    destruct (Hbody i d w Hi) as (w1 & -> & H1).
    destruct (IH (S i) w1 H1) as (w' & Hrun & H').
    exists w'. split; [exact Hrun |].
    by replace (i + S (length rest)) with (S i + length rest) by lia.
Qed.

(** The label [loadTrees] gives to its tree number [j]. *)
Definition tree_label (j : nat) : string := "tree_" +:+ pretty j.

(** The object at [tree] is the tree that the placement [p] describes. *)
Definition placed_tree (w : World) (tree : nat) (p : TreePlacement) : Prop :=
  objects w tree =
    mkObj "tree" (Some (tp_id p)) (mkVec3 (tp_x p) (tp_y p) (tp_z p)).

(** What [generateMap] establishes: the trees are objects allocated so
    far, [decorationPositions.trees] describes them one by one, they are
    labelled in order, and each of them is collidable. *)
Definition map_consistent (w : World) : Prop :=
  Forall (λ tree, tree < next_oid w) (trees w) ∧
  Forall2 (placed_tree w) (trees w) (dp_trees (decorationPositions w)) ∧
  tp_id <$> dp_trees (decorationPositions w)
    = tree_label <$> seq 0 (length (trees w)) ∧
  Forall (λ tree, tree ∈ collidables w) (trees w).

(** A step that allocates one object, keeps [trees] and the placement
    list of the trees, and only adds to [collidables]. *)
Definition allocates_beside_trees (w w' : World) : Prop :=
  next_oid w' = S (next_oid w) ∧
  (∃ o, objects w' = <[next_oid w := o]> (objects w)) ∧
  trees w' = trees w ∧
  dp_trees (decorationPositions w') = dp_trees (decorationPositions w) ∧
  (∃ more, collidables w' = collidables w ++ more).

Lemma placed_tree_insert w w' o tree p :
  objects w' = <[next_oid w := o]> (objects w) →
  tree < next_oid w → placed_tree w tree p → placed_tree w' tree p.
Proof.
  unfold placed_tree. intros -> Hlt Hp.
  by rewrite fn_lookup_insert_ne by lia.
Qed.

Lemma Forall2_placed_tree_insert w w' o l ps :
  objects w' = <[next_oid w := o]> (objects w) →
  Forall (λ tree, tree < next_oid w) l →
  Forall2 (placed_tree w) l ps → Forall2 (placed_tree w') l ps.
Proof.
  intros Hobj Hall H2. induction H2 as [|tree p l ps Hp H2 IH]; [constructor |].
  apply Forall_cons in Hall as [Hlt Hall].
  constructor; [by apply (placed_tree_insert w w' o) | by apply IH].
Qed.

Lemma map_consistent_beside_trees w w' :
  allocates_beside_trees w w' → map_consistent w → map_consistent w'.
Proof.
  intros (Hnext & [o Hobj] & Htrees & Hdp & [more Hcol])
         (Hall & Hplaced & Hlabels & Hin).
  unfold map_consistent. rewrite Htrees, Hdp, Hnext, Hcol.
  split_and!.
  - eapply Forall_impl; [exact Hall | simpl; lia].
  - by apply (Forall2_placed_tree_insert w w' o).
  - exact Hlabels.
  - eapply Forall_impl; [exact Hin |]. simpl. intros tree Ht.
    apply elem_of_app. by left.
Qed.

(** Closes the round of a loader that places no tree. *)
Ltac loader_round :=
  let i := fresh "i" in
  let d := fresh "d" in
  let w0 := fresh "w" in
  let H0 := fresh "H" in
  let Ht := fresh "Ht" in
  intros i d w0 [H0 Ht]; unfold fresh_oid, scene_add; run;
  eexists; split; [reflexivity |];
  split; [|exact Ht];
  apply (map_consistent_beside_trees w0); [|exact H0];
  unfold allocates_beside_trees; cbn;
  split_and!; [reflexivity | by eexists | reflexivity | reflexivity | by eexists].

Lemma loadWarehouse_consistent draws w :
  map_consistent w →
  ∃ w', loadWarehouse draws w = (Ret (), w') ∧
        map_consistent w' ∧ trees w' = trees w.
Proof.
  intros Hw. unfold loadWarehouse.
  apply (for_each_draw_invariant _
           (λ _ w', map_consistent w' ∧ trees w' = trees w));
    [loader_round | by split].
Qed.

Lemma loadBarriers_consistent draws w :
  map_consistent w →
  ∃ w', loadBarriers draws w = (Ret (), w') ∧
        map_consistent w' ∧ trees w' = trees w.
Proof.
  intros Hw. unfold loadBarriers.
  apply (for_each_draw_invariant _
           (λ _ w', map_consistent w' ∧ trees w' = trees w));
    [loader_round | by split].
Qed.

Lemma loadTrees_consistent draws w :
  trees w = [] → map_consistent w →
  ∃ w', loadTrees draws w = (Ret (), w') ∧ map_consistent w' ∧
        length (trees w') = length draws.
Proof.
  intros Hnone Hw. unfold loadTrees.
  destruct (for_each_draw_invariant
              (λ i d,
                 tree ← fresh_oid;
                 let id := "tree_" +:+ pretty i in
                 modify (λ w, set_objects
                   (<[tree := mkObj "tree" (Some id)
                                (mkVec3 (draw_x d) (draw_groundY d) (draw_z d))]>
                      (objects w)) w) ;;
                 scene_add tree ;;
                 modify (λ w, set_collidables (collidables w ++ [tree]) w) ;;
                 modify (λ w, set_trees (trees w ++ [tree]) w) ;;
                 modify (λ w, set_decorationPositions
                   (push_dp_trees
                      (mkTreePlacement id (draw_x d) (draw_groundY d) (draw_z d)
                         (draw_rotY d) (draw_scale d))
                      (decorationPositions w)) w))
              (λ i w', map_consistent w' ∧ length (trees w') = i))
    with (draws := draws) (i := 0) (w := w) as (w' & Hrun & Hw' & Hlen).
  2: { split; [exact Hw | by rewrite Hnone]. }
  2: { by exists w'. }
  intros i d w0 [(Hall & Hplaced & Hlabels & Hin) Hlen].
  unfold fresh_oid, scene_add. run. eexists. split; [reflexivity |].
  unfold map_consistent. cbn. rewrite length_app. simpl.
  split; [|lia]. split_and!.
  - apply Forall_app. split; [|apply Forall_singleton; lia].
    eapply Forall_impl; [exact Hall | simpl; lia].
  - apply Forall2_app.
    + eapply Forall2_placed_tree_insert; [| exact Hall | exact Hplaced].
      reflexivity.
    + constructor; [|constructor]. unfold placed_tree. cbn.
      by rewrite fn_lookup_insert.
  - rewrite fmap_app, Hlabels. replace (length (trees w0) + 1)
      with (S (length (trees w0))) by lia.
    rewrite seq_S, fmap_app. simpl. by rewrite Hlen.
  - apply Forall_app. split.
    + eapply Forall_impl; [exact Hin |]. simpl. intros tree Ht.
      apply elem_of_app. by left.
    + apply Forall_singleton. apply elem_of_app. right. constructor.
Qed.

(** [generateMap] on a map without trees. *)
Lemma generateMap_consistent warehouseDraws treeDraws barrierDraws w :
  trees w = [] → dp_trees (decorationPositions w) = [] →
  ∃ w', generateMap warehouseDraws treeDraws barrierDraws w = (Ret (), w') ∧
        map_consistent w' ∧ length (trees w') = length treeDraws.
Proof.
  intros Hnone Hdp. unfold generateMap, scene_add. run.
  destruct (loadWarehouse_consistent warehouseDraws
              (set_scene (scene w ++ [ground w]) w)) as (w1 & -> & H1 & Ht1).
  { unfold map_consistent. cbn. rewrite Hnone, Hdp. by split_and!. }
  run. destruct (loadTrees_consistent treeDraws w1) as (w2 & -> & H2 & Hlen);
    [by rewrite Ht1 | exact H1 |].
  run. destruct (loadBarriers_consistent barrierDraws w2 H2)
    as (w3 & -> & H3 & Ht3).
  exists w3. split_and!; [reflexivity | exact H3 | by rewrite Ht3].
Qed.

Lemma map_consistent_tree_ids w :
  map_consistent w →
  tree_id w <$> trees w = Some ∘ tree_label <$> seq 0 (length (trees w)).
Proof.
  intros (_ & Hplaced & Hlabels & _).
  rewrite (list_fmap_compose tree_label Some), <- Hlabels.
  rewrite <- list_fmap_compose. clear Hlabels.
  induction Hplaced as [|tree p l ps Hp _ IH]; [reflexivity |].
  rewrite !fmap_cons. f_equal; [|exact IH].
  unfold tree_id. by rewrite Hp.
Qed.

(** X5. The trees that [generateMap] places on a map that has none are
    labelled [tree_0], [tree_1], ... in the order of [trees], one per
    draw, so no two trees of the map carry the same id. *)
Theorem generateMap_tree_ids_distinct
    (warehouseDraws treeDraws barrierDraws : list Draw) (w : World) :
  trees w = [] → dp_trees (decorationPositions w) = [] →
  let w' := exec (generateMap warehouseDraws treeDraws barrierDraws) w in
  returns (generateMap warehouseDraws treeDraws barrierDraws) w ∧
  tree_id w' <$> trees w' =
    Some ∘ tree_label <$> seq 0 (length treeDraws) ∧
  NoDup (tree_id w' <$> trees w').
Proof.
  intros Hnone Hdp w'.
  destruct (generateMap_consistent warehouseDraws treeDraws barrierDraws w
              Hnone Hdp) as (w1 & Hrun & Hmap & Hlen).
  assert (w' = w1) as -> by (subst w'; unfold exec; by rewrite Hrun).
  assert (Hids : tree_id w1 <$> trees w1 =
                   Some ∘ tree_label <$> seq 0 (length treeDraws)).
  { rewrite <- Hlen. by apply map_consistent_tree_ids. }
  split; [unfold returns; rewrite Hrun; by eexists |].
  split; [exact Hids |].
  rewrite Hids. apply NoDup_fmap_2; [|apply NoDup_seq].
  intros i j Heq. simpl in Heq. injection Heq as Heq.
  by apply (inj pretty).
Qed.

(** X6. After [generateMap] on a map without trees, the list
    [decorationPositions.trees], which the initiator sends in
    [game_start], describes the trees of the map one by one: entry [j]
    carries the id and the position of the object at [trees[j]], and
    every tree is among the collidables. *)
Theorem generateMap_placements_describe_trees
    (warehouseDraws treeDraws barrierDraws : list Draw) (w : World) :
  trees w = [] → dp_trees (decorationPositions w) = [] →
  let w' := exec (generateMap warehouseDraws treeDraws barrierDraws) w in
  length (trees w') = length treeDraws ∧
  Forall2 (λ tree p,
             userData_type (objects w' tree) = "tree" ∧
             userData_id (objects w' tree) = Some (tp_id p) ∧
             obj_position (objects w' tree)
               = mkVec3 (tp_x p) (tp_y p) (tp_z p))
    (trees w') (dp_trees (decorationPositions w')) ∧
  Forall (λ tree, tree ∈ collidables w') (trees w').
Proof.
  intros Hnone Hdp w'.
  destruct (generateMap_consistent warehouseDraws treeDraws barrierDraws w
              Hnone Hdp) as (w1 & Hrun & (_ & Hplaced & _ & Hin) & Hlen).
  assert (w' = w1) as -> by (subst w'; unfold exec; by rewrite Hrun).
  split_and!; [exact Hlen | | exact Hin].
  eapply Forall2_impl; [exact Hplaced |].
  intros tree p Hp. unfold placed_tree in Hp. by rewrite Hp.
Qed.

(** ** Messages without a handler, frames that do not parse *)

(** The types for which [handleNetworkMessage] has a case that does
    something. *)
Definition handled_types : list string :=
  ["player_info"; "game_start"; "player_update"; "bullet_spawn"; "damage";
   "death"].

(** X7. A message whose type is a string without a working case in
    [handleNetworkMessage] is ignored: the handler returns and changes
    nothing. That holds of [ready], [round_start], [round_end],
    [game_end], [sync_request] and [sync_response], which the table of
    types declares, and of every string outside the table. *)
Theorem unhandled_types_ignored (message : Envelope) (s : string) (w : World) :
  type message = Some s → s ∉ handled_types →
  handleNetworkMessage JSON_stringify message w = (Ret (), w).
Proof.
  intros Htype Hnot. unfold handled_types in Hnot.
  rewrite !not_elem_of_cons in Hnot.
  destruct Hnot as (H1 & H2 & H3 & H4 & H5 & H6 & _).
  unfold handleNetworkMessage. rewrite Htype. cbv zeta.
  unfold MSG_TYPES.PLAYER_INFO, MSG_TYPES.GAME_START, MSG_TYPES.PLAYER_UPDATE,
    MSG_TYPES.BULLET_SPAWN, MSG_TYPES.DAMAGE, MSG_TYPES.DEATH,
    MSG_TYPES.TREE_DESTROYED.
  rewrite !decide_False by congruence.
  by repeat case_decide.
Qed.

(** X8. [onmessage] never lets an error out. A frame that does not parse
    is dropped with the world unchanged. For a frame that parses, the
    message event is emitted and the world is the one the handler leaves,
    also when the handler throws part way: the error is swallowed and the
    writes made before it stay. *)
Theorem onmessage_swallows_errors (frame : string) (w : World) :
  returns (dataChannel_onmessage JSON_stringify JSON_parse_message frame) w ∧
  (JSON_parse_message frame = None →
   dataChannel_onmessage JSON_stringify JSON_parse_message frame w
     = (Ret (), w)) ∧
  (∀ message, JSON_parse_message frame = Some message →
   exec (dataChannel_onmessage JSON_stringify JSON_parse_message frame) w
     = exec (handleNetworkMessage JSON_stringify message)
         (set_emitted (emitted w ++ [EvMessage message]) w)).
Proof.
  unfold dataChannel_onmessage, try_catch, returns, exec.
  destruct (JSON_parse_message frame) as [message|]; cbn.
  - split_and!; [|done|].
    + unfold emit. run. cbn [listener].
      by destruct (handleNetworkMessage _ _ _) as [[[]|e] w']; eexists.
    + intros m [= <-]. unfold emit. run. cbn [listener].
      by destruct (handleNetworkMessage _ _ _) as [[[]|e] w'].
  - split_and!; [by eexists | done | done].
Qed.

(** ** The opening of the channel *)

(** The two messages a peer may send when its channel opens. *)
Definition player_info_of (w : World) : Envelope :=
  mkEnvelope MSG_TYPES.PLAYER_INFO
    (PlayerInfoData (Some (mm_username (menuManager w)))
                    (Some (mm_color (menuManager w)))) (clock w).
Definition game_start_of (w : World) : Envelope :=
  mkEnvelope MSG_TYPES.GAME_START
    (GameStartData (gameMode (gameState w))
                   (Some (mapData_of (decorationPositions w)))) (clock w).

Lemma on_connected_run r w ch :
  isConnected (webrtcManager w) = true →
  dataChannel (webrtcManager w) = Some ch → readyState ch = open →
  ∃ w', on_connected JSON_stringify r w = (Ret (), w') ∧
        sent <$> dataChannel (webrtcManager w') =
          Some (sent ch ++ JSON_stringify (player_info_of w) ::
                  if decide (r = Some HOST)
                  then [JSON_stringify (game_start_of w)] else []) ∧
        set_webrtcManager (webrtcManager w) w' = w ∧
        isConnected (webrtcManager w') = true.
Proof.
  intros Hc Hch Hopen. unfold on_connected. run.
  rewrite (send_open _ _ w ch Hc Hch Hopen). run.
  repeat case_decide; try done.
  - set (w2 := frame_written _ _ _ _). rewrite bind_run.
    rewrite (send_open _ _ w2
               (set_sent (sent ch ++ [JSON_stringify (player_info_of w)]) ch));
      [| by subst w2; cbn.. ].
    run. eexists. split; [reflexivity |]. subst w2. cbn.
    rewrite <- app_assoc. split_and!; [reflexivity | by destruct w | exact Hc].
  - run. eexists. split; [reflexivity |]. cbn.
    split_and!; [reflexivity | by destruct w | exact Hc].
Qed.

(** X9. When the channel opens, the session is marked connected, the
    timer of the connection timeout is no longer pending, and the peer
    writes its [player_info] frame; the initiator then writes one
    [game_start] frame carrying its game mode and its
    [decorationPositions], the responder nothing more. Nothing in the
    game state changes: the match is not started by the opening. *)
Theorem channel_open_frames (w : World) (ch : DataChannel) :
  dataChannel (webrtcManager w) = Some ch → readyState ch = open →
  let w' := exec (dataChannel_onopen JSON_stringify) w in
  returns (dataChannel_onopen JSON_stringify) w ∧
  isConnected (webrtcManager w') = true ∧
  sent <$> dataChannel (webrtcManager w') =
    Some (sent ch ++ JSON_stringify (player_info_of w) ::
            if decide (rtc_role (webrtcManager w) = Some HOST)
            then [JSON_stringify (game_start_of w)] else []) ∧
  gameState w' = gameState w ∧
  timers w' =
    filter (λ t, Some (timer_id t) ≠ connectionTimeout (webrtcManager w))
      (timers w) ∧
  emitted w' = emitted w ++ [EvConnected (rtc_role (webrtcManager w))].
Proof.
  intros Hch Hopen w'.
  set (w1 := set_emitted
               (emitted w ++ [EvConnected (rtc_role (webrtcManager w))])
               (set_timers
                  (filter (λ t, Some (timer_id t)
                                  ≠ connectionTimeout (webrtcManager w))
                     (timers w))
                  (upd_webrtcManager (set_isConnected true) w))).
  assert (Hrun : dataChannel_onopen JSON_stringify w =
                   on_connected JSON_stringify (rtc_role (webrtcManager w)) w1)
    by reflexivity.
  destruct (on_connected_run (rtc_role (webrtcManager w)) w1 ch)
    as (w2 & Hrun2 & Hsent & Hrest & Hc); [reflexivity | exact Hch | exact Hopen |].
  assert (w' = w2) as ->.
  { subst w'. unfold exec. by rewrite Hrun, Hrun2. }
  split; [unfold returns; rewrite Hrun, Hrun2; by eexists |].
  split; [exact Hc |]. split; [exact Hsent |].
  assert (Hg : gameState w2 = gameState w1) by (by rewrite <- Hrest).
  assert (Ht : timers w2 = timers w1) by (by rewrite <- Hrest).
  assert (He : emitted w2 = emitted w1) by (by rewrite <- Hrest).
  by rewrite Hg, Ht, He.
Qed.

(** ** What the game code leaves alone *)

(** The connection as the session manager holds it, apart from the frames
    written; the frames written so far. *)
Definition session (w : World) :=
  let m := webrtcManager w in
  (peerConnection m, rtc_role m, isConnected m, connectionTimeout m,
   pcs_created m, pcs_closed m, readyState <$> dataChannel m).
Definition frames (w : World) : list string :=
  default [] (sent <$> dataChannel (webrtcManager w)).

(** The name and colour of a player; the role and both identities. *)
Definition identity (k : PlayerKey) (w : World) : option string * option string :=
  (username (player k (gameState w)), color (player k (gameState w))).
Definition identities (w : World) :=
  (role_of w, identity P1 w, identity P2 w).

(** The connection and the identities are kept, and frames are only
    added. *)
Definition quiet : relation World := λ w w',
  session w' = session w ∧ frames w `prefix_of` frames w' ∧
  identities w' = identities w.

Global Instance quiet_preorder : PreOrder quiet.
Proof.
  split.
  - intros w. by split_and!.
  - intros w1 w2 w3 (Hs12 & Hf12 & Hi12) (Hs23 & Hf23 & Hi23).
    split_and!; [congruence | by etransitivity | congruence].
Qed.

Ltac quiet_field :=
  unfold quiet, session, frames, identities, identity, role_of;
  repeat match goal with
         | k : PlayerKey |- _ => destruct k
         | |- context [if ?b then _ else _] => destruct b
         end;
  by split_and!.

Lemma send_quiet t d : stable quiet (send JSON_stringify t d).
Proof.
  intros w. unfold exec.
  destruct (isConnected (webrtcManager w)) eqn:Hc;
    [|rewrite send_not_connected by (by left); reflexivity].
  destruct (dataChannel (webrtcManager w)) as [ch|] eqn:Hch;
    [|rewrite send_not_connected by (by right); reflexivity].
  destruct (decide (readyState ch = open)) as [Hopen|Hstate].
  - rewrite (send_open t d w ch Hc Hch Hopen).
    unfold quiet, session, frames, identities, frame_written. cbn.
    rewrite Hch. cbn. split_and!; [reflexivity | | reflexivity].
    by apply prefix_app_r.
  - rewrite (send_not_open t d w ch Hc Hch Hstate). reflexivity.
Qed.

Lemma add_particles_quiet n : stable quiet (add_particles n).
Proof.
  induction n as [|n IH]; simpl; unfold fresh_oid, scene_add;
    stable_with quiet_field.
Qed.

Lemma handleLocalDeath_quiet : stable quiet (handleLocalDeath JSON_stringify).
Proof.
  pose proof send_quiet.
  unfold handleLocalDeath, checkWinCondition, triggerFinalCutscene,
    playCutscene, showWinMessage, updateScoreboard, score_incr, setTimeout.
  stable_with quiet_field.
Qed.

Lemma damage_own_quiet k damage :
  stable quiet (damage_own JSON_stringify k damage).
Proof.
  pose proof handleLocalDeath_quiet.
  unfold damage_own, apply_damage, updateHealthBar.
  stable_with quiet_field.
Qed.

Lemma checkTreeDamage_quiet position i :
  stable quiet (checkTreeDamage JSON_stringify position i).
Proof.
  pose proof send_quiet. pose proof add_particles_quiet.
  unfold checkTreeDamage, spawnWoodParticles, scene_remove.
  stable_with quiet_field.
Qed.

Lemma createExplosion_quiet position isLocal :
  stable quiet (createExplosion JSON_stringify position isLocal).
Proof.
  pose proof send_quiet. pose proof damage_own_quiet.
  pose proof checkTreeDamage_quiet.
  unfold createExplosion, checkExplosionDamage, checkTankDamage, fresh_oid,
    scene_add.
  stable_with quiet_field.
Qed.

(** Messages of any type but [player_info]. *)
Lemma handleNetworkMessage_quiet message :
  type message ≠ MSG_TYPES.PLAYER_INFO →
  stable quiet (handleNetworkMessage JSON_stringify message).
Proof.
  intros Hne. pose proof send_quiet. pose proof damage_own_quiet.
  unfold handleNetworkMessage, updateRemotePlayer, spawnRemoteBullet,
    spawnBullet, handleRemoteDamage, handleRemoteDeath, handleRoundEnd,
    handleRemoteTreeDestruction, removeMatchedTree, startGame, createTanks,
    createTankGroup, syncMapFromHost, checkWinCondition,
    triggerFinalCutscene, playCutscene, showWinMessage, updateScoreboard,
    score_incr, setTimeout, scene_remove, scene_add, fresh_oid.
  stable_with quiet_field.
Qed.

(** The world after a [player_info] message: the name and the colour of
    the other side's record are written. *)
Lemma handleNetworkMessage_player_info message w :
  type message = MSG_TYPES.PLAYER_INFO →
  handleNetworkMessage JSON_stringify message w =
    (Ret (),
     let k := if decide (role (gameState w) = Some HOST) then P2 else P1 in
     upd_gameState
       (upd_player k (λ p, set_color (data_color (data message))
                             (set_username (data_username (data message)) p)))
       w).
Proof.
  intros Ht. unfold handleNetworkMessage. rewrite Ht. cbv zeta.
  rewrite decide_True by done. run.
  by destruct (decide (role (gameState w) = Some HOST)).
Qed.

Lemma step_session i w :
  session (exec (step i) w) = session w ∧
  frames w `prefix_of` frames (exec (step i) w).
Proof.
  destruct i as [message|position]; simpl.
  - destruct (decide (type message = MSG_TYPES.PLAYER_INFO)) as [Ht|Ht].
    + unfold exec. rewrite (handleNetworkMessage_player_info _ _ Ht).
      cbn. by destruct (decide _).
    + destruct (handleNetworkMessage_quiet message Ht w) as (Hs & Hf & _).
      by split.
  - destruct (createExplosion_quiet position true w) as (Hs & Hf & _).
    by split.
Qed.

(** X10. Handling received messages and local explosions never changes
    the connection: the peer connection, the role of the session, the
    connected flag, the timeout handle and the state of the channel are
    as before, whatever the sequence of inputs, and the frames written so
    far are never altered or removed, frames are only added after
    them. *)
Theorem handlers_keep_the_session (inputs : list Input) (w : World) :
  session (run_inputs inputs w) = session w ∧
  frames w `prefix_of` frames (run_inputs inputs w).
Proof.
  induction inputs as [|i inputs IH] using rev_ind; [done |].
  rewrite run_inputs_snoc. destruct IH as [Hs Hf].
  destruct (step_session i (run_inputs inputs w)) as [Hs' Hf'].
  split; [congruence | by etransitivity].
Qed.

Lemma step_own_identity k i w :
  role_of w = Some (owner k) →
  identity k (exec (step i) w) = identity k w.
Proof.
  intros Hrole. destruct i as [message|position]; simpl.
  - destruct (decide (type message = MSG_TYPES.PLAYER_INFO)) as [Ht|Ht].
    + unfold exec. rewrite (handleNetworkMessage_player_info _ _ Ht).
      unfold role_of in Hrole. cbn. rewrite Hrole.
      by destruct k.
    + destruct (handleNetworkMessage_quiet message Ht w) as (_ & _ & Hi).
      unfold identities in Hi. destruct k; congruence.
  - destruct (createExplosion_quiet position true w) as (_ & _ & Hi).
    unfold identities in Hi. destruct k; congruence.
Qed.

(** X11. No received message and no local explosion changes the name or
    the colour of the player this peer owns: a [player_info] message
    writes the record of the other side only. *)
Theorem own_identity_invariant (inputs : list Input) (w : World) (k : PlayerKey) :
  role_of w = Some (owner k) →
  identity k (run_inputs inputs w) = identity k w.
Proof.
  intros Hrole.
  induction inputs as [|i inputs IH] using rev_ind; [done |].
  rewrite run_inputs_snoc, step_own_identity; [exact IH |].
  destruct (run_inputs_foreign k inputs w) as [-> _]. exact Hrole.
Qed.

(** ** The start of the match on a peer *)

(** The game state after [startGame]: tanks are created for both
    players, the two references are set by the role, and the match and
    the round are marked as running. *)
Definition started (n : nat) (g : GameState) : GameState :=
  let g1 :=
    upd_player P2 (set_tank (Some (mkTank (S n) (mkVec3 50 30 0) Quat_identity)))
      (upd_player P1
         (set_tank (Some (mkTank n (mkVec3 (-50) 30 0) Quat_identity)))
         (set_gameStarted true g)) in
  set_isRoundActive true
    (if decide (role g = Some HOST)
     then set_remotePlayer (Some P2) (set_localPlayer (Some P1) g1)
     else set_remotePlayer (Some P1) (set_localPlayer (Some P2) g1)).

Lemma startGame_run w :
  ∃ w', startGame JSON_stringify w = (Ret (), w') ∧
        gameState w' = started (next_oid w) (gameState w) ∧
        healthBarFill (dom w') = healthBarFill (dom w).
Proof.
  unfold startGame, createTanks, createTankGroup, fresh_oid, scene_add,
    updateScoreboard. run.
  cbn [gameState upd_gameState set_gameState set_scene set_next_oid
       upd_dom set_dom].
  assert (Hrole : ∀ f g, role (upd_player P2 f (upd_player P1 g
                    (set_gameStarted true (gameState w))))
                  = role (gameState w)) by done.
  rewrite Hrole.
  destruct (decide (role (gameState w) = Some HOST)) as [Hhost|Hother]; run;
    cbn [gameState upd_gameState set_gameState set_scene set_next_oid
         upd_dom set_dom];
    match goal with
    | |- context [if ?b then _ else _] => destruct b
    end; run;
    try (match goal with
         | |- context [send ?js ?t ?d ?w0] =>
             destruct (send_cases t d w0) as [Hs|[ch Hs]]; rewrite Hs
         end; run);
    eexists; (split; [reflexivity |]);
    unfold started; cbn;
    rewrite ?decide_True by done; rewrite ?decide_False by done;
    (split; [reflexivity |]);
    by repeat match goal with
              | |- context [match ?x with _ => _ end] => destruct x
              end.
Qed.

(** X12. [startGame] always returns and sets the match up: both tanks
    exist, [localPlayer] is the player this peer owns by its role (player
    1 for the host, player 2 otherwise) and [remotePlayer] the other one,
    so the two references differ and the health bar can be refreshed;
    the match and the round are marked as running. It writes no health
    and no score: a repeated start keeps both. *)
Theorem startGame_sets_up_the_match (w : World) :
  let w' := exec (startGame JSON_stringify) w in
  returns (startGame JSON_stringify) w ∧
  in_match w' ∧ health_bar_ready w' ∧
  localPlayer (gameState w') =
    Some (if decide (role_of w = Some HOST) then P1 else P2) ∧
  (∀ k, is_Some (tank (player k (gameState w')))) ∧
  gameStarted (gameState w') = true ∧
  isRoundActive (gameState w') = true ∧
  role_of w' = role_of w ∧
  (∀ k, hp k w' = hp k w ∧ points k w' = points k w).
Proof.
  intros w'. destruct (startGame_run w) as (w1 & Hrun & Hg & _).
  assert (w' = w1) as -> by (subst w'; unfold exec; by rewrite Hrun).
  assert (Hlocal : localPlayer (gameState w1) =
            Some (if decide (role_of w = Some HOST) then P1 else P2) ∧
          remotePlayer (gameState w1) =
            Some (if decide (role_of w = Some HOST) then P2 else P1)).
  { rewrite Hg. unfold started, role_of.
    by destruct (decide (role (gameState w) = Some HOST)). }
  destruct Hlocal as [Hl Hr].
  split; [unfold returns; rewrite Hrun; by eexists |].
  split_and!.
  - eexists _, _. split_and!; [exact Hl | exact Hr |].
    by destruct (decide (role_of w = Some HOST)).
  - right. rewrite Hl. by eexists.
  - exact Hl.
  - intros k. rewrite Hg. unfold started.
    destruct (decide (role (gameState w) = Some HOST)), k; by eexists.
  - rewrite Hg. unfold started. by destruct (decide _).
  - rewrite Hg. unfold started. by destruct (decide _).
  - unfold role_of. rewrite Hg. unfold started. by destruct (decide _).
  - intros k. unfold hp, points. rewrite Hg. unfold started.
    by destruct (decide (role (gameState w) = Some HOST)), k.
Qed.

(** ** Damage that is not a number *)




(** ** Cancelling the connection *)

(** The world after [cancelConnection]. *)
Definition cancelled (w : World) : World :=
  let m := webrtcManager w in
  set_emitted (emitted w ++ [EvCancelled])
    (upd_dom (λ d, set_mainMenu true (set_lobbyScreen false d))
       (upd_webrtcManager
          (λ m', set_isConnected false
                   (set_dataChannel None
                      (set_pcs_closed
                         (pcs_closed m ++ option_list (peerConnection m))
                         (set_peerConnection None m'))))
          (set_timers
             (filter (λ t, Some (timer_id t) ≠ connectionTimeout m) (timers w))
             w))).

Lemma cancelConnection_run w :
  cancelConnection JSON_stringify w = (Ret (), cancelled w).
Proof.
  unfold cancelConnection, cancelled, clearTimeout, hideLobby, emit. run.
  destruct w as [g m c mm d o n gr sc co tr ba bu ex pa dp rs ea wa ir rp ti nt
                 em pe ri cl].
  destruct m as [pc ch r ic ct cr cd]. cbn.
  destruct pc as [pc|], ch as [ch|]; run; cbn;
    rewrite ?app_nil_r; reflexivity.
Qed.

Lemma filter_idem {A} (P : A → Prop) `{!∀ x, Decision (P x)} (l : list A) :
  filter P (filter P l) = filter P l.
Proof.
  rewrite list_filter_filter. apply list_filter_iff. intros x. tauto.
Qed.

(** X14. [cancelConnection] always returns and releases the session:
    the peer connection (closed, if there was one) and the channel are
    dropped, the session is not connected, the timer of the connection
    timeout is no longer pending, the lobby is hidden, and the
    ['cancelled'] event brings the main menu back. From then on [send]
    returns [false] and writes nothing, and cancelling again changes
    nothing but to emit the event once more. *)
Theorem cancelConnection_releases (w : World) :
  let w' := exec (cancelConnection JSON_stringify) w in
  returns (cancelConnection JSON_stringify) w ∧
  peerConnection (webrtcManager w') = None ∧
  dataChannel (webrtcManager w') = None ∧
  isConnected (webrtcManager w') = false ∧
  pcs_closed (webrtcManager w') =
    pcs_closed (webrtcManager w) ++ option_list (peerConnection (webrtcManager w)) ∧
  Forall (λ t, Some (timer_id t) ≠ connectionTimeout (webrtcManager w))
    (timers w') ∧
  lobbyScreen (dom w') = false ∧ mainMenu (dom w') = true ∧
  gameState w' = gameState w ∧
  (∀ t d, send JSON_stringify t d w' = (Ret false, w')) ∧
  exec (cancelConnection JSON_stringify) w'
    = set_emitted (emitted w' ++ [EvCancelled]) w'.
Proof.
  intros w'. subst w'. unfold returns, exec.
  rewrite !cancelConnection_run. cbn [fst snd].
  split; [by eexists |].
  split_and!.
  - reflexivity.
  - reflexivity.
  - reflexivity.
  - reflexivity.
  - unfold cancelled. cbn. apply Forall_forall. intros t Ht.
    by apply list_elem_of_filter in Ht as [Hne _].
  - reflexivity.
  - reflexivity.
  - reflexivity.
  - intros t d. apply send_not_connected. by left.
  - destruct w as [g m c mm d o n gr sc co tr ba bu ex pa dp rs ea wa ir rp ti nt
                   em pe ri cl].
    destruct m as [pc ch r ic ct cr cd], d as [? ? ? ? ? ? ? ? ? ? ? ? ?].
    cbv -[filter app not]. rewrite app_nil_r.
    f_equal. apply filter_idem.
Qed.

(** ** The winner of the cutscene *)

Lemma playCutscene_fresh t1 t2 scores w :
  cs_isPlaying (cutsceneManager w) = false →
  ∃ w', playCutscene (Some t1) (Some t2) scores w = (Ret (), w') ∧
        gameState w' = gameState w ∧
        cutsceneManager w' = mkCutsceneManager true (Some scores).
Proof.
  intros Hp. unfold playCutscene. run. rewrite Hp. run.
  eexists. split; [reflexivity |]. split; [reflexivity |].
  cbn. by destruct (cutsceneManager w).
Qed.

Lemma checkWinCondition_fresh w :
  in_match w → cs_isPlaying (cutsceneManager w) = false →
  (∀ k, is_Some (tank (player k (gameState w)))) →
  ∃ w', checkWinCondition w = (Ret (), w') ∧
        cutsceneManager w' =
          if reached w
          then mkCutsceneManager true (Some (points P1 w, points P2 w))
          else cutsceneManager w.
Proof.
  intros (lp & rp & Hl & Hr & Hne) Hp Htanks.
  destruct (Htanks P1) as [t1 Ht1], (Htanks P2) as [t2 Ht2]. simpl in Ht1, Ht2.
  assert (Htrigger : ∃ w', triggerFinalCutscene w = (Ret (), w') ∧
            cutsceneManager w' =
              mkCutsceneManager true (Some (points P1 w, points P2 w))).
  { unfold triggerFinalCutscene. run.
    cbn [gameState upd_gameState set_gameState upd_dom set_dom
         set_isControlsLocked player1 player2 tank score].
    rewrite Ht1, Ht2.
    edestruct playCutscene_fresh as (w' & -> & _ & Hc); [|by exists w'].
    exact Hp. }
  unfold checkWinCondition. run. rewrite Hl. run.
  assert (Hreached : reached w =
    score_ge (score (player lp (gameState w))) (winThreshold (gameState w))
    || score_ge (score (player rp (gameState w))) (winThreshold (gameState w))).
  { unfold reached, points. destruct lp, rp; try done; simpl; apply orb_comm. }
  rewrite Hreached.
  destruct (score_ge (score (player lp _)) _); simpl; [exact Htrigger |].
  run. rewrite Hr. run.
  destruct (score_ge (score (player rp _)) _); simpl; [exact Htrigger |].
  by exists w.
Qed.

Lemma death_step_cutscene d s w :
  in_match w → survivor d w = Some s →
  (∀ k, is_Some (tank (player k (gameState w)))) →
  cs_isPlaying (cutsceneManager w) = false →
  let g' := upd_player s incr_score (gameState w) in
  cutsceneManager (exec (death_step d) w) =
    if decided g'
    then mkCutsceneManager true
           (Some (score (player1 g'), score (player2 g')))
    else cutsceneManager w.
Proof.
  intros Hin Hs Htanks Hplay g'. pose proof Hin as (lp & rp & Hl & Hr & Hne).
  assert (Hfresh : ∀ w3,
    gameState w3 = g' → cutsceneManager w3 = cutsceneManager w →
    ∃ w4, checkWinCondition w3 = (Ret (), w4) ∧
          cutsceneManager w4 =
            if decided g'
            then mkCutsceneManager true
                   (Some (score (player1 g'), score (player2 g')))
            else cutsceneManager w).
  { intros w3 Hg3 Hc3.
    destruct (checkWinCondition_fresh w3) as (w4 & Hrun & Hc4).
    - by apply (in_match_after_death s w).
    - by rewrite Hc3.
    - intros k. rewrite Hg3. subst g'. destruct (Htanks k) as [t Ht].
      exists t. by destruct s, k.
    - exists w4. split; [exact Hrun |].
      rewrite Hc4, <- decided_reached, Hg3, Hc3. unfold points. by rewrite Hg3. }
  unfold exec. destruct d; simpl in Hs.
  - assert (s = rp) as -> by congruence.
    unfold death_step, handleLocalDeath. run.
    edestruct notify_view as (w1 & -> & Hv1). run.
    rewrite Hr. run. unfold score_incr. run.
    edestruct updateScoreboard_view as (w2 & -> & Hv2). run.
    injection Hv1 as Hg1 Hc1. injection Hv2 as Hg2 Hc2.
    cbn [gameState cutsceneManager upd_gameState set_gameState] in Hg2, Hc2.
    rewrite Hg1 in Hg2. rewrite Hc1 in Hc2.
    change (λ p, set_score (S (score p)) p) with incr_score in Hg2.
    assert (Hl2 : localPlayer (gameState w2) = Some lp).
    { rewrite Hg2. by destruct (upd_player_refs rp incr_score (gameState w))
        as [-> _]. }
    rewrite Hl2. run.
    edestruct showWinMessage_view as (w3 & -> & Hv3). run.
    injection Hv3 as Hg3 Hc3. rewrite Hg2 in Hg3. rewrite Hc2 in Hc3.
    destruct (Hfresh w3 Hg3 Hc3) as (w4 & -> & Hc4).
    run. unfold setTimeout. run. exact Hc4.
  - assert (s = lp) as -> by congruence.
    unfold death_step, handleRemoteDeath. run.
    rewrite Hl. run. unfold score_incr. run.
    edestruct updateScoreboard_view as (w2 & -> & Hv2). run.
    injection Hv2 as Hg2 Hc2.
    cbn [gameState cutsceneManager upd_gameState set_gameState] in Hg2, Hc2.
    change (λ p, set_score (S (score p)) p) with incr_score in Hg2.
    assert (Hr2 : remotePlayer (gameState w2) = Some rp).
    { rewrite Hg2. by destruct (upd_player_refs lp incr_score (gameState w))
        as [_ ->]. }
    rewrite Hr2. run.
    edestruct showWinMessage_view as (w3 & -> & Hv3). run.
    injection Hv3 as Hg3 Hc3. rewrite Hg2 in Hg3. rewrite Hc2 in Hc3.
    destruct (Hfresh w3 Hg3 Hc3) as (w4 & -> & Hc4). exact Hc4.
Qed.

(** X15. The death event that first takes a score to [winThreshold]
    starts the cutscene with the scores of that moment, and these name
    the winner without a tie: the threshold is finite and equal to the
    survivor's score, the other score is smaller, and the winner that
    [runCutsceneSequence] reads off the final scores is the survivor. *)
Theorem cutscene_names_the_winner (d : Death) (s : PlayerKey) (w : World) :
  in_match w → survivor d w = Some s →
  (∀ k, is_Some (tank (player k (gameState w)))) →
  cs_isPlaying (cutsceneManager w) = false → reached w = false →
  let w' := exec (death_step d) w in
  reached w' = true →
  cutsceneManager w' =
    mkCutsceneManager true (Some (points P1 w', points P2 w')) ∧
  cutscene_winner (points P1 w', points P2 w') = s ∧
  winThreshold (gameState w') = Finite (points s w') ∧
  ∀ k, k ≠ s → points k w' < points s w'.
Proof.
  intros Hin Hs Htanks Hplay Hnot w' Hreached.
  destruct (death_step_view d s w Hin Hs) as (w1 & Hrun & Hg & _).
  assert (Hw' : w' = w1) by (subst w'; unfold exec; by rewrite Hrun).
  pose proof (death_step_cutscene d s w Hin Hs Htanks Hplay) as Hc.
  cbv zeta in Hc. fold w' in Hc.
  assert (Hdecided : decided (upd_player s incr_score (gameState w)) = true).
  { rewrite <- after_death_decided, <- Hg, decided_reached, <- Hw'.
    exact Hreached. }
  rewrite Hdecided in Hc.
  assert (Hscores : ∀ k, points k w' =
            if decide (k = s) then S (points k w) else points k w).
  { intros k. unfold points. rewrite Hw', Hg. apply after_death_score. }
  assert (Hthreshold : winThreshold (gameState w') = winThreshold (gameState w)).
  { rewrite Hw', Hg. apply after_death_winThreshold. }
  assert (Hupd : ∀ k, score (player k (upd_player s incr_score (gameState w)))
                      = points k w').
  { intros k. rewrite Hscores. unfold points, incr_score.
    destruct s, k; reflexivity. }
  unfold reached in Hnot, Hreached. rewrite Hthreshold in Hreached.
  rewrite !Hscores in Hreached.
  destruct (winThreshold (gameState w)) as [n|] eqn:Hn; [|done].
  simpl in Hnot, Hreached.
  apply orb_false_elim in Hnot as [H1 H2].
  apply Nat.leb_gt in H1, H2. apply orb_prop in Hreached.
  rewrite !Nat.leb_le in Hreached.
  split; [rewrite Hc; f_equal; f_equal; f_equal; apply (Hupd P1) || apply (Hupd P2) |].
  rewrite Hthreshold, !Hscores. unfold cutscene_winner. simpl.
  assert (Hothers : ∀ k, k ≠ s → points k w' = points k w).
  { intros k Hk. rewrite Hscores. by rewrite decide_False. }
  unfold points in *. destruct s; simpl in *.
  - split_and!.
    + rewrite (proj2 (Nat.ltb_lt _ _)); [done | lia].
    + f_equal. lia.
    + intros [] Hk; [done |]. rewrite Hothers by done. simpl. lia.
  - split_and!.
    + rewrite (proj2 (Nat.ltb_ge _ _)); [done | lia].
    + f_equal. lia.
    + intros [] Hk; [|done]. rewrite Hothers by done. simpl. lia.
Qed.

(** ** Trees destroyed by a local explosion *)

(** The collidable [c] is a tree within reach of an explosion at
    [position]. *)
Definition in_blast (position : Vec3) (w : World) (c : nat) : bool :=
  bool_decide (userData_type (objects w c) = "tree")
  && (Vec3_distanceTo position (obj_position (objects w c))
        <? explosionBlastRadius + 5)%float.

Lemma add_particles_placed n : stable (same placed) (add_particles n).
Proof.
  induction n as [|n IH]; simpl; unfold fresh_oid, scene_add;
    stable_with ltac:(by unfold same).
Qed.

Lemma add_particles_returns n w : ∃ w', add_particles n w = (Ret (), w').
Proof.
  revert w. induction n as [|n IH]; intros w; [by eexists |].
  cbn [add_particles]. unfold fresh_oid, scene_add. run. apply IH.
Qed.

Lemma spawnWoodParticles_run position w :
  ∃ w', spawnWoodParticles position w = (Ret (), w') ∧ placed w' = placed w ∧
        gameState w' = gameState w.
Proof.
  unfold spawnWoodParticles. run.
  destruct (negb (woodAssets w)); run; [by eexists |].
  set (w1 := set_randInts _ w).
  destruct (add_particles_returns (hd 10 (randInts w)) w1) as [w' Hrun].
  exists w'. split; [exact Hrun |].
  pose proof (add_particles_placed (hd 10 (randInts w)) w1) as Hp.
  unfold exec in Hp. rewrite Hrun in Hp. split; [exact Hp |].
  assert (Hs : stable (same gameState) (add_particles (hd 10 (randInts w)))).
  { generalize (hd 10 (randInts w)). intros n.
    induction n as [|n IH]; simpl; unfold fresh_oid, scene_add;
      stable_with ltac:(by unfold same). }
  specialize (Hs w1). unfold exec in Hs. by rewrite Hrun in Hs.
Qed.

(** One round of the loop over [collidables]. *)
Lemma checkTreeDamage_run position i c w :
  collidables w !! i = Some c →
  ∃ w', checkTreeDamage JSON_stringify position i w = (Ret (), w') ∧
        objects w' = objects w ∧
        collidables w' =
          (if in_blast position w c then delete i (collidables w)
           else collidables w) ∧
        trees w' =
          (if in_blast position w c then remove_first c (trees w)
           else trees w).
Proof.
  intros Hc. unfold checkTreeDamage, in_blast. run. rewrite Hc. run.
  destruct (decide (userData_type (objects w c) = "tree")) as [Htype|Htype].
  2: { rewrite bool_decide_eq_false_2 by done. by exists w. }
  rewrite bool_decide_eq_true_2 by done. cbn [andb].
  destruct (_ <? _)%float; [|by exists w].
  rewrite bind_run.
  destruct (spawnWoodParticles_run (obj_position (objects w c)) w)
    as (w1 & -> & Hp1 & Hg1).
  unfold placed in Hp1. injection Hp1 as Hobj Hcol Htrees _.
  unfold scene_remove. run.
  cbn [collidables trees set_scene set_collidables set_trees objects].
  rewrite Hcol, Htrees.
  assert (Hnotify : ∀ (b : bool) (w2 : World), ∃ w3,
    (if b
     then _ ← send JSON_stringify MSG_TYPES.TREE_DESTROYED
                (TreeDestroyedData (userData_id (objects w c))); mret ()
     else mret ()) w2 = (Ret (), w3) ∧ placed w3 = placed w2).
  { intros b w2. destruct b; [|by exists w2].
    destruct (send_cases MSG_TYPES.TREE_DESTROYED
                (TreeDestroyedData (userData_id (objects w c))) w2)
      as [Hs|[ch Hs]]; run; rewrite Hs; run; by eexists. }
  rewrite (remove_first_indexOf c (trees w)).
  destruct (indexOf c (trees w)) as [treeIdx|]; run;
    match goal with
    | |- context [(if ?b then _ else _) ?w2] =>
        destruct (Hnotify b w2) as (w3 & Hrun3 & Hp3); exists w3;
        unfold placed in Hp3; injection Hp3 as Hobj3 Hcol3 Htrees3 _;
        split; [exact Hrun3 |]; rewrite Hobj3, Hcol3, Htrees3; by cbn
    end.
Qed.

Lemma filter_all {A} (P : A → Prop) `{!∀ x, Decision (P x)} (l : list A) :
  Forall P l → filter P l = l.
Proof.
  induction 1 as [|x l Hx _ IH]; [reflexivity |].
  by rewrite filter_cons_True, IH.
Qed.

Lemma remove_first_filter (x : nat) (l : list nat) :
  NoDup l → remove_first x l = filter (λ y, y ≠ x) l.
Proof.
  induction l as [|y l IH]; intros Hnd; [reflexivity |].
  apply NoDup_cons in Hnd as [Hy Hnd]. simpl.
  destruct (decide (x = y)) as [->|Hne].
  - rewrite filter_cons_False by (intros H; by apply H).
    symmetry. apply filter_all, Forall_forall. by intros z Hz ->.
  - rewrite filter_cons_True by congruence. f_equal. by apply IH.
Qed.

Lemma remove_first_NoDup (x : nat) (l : list nat) :
  NoDup l → NoDup (remove_first x l).
Proof. intros Hnd. rewrite remove_first_filter by done. by apply NoDup_filter. Qed.

Lemma in_blast_objects position w w' c :
  objects w' = objects w → in_blast position w' c = in_blast position w c.
Proof. unfold in_blast. by intros ->. Qed.

(** The loop of [checkExplosionDamage] over the collidables, from index
    [n - 1] down. *)
Lemma checkTreeDamage_loop position n : ∀ w,
  n ≤ length (collidables w) → NoDup (trees w) →
  ∃ w', for_down n (checkTreeDamage JSON_stringify position) w = (Ret (), w') ∧
        objects w' = objects w ∧
        collidables w' =
          filter (λ c, ¬ in_blast position w c) (take n (collidables w))
          ++ drop n (collidables w) ∧
        trees w' =
          filter (λ t, ¬ (in_blast position w t ∧ t ∈ take n (collidables w)))
            (trees w).
Proof.
  induction n as [|n IH]; intros w Hn Hnd.
  { exists w. split_and!; [reflexivity..|].
    symmetry. apply filter_all, Forall_forall. intros t _ [_ Hin].
    by apply elem_of_nil in Hin. }
  destruct (lookup_lt_is_Some_2 (collidables w) n) as [c Hc]; [lia |].
  cbn [for_down]. rewrite bind_run.
  destruct (checkTreeDamage_run position n c w Hc)
    as (w1 & -> & Hobj & Hcol & Htrees).
  assert (Htake : take n (collidables w1) = take n (collidables w)).
  { rewrite Hcol. destruct (in_blast position w c); [|done].
    rewrite delete_take_drop, take_app_le by (rewrite length_take; lia).
    rewrite take_take. f_equal. lia. }
  destruct (IH w1) as (w' & Hrun & Hobj' & Hcol' & Htrees').
  { rewrite Hcol. destruct (in_blast position w c); [|lia].
    rewrite length_delete by (by eexists). lia. }
  { rewrite Htrees. destruct (in_blast position w c); [|done].
    by apply remove_first_NoDup. }
  exists w'. split; [exact Hrun |]. split; [congruence |].
  rewrite Htake in Hcol', Htrees'.
  rewrite (take_S_r _ _ c Hc), filter_app.
  split.
  - rewrite Hcol'.
    rewrite (list_filter_iff (λ c0, ¬ in_blast position w1 c0)
               (λ c0, ¬ in_blast position w c0))
      by (intros c0; by rewrite (in_blast_objects position w w1 c0 Hobj)).
    rewrite Hcol. destruct (in_blast position w c) eqn:Hblast.
    + rewrite filter_cons_False by (rewrite Hblast; intros H; by apply H).
      rewrite filter_nil, app_nil_r. f_equal.
      rewrite delete_take_drop, drop_app_length'; [done |].
      rewrite length_take. lia.
    + rewrite filter_cons_True by (rewrite Hblast; intros H; by apply H).
      rewrite filter_nil, <- app_assoc. f_equal.
      by rewrite (drop_S _ c n Hc).
  - rewrite Htrees', Htrees.
    destruct (in_blast position w c) eqn:Hblast.
    + rewrite remove_first_filter by done. rewrite list_filter_filter.
      apply list_filter_iff. intros t.
      rewrite (in_blast_objects position w w1 t Hobj).
      rewrite elem_of_app, list_elem_of_singleton. split.
      * intros [Hold Hne] [Hb [Hin| ->]]; [by apply Hold | done].
      * intros Hnew. split; [intros [Hb Hin]; apply Hnew; by auto |].
        intros ->. apply Hnew. rewrite Hblast. by auto.
    + apply list_filter_iff. intros t.
      rewrite (in_blast_objects position w w1 t Hobj).
      rewrite elem_of_app, list_elem_of_singleton. split.
      * intros Hold [Hb [Hin| ->]]; [by apply Hold |].
        rewrite Hblast in Hb. done.
      * intros Hnew [Hb Hin]. apply Hnew. by auto.
Qed.

Lemma checkTreeDamage_barriers position i :
  stable (same barriers) (checkTreeDamage JSON_stringify position i).
Proof.
  pose proof send_placed as Hsend. pose proof add_particles_placed as Hadd.
  assert (Hs : ∀ t d, stable (same barriers) (send JSON_stringify t d)).
  { intros t d. eapply stable_weaken; [|apply Hsend].
    unfold same, placed. by intros w1 w2 [= _ _ _ ->]. }
  assert (Ha : ∀ n, stable (same barriers) (add_particles n)).
  { intros n. eapply stable_weaken; [|apply Hadd].
    unfold same, placed. by intros w1 w2 [= _ _ _ ->]. }
  unfold checkTreeDamage, spawnWoodParticles, scene_remove.
  stable_with ltac:(by unfold same).
Qed.

Lemma checkTreeDamage_loop_barriers position n w w' :
  for_down n (checkTreeDamage JSON_stringify position) w = (Ret (), w') →
  barriers w' = barriers w.
Proof.
  intros Hrun.
  pose proof (stable_for_down (same barriers) n
                (checkTreeDamage JSON_stringify position)
                (checkTreeDamage_barriers position) w) as Hs.
  unfold same, exec in Hs. by rewrite Hrun in Hs.
Qed.

(** What the damage to the tanks leaves alone: the decoration objects
    and the two player references. *)
Definition beside_tanks (w : World) :=
  (placed w, localPlayer (gameState w), remotePlayer (gameState w)).

Ltac beside_tanks_field :=
  unfold same, beside_tanks, placed;
  first [ reflexivity
        | by repeat match goal with k : PlayerKey |- _ => destruct k end ].

Lemma send_beside_tanks t d :
  stable (same beside_tanks) (send JSON_stringify t d).
Proof. unfold send, dataChannel_send. stable_with beside_tanks_field. Qed.

Lemma handleLocalDeath_beside_tanks :
  stable (same beside_tanks) (handleLocalDeath JSON_stringify).
Proof.
  pose proof send_beside_tanks.
  unfold handleLocalDeath, checkWinCondition, triggerFinalCutscene,
    playCutscene, showWinMessage, updateScoreboard, score_incr, setTimeout.
  stable_with beside_tanks_field.
Qed.

Lemma damage_own_beside_tanks k damage :
  stable (same beside_tanks) (damage_own JSON_stringify k damage).
Proof.
  unfold damage_own, apply_damage, updateHealthBar.
  stable_with beside_tanks_field.
  apply handleLocalDeath_beside_tanks.
Qed.

Lemma checkTankDamage_beside_tanks position k r target :
  stable (same beside_tanks)
    (checkTankDamage JSON_stringify position k r target).
Proof.
  pose proof send_beside_tanks. pose proof damage_own_beside_tanks.
  unfold checkTankDamage.
  stable_with beside_tanks_field.
Qed.

Lemma in_match_beside_tanks w w' :
  beside_tanks w' = beside_tanks w → in_match w → in_match w'.
Proof.
  intros Heq (lp & rp & Hlp & Hrp & Hne).
  assert (Hl : localPlayer (gameState w') = localPlayer (gameState w))
    by exact (f_equal (λ x, x.1.2) Heq).
  assert (Hr : remotePlayer (gameState w') = remotePlayer (gameState w))
    by exact (f_equal (λ x, x.2) Heq).
  exists lp, rp. by rewrite Hl, Hr.
Qed.

Lemma handleLocalDeath_returns w :
  in_match w → ∃ w', handleLocalDeath JSON_stringify w = (Ret (), w').
Proof.
  intros Hin. destruct (survivor_in_match LocalDeath w Hin) as [s Hs].
  destruct (death_step_view LocalDeath s w Hin Hs) as (w' & Hrun & _).
  by exists w'.
Qed.

Lemma checkTankDamage_returns position k r target w :
  in_match w →
  ∃ w', checkTankDamage JSON_stringify position k r target w = (Ret (), w').
Proof.
  intros Hin. unfold checkTankDamage. run.
  destruct (tank (player k (gameState w))) as [t|]; [|by eexists].
  destruct (_ <? _)%float; [|by eexists].
  destruct (decide (role (gameState w) = Some r)) as [Hrole|Hrole].
  - assert (Hready : health_bar_ready w).
    { destruct Hin as (lp & _ & Hlp & _). right. by exists lp. }
    destruct (damage_own_run k
                (explosion_damage (Vec3_distanceTo position (tank_position t)))
                w Hready) as [-> _].
    destruct (_ <=? _)%float; [|by eexists].
    apply handleLocalDeath_returns.
    destruct (updateHealthBar_ready
                (health_updated k
                   (explosion_damage
                      (Vec3_distanceTo position (tank_position t))) w))
      as (w2 & Hrun & Hg); [by apply health_bar_ready_health_updated |].
    unfold exec. rewrite Hrun. cbn [snd].
    destruct Hin as (lp & rp & Hlp & Hrp & Hne). exists lp, rp.
    rewrite Hg. unfold health_updated.
    cbn [gameState upd_gameState set_gameState].
    by destruct k.
  - destruct (_ && _); [|by eexists].
    destruct (send_cases MSG_TYPES.DAMAGE
                (DamageData
                   (explosion_damage
                      (Vec3_distanceTo position (tank_position t))) target) w)
      as [Hs|[ch Hs]]; run; rewrite Hs; run; by eexists.
Qed.

(** X16. In a started match [checkExplosionDamage] returns, and its loop
    over the collidables removes every tree within
    [explosionBlastRadius + 5] of the explosion from [collidables] and,
    the trees being distinct objects, from [trees] as well; every other
    collidable and every other tree stays, in order, and no object is
    changed. (A tree that is in [trees] but no longer among the
    collidables is not reached by the loop and stays.) *)
Theorem local_explosion_clears_trees (position : Vec3) (w : World) :
  in_match w → NoDup (trees w) →
  let w' := exec (checkExplosionDamage JSON_stringify position) w in
  returns (checkExplosionDamage JSON_stringify position) w ∧
  objects w' = objects w ∧
  collidables w' = filter (λ c, ¬ in_blast position w c) (collidables w) ∧
  trees w' =
    filter (λ t, ¬ (in_blast position w t ∧ t ∈ collidables w)) (trees w) ∧
  barriers w' = barriers w.
Proof.
  intros Hin Hnd w'.
  destruct (checkTankDamage_returns position P1 HOST "player1" w Hin)
    as (w1 & Hrun1).
  pose proof (checkTankDamage_beside_tanks position P1 HOST "player1" w) as H1.
  unfold same, exec in H1. rewrite Hrun1 in H1. cbn [snd] in H1.
  pose proof (in_match_beside_tanks w w1 H1 Hin) as Hin1.
  destruct (checkTankDamage_returns position P2 CLIENT "player2" w1 Hin1)
    as (w2 & Hrun2).
  pose proof (checkTankDamage_beside_tanks position P2 CLIENT "player2" w1) as H2.
  unfold same, exec in H2. rewrite Hrun2 in H2. cbn [snd] in H2.
  assert (Hplaced : placed w2 = placed w).
  { transitivity (placed w1).
    - exact (f_equal (λ x, x.1.1) H2).
    - exact (f_equal (λ x, x.1.1) H1). }
  unfold placed in Hplaced. injection Hplaced as Hobj Hcol Htrees Hbar.
  destruct (checkTreeDamage_loop position (length (collidables w2)) w2)
    as (w3 & Hrun3 & Hobj3 & Hcol3 & Htrees3); [lia | by rewrite Htrees |].
  assert (Hrun : checkExplosionDamage JSON_stringify position w = (Ret (), w3)).
  { unfold checkExplosionDamage. rewrite bind_run, Hrun1, bind_run, Hrun2.
    run. exact Hrun3. }
  subst w'. unfold returns, exec. rewrite Hrun. cbn [fst snd].
  split; [by eexists |].
  rewrite firstn_all, drop_all, app_nil_r in Hcol3.
  rewrite firstn_all in Htrees3.
  split_and!.
  - congruence.
  - rewrite Hcol3, Hcol. apply list_filter_iff. intros c.
    by rewrite (in_blast_objects position w w2 c Hobj).
  - rewrite Htrees3, Htrees, Hcol. apply list_filter_iff. intros t.
    by rewrite (in_blast_objects position w w2 t Hobj).
  - rewrite <- Hbar.
    by apply (checkTreeDamage_loop_barriers position
                (length (collidables w2)) w2).
Qed.

(** ** Messages that arrive before the match is started *)

(** X17. On a peer whose match has not been started ([remotePlayer] and
    [localPlayer] are still null, as on the initiator throughout), a
    [player_update] and a [death] message throw a [TypeError] and change
    nothing: no snapshot is recorded and no score is counted. *)
Theorem messages_before_start_throw (message : Envelope) (w : World) :
  localPlayer (gameState w) = None → remotePlayer (gameState w) = None →
  type message = MSG_TYPES.PLAYER_UPDATE ∨ type message = MSG_TYPES.DEATH →
  handleNetworkMessage JSON_stringify message w = (Throw TypeError, w).
Proof.
  intros Hl Hr [Ht|Ht]; unfold handleNetworkMessage; rewrite Ht; cbv zeta;
    rewrite decide_False by done; rewrite decide_False by done.
  - rewrite decide_True by done. unfold updateRemotePlayer. run.
    rewrite Hr. reflexivity.
  - rewrite decide_False by done. rewrite decide_False by done.
    rewrite decide_False by done. rewrite decide_True by done.
    unfold handleRemoteDeath. run. rewrite Hl. reflexivity.
Qed.

(** ** An answer without a connection *)

(** X18. An answer submitted while the session holds no peer connection
    is rejected whatever it contains: when the pasted text parses,
    reading [this.peerConnection.setRemoteDescription] throws, the
    handler catches it and reports the answer as invalid, and nothing is
    left pending. *)
Theorem answer_without_connection_rejected (w : World) (answer : JSON) :
  trim (answerInput (dom w)) ≠ "" →
  JSON_parse (trim (answerInput (dom w))) = Some answer →
  peerConnection (webrtcManager w) = None →
  handleAnswerSubmit JSON_parse trim w =
    (Ret (),
     upd_dom (set_lobbyStatus
                "Invalid Answer JSON. Please check and try again.") w).
Proof.
  intros Htext Hparse Hpc. unfold handleAnswerSubmit. run.
  rewrite decide_False by done. run. unfold try_catch, updateStatus. run.
  cbn [dom upd_dom set_dom]. rewrite Hparse. run.
  cbn [webrtcManager upd_dom set_dom]. rewrite Hpc. run.
  reflexivity.
Qed.

(** ** A frame of the bullets *)

(** The bullets in flight and the two player references. *)
Definition flight (w : World) :=
  (bullets w, localPlayer (gameState w), remotePlayer (gameState w)).

Ltac flight_field :=
  unfold same, flight;
  first [ reflexivity
        | by repeat match goal with k : PlayerKey |- _ => destruct k end ].

Lemma send_flight t d : stable (same flight) (send JSON_stringify t d).
Proof. unfold send, dataChannel_send. stable_with flight_field. Qed.

Lemma add_particles_flight n : stable (same flight) (add_particles n).
Proof.
  induction n as [|n IH]; simpl; unfold fresh_oid, scene_add;
    stable_with flight_field.
Qed.

Lemma handleLocalDeath_flight :
  stable (same flight) (handleLocalDeath JSON_stringify).
Proof.
  pose proof send_flight.
  unfold handleLocalDeath, checkWinCondition, triggerFinalCutscene,
    playCutscene, showWinMessage, updateScoreboard, score_incr, setTimeout.
  stable_with flight_field.
Qed.

Lemma damage_own_flight k damage :
  stable (same flight) (damage_own JSON_stringify k damage).
Proof.
  unfold damage_own, apply_damage, updateHealthBar.
  stable_with flight_field.
  apply handleLocalDeath_flight.
Qed.

Lemma checkTreeDamage_flight position i :
  stable (same flight) (checkTreeDamage JSON_stringify position i).
Proof.
  pose proof send_flight. pose proof add_particles_flight.
  unfold checkTreeDamage, spawnWoodParticles, scene_remove.
  stable_with flight_field.
Qed.

Lemma createExplosion_flight position isLocal :
  stable (same flight) (createExplosion JSON_stringify position isLocal).
Proof.
  pose proof send_flight. pose proof damage_own_flight.
  pose proof checkTreeDamage_flight.
  unfold createExplosion, checkExplosionDamage, checkTankDamage, fresh_oid,
    scene_add.
  stable_with flight_field.
Qed.

Lemma in_match_flight w w' : flight w' = flight w → in_match w → in_match w'.
Proof.
  intros Heq (lp & rp & Hlp & Hrp & Hne).
  assert (Hl : localPlayer (gameState w') = localPlayer (gameState w))
    by exact (f_equal (λ x, x.1.2) Heq).
  assert (Hr : remotePlayer (gameState w') = remotePlayer (gameState w))
    by exact (f_equal (λ x, x.2) Heq).
  exists lp, rp. by rewrite Hl, Hr.
Qed.

(** In a started match whose trees are distinct objects,
    [checkExplosionDamage] returns, and the trees left are distinct. *)
Lemma checkExplosionDamage_returns position w :
  in_match w → NoDup (trees w) →
  ∃ w', checkExplosionDamage JSON_stringify position w = (Ret (), w') ∧
        NoDup (trees w').
Proof.
  intros Hin Hnd.
  destruct (checkTankDamage_returns position P1 HOST "player1" w Hin)
    as (w1 & Hrun1).
  pose proof (checkTankDamage_beside_tanks position P1 HOST "player1" w) as H1.
  unfold same, exec in H1. rewrite Hrun1 in H1. cbn [snd] in H1.
  pose proof (in_match_beside_tanks w w1 H1 Hin) as Hin1.
  destruct (checkTankDamage_returns position P2 CLIENT "player2" w1 Hin1)
    as (w2 & Hrun2).
  pose proof (checkTankDamage_beside_tanks position P2 CLIENT "player2" w1) as H2.
  unfold same, exec in H2. rewrite Hrun2 in H2. cbn [snd] in H2.
  assert (Hplaced : placed w2 = placed w).
  { transitivity (placed w1).
    - exact (f_equal (λ x, x.1.1) H2).
    - exact (f_equal (λ x, x.1.1) H1). }
  unfold placed in Hplaced. injection Hplaced as Hobj Hcol Htrees Hbar.
  destruct (checkTreeDamage_loop position (length (collidables w2)) w2)
    as (w3 & Hrun3 & Hobj3 & Hcol3 & Htrees3); [lia | by rewrite Htrees |].
  exists w3. split.
  - unfold checkExplosionDamage. rewrite bind_run, Hrun1, bind_run, Hrun2.
    run. exact Hrun3.
  - rewrite Htrees3, Htrees. by apply NoDup_filter.
Qed.

(** The state in which a frame can run: the match is started and the
    trees are distinct objects. *)
Definition in_play (w : World) : Prop := in_match w ∧ NoDup (trees w).

Lemma createExplosion_play position isLocal w :
  in_play w →
  ∃ w', createExplosion JSON_stringify position isLocal w = (Ret (), w') ∧
        bullets w' = bullets w ∧ in_play w'.
Proof.
  intros [Hin Hnd].
  assert (∃ w', createExplosion JSON_stringify position isLocal w = (Ret (), w')
                ∧ NoDup (trees w')) as (w' & Hrun & Hnd').
  { unfold createExplosion, fresh_oid, scene_add. run.
    destruct (explosionAssets w); cbn [negb]; [|by exists w].
    run. destruct isLocal; [|by eexists].
    by apply checkExplosionDamage_returns. }
  exists w'. split; [exact Hrun|].
  pose proof (createExplosion_flight position isLocal w) as Hflight.
  unfold same, exec in Hflight. rewrite Hrun in Hflight. cbn [snd] in Hflight.
  split; [exact (f_equal (λ x, x.1.1) Hflight)|].
  split; [by apply (in_match_flight w) | done].
Qed.

Lemma delete_insert_same {A} (l : list A) i x :
  delete i (<[i := x]> l) = delete i l.
Proof.
  rewrite !delete_take_drop.
  by rewrite take_insert_ge, drop_insert_lt by lia.
Qed.

(** A bullet that may stay in flight. *)
Definition young (b : Bullet) : Prop := (5 <? bullet_age b)%float = false.

(** The step of [updateBullets] for the bullet at index [i]: the bullet
    is removed, or it stays at its index, moved and aged but young. *)
Lemma updateBullet_play delta i bullet w :
  in_play w → bullets w !! i = Some bullet →
  ∃ w', updateBullet JSON_stringify intersectObjects delta i bullet w
          = (Ret (), w') ∧
        in_play w' ∧
        (bullets w' = delete i (bullets w) ∨
         ∃ b', bullets w' = <[i := b']> (bullets w) ∧
               bullet_oid b' = bullet_oid bullet ∧ young b').
Proof.
  intros Hplay Hi. unfold updateBullet. run.
  set (moved := mkBullet _ _ _ (bullet_age bullet) _ _).
  set (w1 := set_bullets _ w).
  destruct (if (0 <? _)%float then _ else None) as [point|].
  - rewrite bind_run.
    destruct (createExplosion_play point (isLocal bullet) w1 Hplay)
      as (w2 & -> & Hbullets & Hplay2).
    unfold removeBullet, scene_remove. run. eexists. split; [reflexivity|].
    split; [exact Hplay2|]. left.
    cbn [bullets set_bullets set_scene]. rewrite Hbullets.
    subst w1. cbn [bullets set_bullets]. apply delete_insert_same.
  - run. set (aged := mkBullet _ _ _ (bullet_age bullet + delta)%float _ _).
    destruct (5 <? bullet_age aged)%float eqn:Hage.
    + unfold removeBullet, scene_remove. run. eexists.
      split; [reflexivity|]. split; [exact Hplay|]. left.
      subst w1. cbn [bullets set_bullets set_scene].
      by rewrite list_insert_insert_eq, delete_insert_same.
    + run. eexists. split; [reflexivity|]. split; [exact Hplay|]. right.
      exists aged. subst w1. cbn [bullets set_bullets].
      by rewrite list_insert_insert_eq.
Qed.

(** The body of the loop of [updateBullets]. *)
Definition bullet_step (delta : float) (i : nat) : M unit :=
  w ← get;
  bullet ← deref (bullets w !! i);
  updateBullet JSON_stringify intersectObjects delta i bullet.

Lemma bullet_step_run delta i bullet w :
  bullets w !! i = Some bullet →
  bullet_step delta i w =
    updateBullet JSON_stringify intersectObjects delta i bullet w.
Proof. intros Hb. unfold bullet_step. run. rewrite Hb. by run. Qed.

(** The loop of [updateBullets] from index [n - 1] down: the bullets
    below [n] that stay are young and keep their order, those from [n]
    on are not touched. *)
Lemma updateBullets_play delta n : ∀ w,
  in_play w → n ≤ length (bullets w) →
  ∃ w' kept,
    for_down n (bullet_step delta) w = (Ret (), w') ∧
    in_play w' ∧
    bullets w' = kept ++ drop n (bullets w) ∧
    Forall young kept ∧
    bullet_oid <$> kept `sublist_of` bullet_oid <$> take n (bullets w).
Proof.
  induction n as [|n IH]; intros w Hplay Hn.
  { exists w, []. split_and!; [done.. | constructor | constructor]. }
  destruct (lookup_lt_is_Some_2 (bullets w) n) as [bullet Hb]; [lia|].
  cbn [for_down]. rewrite bind_run, (bullet_step_run delta n bullet w Hb).
  destruct (updateBullet_play delta n bullet w Hplay Hb)
    as (w1 & -> & Hplay1 & Hcases).
  assert (take n (bullets w1) = take n (bullets w)) as Htake.
  { destruct Hcases as [->|(b' & -> & _)].
    - rewrite delete_take_drop, take_app_le by (rewrite length_take; lia).
      rewrite take_take. f_equal. lia.
    - by rewrite take_insert_ge. }
  destruct (IH w1 Hplay1) as (w' & kept & -> & Hplay' & Hbullets & Hyoung & Hsub).
  { destruct Hcases as [->|(b' & -> & _)].
    - rewrite length_delete by (by eexists). lia.
    - rewrite length_insert. lia. }
  rewrite Htake in Hsub. rewrite (take_S_r _ _ _ Hb), fmap_app.
  destruct Hcases as [Hdel|(b' & Hins & Hoid & Hb')].
  - exists w', kept. split_and!; [done..| |done|by apply sublist_inserts_r].
    rewrite Hbullets, Hdel, delete_take_drop.
    rewrite drop_app_length'; [done|]. rewrite length_take. lia.
  - exists w', (kept ++ [b']). split_and!; [done..| | |].
    + rewrite Hbullets, Hins, <- app_assoc. f_equal.
      rewrite drop_insert_ge by lia. rewrite Nat.sub_diag.
      by rewrite (drop_S _ bullet n Hb).
    + apply Forall_app. split; [done|]. by repeat constructor.
    + rewrite fmap_app. apply sublist_app; [done|]. cbn. by rewrite Hoid.
Qed.

(** X26. A frame of [updateBullets] in a started match returns, adds no
    bullet (those left are bullets from before, in their order), and
    leaves no bullet in flight that is older than five seconds; the
    match stays started, so that the next frame can run. *)
Theorem bullets_expire (delta : float) (w : World) :
  in_match w → NoDup (trees w) →
  let w' := exec (updateBullets JSON_stringify intersectObjects delta) w in
  returns (updateBullets JSON_stringify intersectObjects delta) w ∧
  Forall (λ b, (5 <? bullet_age b)%float = false) (bullets w') ∧
  bullet_oid <$> bullets w' `sublist_of` bullet_oid <$> bullets w ∧
  in_match w' ∧ NoDup (trees w').
Proof.
  intros Hin Hnd.
  destruct (updateBullets_play delta (length (bullets w)) w)
    as (w' & kept & Hrun & [Hin' Hnd'] & Hbullets & Hyoung & Hsub);
    [by split | done |].
  rewrite drop_all, app_nil_r in Hbullets. rewrite firstn_all in Hsub.
  assert (updateBullets JSON_stringify intersectObjects delta w = (Ret (), w'))
    as Hframe by (unfold updateBullets; rewrite bind_run; exact Hrun).
  cbv zeta. unfold returns, exec. rewrite Hframe. cbn [fst snd].
  rewrite Hbullets. split_and!; [by eexists | done..].
Qed.

End Properties.

(** * Worked scenarios *)

(** A platform for the scenarios: a frame is named after the type of its
    message, the text ["not-json"] does not parse, no input carries
    white space to trim, and every ray cast for a moving bullet hits at
    the responder's own tank. *)
Definition sample_stringify (e : Envelope) : string := default "" (type e).
Definition sample_parse (text : string) : option JSON :=
  if decide (text = "not-json") then None else Some (JString text).
Definition sample_trim (text : string) : string := text.
Definition sample_intersect (objs : nat → Obj) (origin direction : Vec3)
    (far : float) (targets : list nat) : option Vec3 :=
  Some (mkVec3 50 30 0).

(** The responder's page once it has loaded: its own random draws have
    put three trees on the map, the first at (10, 0, 5). *)
Definition responder_loaded : World :=
  exec (loadAssets ;; explosionSound_onload ;;
        generateMap [] [mkDraw 10 5 0 0 1; mkDraw 60 (-30) 0 0 1;
                        mkDraw (-80) 90 0 0 1] [])
       (initialWorld fullPage (mkMenuManager "bob" "blue")).

(** The responder has chosen to join, has received the initiator's
    channel, and the channel has opened. *)
Definition responder_connected : World :=
  exec (on_join ;;
        peerConnection_ondatachannel (mkDataChannel connecting []) ;;
        channel_opens sample_stringify)
       responder_loaded.

(** The initiator's [game_start]: best of three, and a map whose only tree
    stands at (-40, 0, 20). *)
Definition host_map : MapData :=
  mkMapData (Some []) (Some [mkTreePlacement "tree_0" (-40) 0 20 0 1]) (Some []).
Definition game_start_message : Envelope :=
  mkEnvelope MSG_TYPES.GAME_START (GameStartData (Some "bo3") (Some host_map)) 1000.

(** The responder in the match. *)
Definition responder_playing : World :=
  exec (handleNetworkMessage sample_stringify game_start_message)
       responder_connected.

(** The channel of the responder closes during the match. *)
Definition responder_dropped : World :=
  exec (channel_closes sample_stringify) responder_playing.

(** The initiator's page once it has loaded: its random draws have put
    one tree on the map, at (-40, 0, 20). *)
Definition initiator_loaded : World :=
  exec (loadAssets ;; explosionSound_onload ;;
        generateMap [] [mkDraw (-40) 20 0 0 1] [])
       (initialWorld fullPage (mkMenuManager "alice" "red")).

(** The initiator has chosen to host a best of three, and then its channel
    has opened; nothing on this side calls [startGame]. *)
Definition initiator_hosting : World :=
  exec (on_host (Some "bo3")) initiator_loaded.
Definition initiator_connected : World :=
  exec (channel_opens sample_stringify) initiator_hosting.

(** The initiator has pasted text that is not a description. *)
Definition initiator_pasted : World :=
  exec (paste_answer "not-json") initiator_hosting.

Definition player_update_message : Envelope :=
  mkEnvelope MSG_TYPES.PLAYER_UPDATE
    (PlayerUpdateData (mkVec3 (-48) 30 2) Quat_identity 0 0 (mkVec3 1 0 0)) 2000.
Definition bullet_spawn_message : Envelope :=
  mkEnvelope MSG_TYPES.BULLET_SPAWN
    (BulletSpawnData (mkVec3 (-48) 32 2) (mkVec3 1 0 0)) 2100.
Definition death_message : Envelope :=
  mkEnvelope MSG_TYPES.DEATH EmptyData 2200.
Definition ready_message : Envelope :=
  mkEnvelope MSG_TYPES.READY EmptyData 1100.
Definition damage_message (damage : float) (target : string) : Envelope :=
  mkEnvelope MSG_TYPES.DAMAGE (DamageData damage target) 2300.
Definition tree_destroyed_message (id : string) : Envelope :=
  mkEnvelope MSG_TYPES.TREE_DESTROYED (TreeDestroyedData (Some id)) 2400.

(** The responder has pasted text that is not a description. *)
Definition responder_pasted : World :=
  exec (on_join ;; paste_offer "not-json") responder_loaded.

(** A bullet of remote origin is in flight on the responder. *)
Definition responder_under_fire : World :=
  exec (handleNetworkMessage sample_stringify bullet_spawn_message)
       responder_playing.

(** C4 (the code does otherwise). On the responder, handling the
    [game_start] message stores the initiator's placement list in
    [decorationPositions] and does nothing else with it: [trees] and
    [collidables] still hold the trees that the responder's own
    [generateMap] placed from its own random draws, at their own
    positions, not at the initiator's: the initiator has one tree, at
    (-40, 0, 20), the responder three, the first at (10, 0, 5). *)
Theorem game_start_keeps_own_random_map :
  mapData_of (decorationPositions initiator_connected) = host_map ∧
  trees initiator_connected = [1] ∧
  obj_position (objects initiator_connected 1) = mkVec3 (-40) 0 20 ∧
  dp_trees (decorationPositions responder_playing)
    = [mkTreePlacement "tree_0" (-40) 0 20 0 1] ∧
  trees responder_playing = trees responder_loaded ∧
  collidables responder_playing = collidables responder_loaded ∧
  trees responder_playing = [1; 2; 3] ∧
  obj_position (objects responder_playing 1) = mkVec3 10 0 5 ∧
  gameStarted (gameState responder_playing) = true.
Proof. split_and!; vm_compute; reflexivity. Qed.

(** C5 (the code does otherwise). When the channel closes during a match
    the session is marked disconnected, a ['disconnected'] event is
    emitted and later sends write nothing; but the listener of that event
    does nothing, so the match is not left: the game state is untouched
    ([gameStarted] and [isRoundActive] stay true) and the main menu stays
    hidden, where cancelling the connection does show it. *)
Theorem channel_close_stays_in_match :
  isConnected (webrtcManager responder_playing) = true ∧
  isConnected (webrtcManager responder_dropped) = false ∧
  emitted responder_dropped = emitted responder_playing ++ [EvDisconnected] ∧
  send sample_stringify MSG_TYPES.PLAYER_UPDATE (data player_update_message)
    responder_dropped = (Ret false, responder_dropped) ∧
  gameState responder_dropped = gameState responder_playing ∧
  gameStarted (gameState responder_dropped) = true ∧
  isRoundActive (gameState responder_dropped) = true ∧
  mainMenu (dom responder_dropped) = false ∧
  mainMenu (dom (exec (cancelConnection sample_stringify) responder_playing))
    = true.
Proof. split_and!; vm_compute; reflexivity. Qed.

(** ** Instances of the theorems *)

Lemma authority_invariant_witness :
  hp P1 (run_inputs sample_stringify
           [Receive (damage_message 50 "player1");
            Explode (mkVec3 (-50) 30 0);
            Receive player_update_message] responder_playing)
    = hp P1 responder_playing ∧
  hp P2 (run_inputs sample_stringify
           [Receive player_update_message; Receive death_message;
            Receive bullet_spawn_message;
            Receive (damage_message 50 "player1")] responder_playing)
    = hp P2 responder_playing.
Proof.
  split.
  - destruct (authority_invariant sample_stringify
                [Receive (damage_message 50 "player1");
                 Explode (mkVec3 (-50) 30 0);
                 Receive player_update_message] responder_playing P1)
      as (_ & Hforeign & _).
    apply Hforeign. vm_compute. intros Hrole. discriminate Hrole.
  - destruct (authority_invariant sample_stringify
                [Receive player_update_message; Receive death_message;
                 Receive bullet_spawn_message;
                 Receive (damage_message 50 "player1")] responder_playing P2)
      as (_ & _ & Hquiet).
    apply Hquiet.
    repeat (apply Forall_cons_2;
      [vm_compute; intros [Htype Htarget]; discriminate |]).
    apply Forall_nil_2.
Defined.



Lemma send_spec_witness :
  send sample_stringify MSG_TYPES.READY EmptyData responder_playing
    = (Ret true,
       frame_written sample_stringify MSG_TYPES.READY EmptyData
         (mkDataChannel open ["player_info"; "ready"]) responder_playing) ∧
  send sample_stringify MSG_TYPES.READY EmptyData responder_loaded
    = (Ret false, responder_loaded).
Proof.
  split.
  - destruct (send_spec sample_stringify MSG_TYPES.READY EmptyData
                responder_playing) as (_ & _ & Hopen & _).
    destruct (Hopen (mkDataChannel open ["player_info"; "ready"]))
      as [Hsent _]; [vm_compute; reflexivity.. |].
    exact Hsent.
  - destruct (send_spec sample_stringify MSG_TYPES.READY EmptyData
                responder_loaded) as (_ & Hclosed & _).
    apply Hclosed. left. vm_compute. reflexivity.
Defined.

Lemma malformed_offer_rejected_witness :
  let w' := exec (handleOfferSubmit sample_parse sample_trim) responder_pasted in
  lobbyStatus (dom w')
    = "Invalid Offer JSON or connection failed. Please try again." ∧
  peerConnection (webrtcManager w') = None ∧
  pcs_created (webrtcManager w') = 0.
Proof.
  destruct (malformed_offer_rejected sample_parse sample_trim responder_pasted)
    as (_ & _ & Hstatus & _ & Hpc & Hcount & _); [vm_compute; reflexivity |].
  split_and!; [exact Hstatus | exact Hpc | exact Hcount].
Defined.

Lemma tree_destruction_idempotent_witness :
  let data := TreeDestroyedData (Some "tree_1") in
  let w' := exec (handleRemoteTreeDestruction data) responder_playing in
  handleRemoteTreeDestruction data w' = (Ret (), w').
Proof.
  destruct (tree_destruction_idempotent (TreeDestroyedData (Some "tree_1"))
              responder_playing) as (_ & Htwice).
  apply Htwice. vm_compute.
  refine (bool_decide_unpack _ _). vm_compute. exact I.
Defined.

Lemma remote_explosions_are_visual_witness :
  let w' := exec (updateBullets sample_stringify sample_intersect 0.0625)
              responder_under_fire in
  (∀ k, hp k w' = hp k responder_under_fire ∧
        points k w' = points k responder_under_fire) ∧
  trees w' = trees responder_under_fire ∧
  collidables w' = collidables responder_under_fire.
Proof.
  destruct (remote_explosions_are_visual sample_stringify sample_intersect)
    as (_ & _ & _ & Hpass).
  destruct (Hpass 0.0625%float responder_under_fire) as (_ & _ & Hgame & Htrees & Hcol).
  { apply Forall_cons_2; [reflexivity | apply Forall_nil_2]. }
  split_and!; [exact Hgame | exact Htrees | exact Hcol].
Defined.

Lemma remote_tree_destruction_keeps_collidable_witness :
  let w' := exec (handleRemoteTreeDestruction (TreeDestroyedData (Some "tree_0")))
              responder_playing in
  trees w' = delete 0 (trees responder_playing) ∧
  collidables w' = remove_first 2 (collidables responder_playing) ∧
  1 ∈ collidables w'.
Proof.
  assert (Hlater : ∀ j t, 0 < j → trees responder_playing !! j = Some t →
            tree_id responder_playing t ≠ Some "tree_0").
  { intros j t Hj Ht.
    destruct j as [|[|[|j]]]; [lia | | |]; vm_compute in Ht;
      [| |discriminate Ht]; injection Ht as <-; vm_compute;
      intros Hid; discriminate Hid. }
  assert (Hin : 1 ∈ collidables responder_playing)
    by (vm_compute; apply list_elem_of_here).
  destruct (remote_tree_destruction_keeps_collidable
              (TreeDestroyedData (Some "tree_0")) responder_playing 0 1)
    as (_ & Htrees & Hcol & _ & Hstays);
    [vm_compute; reflexivity | vm_compute; reflexivity | exact Hlater |].
  split_and!; [exact Htrees | | exact (Hstays Hin)].
  rewrite Hcol. vm_compute. reflexivity.
Defined.

Lemma handleRemoteDamage_before_start_witness :
  handleRemoteDamage sample_stringify (DamageData 100 "player1")
    initiator_connected
  = (Throw TypeError, health_updated P1 100 initiator_connected).
Proof.
  apply (handleRemoteDamage_before_start sample_stringify P1 100
           initiator_connected 100); vm_compute; reflexivity.
Defined.


Lemma respawn_restores_local_health_witness :
  hp P2 (exec respawnLocalPlayer
           (exec (handleRemoteDamage sample_stringify (DamageData 30 "player2"))
              responder_playing))
  = 100%float.
Proof.
  destruct (respawn_restores_local_health P2
              (exec (handleRemoteDamage sample_stringify
                       (DamageData 30 "player2")) responder_playing))
    as (_ & Hfull & _); [vm_compute; reflexivity |].
  exact Hfull.
Defined.

Lemma malformed_answer_rejected_witness :
  let w' := exec (handleAnswerSubmit sample_parse sample_trim) initiator_pasted in
  lobbyStatus (dom w') = "Invalid Answer JSON. Please check and try again." ∧
  webrtcManager w' = webrtcManager initiator_pasted.
Proof.
  destruct (malformed_answer_rejected sample_parse sample_trim initiator_pasted)
    as (_ & Hworld & Hmanager & _); [vm_compute; reflexivity |].
  split; [|exact Hmanager].
  cbv zeta. rewrite Hworld. vm_compute. reflexivity.
Defined.

Lemma generateMap_tree_ids_distinct_witness :
  let w' := exec (generateMap [mkDraw 0 0 0 0 1]
                    [mkDraw 10 5 0 0 1; mkDraw 60 (-30) 0 0 1] [])
              (initialWorld fullPage (mkMenuManager "bob" "blue")) in
  tree_id w' <$> trees w' = [Some "tree_0"; Some "tree_1"] ∧
  NoDup (tree_id w' <$> trees w').
Proof.
  destruct (generateMap_tree_ids_distinct [mkDraw 0 0 0 0 1]
              [mkDraw 10 5 0 0 1; mkDraw 60 (-30) 0 0 1] []
              (initialWorld fullPage (mkMenuManager "bob" "blue")))
    as (_ & Hids & Hdistinct); [reflexivity | reflexivity |].
  split; [exact Hids | exact Hdistinct].
Defined.

Lemma generateMap_placements_describe_trees_witness :
  let w' := exec (generateMap [mkDraw 0 0 0 0 1]
                    [mkDraw 10 5 0 0 1; mkDraw 60 (-30) 0 0 1] [])
              (initialWorld fullPage (mkMenuManager "bob" "blue")) in
  length (trees w') = 2 ∧
  Forall (λ tree, tree ∈ collidables w') (trees w').
Proof.
  destruct (generateMap_placements_describe_trees [mkDraw 0 0 0 0 1]
              [mkDraw 10 5 0 0 1; mkDraw 60 (-30) 0 0 1] []
              (initialWorld fullPage (mkMenuManager "bob" "blue")))
    as (Hlen & _ & Hin); [reflexivity | reflexivity |].
  split; [exact Hlen | exact Hin].
Defined.

(** The initiator's channel is open and the browser has yet to call
    [onopen]. *)
Definition initiator_opening : World :=
  exec (set_channel_state open) initiator_hosting.

(** The responder is one point from winning the best of three. *)
Definition responder_match_point : World :=
  run_deaths sample_stringify [RemoteDeath] responder_playing.

Definition player_info_message : Envelope :=
  mkEnvelope MSG_TYPES.PLAYER_INFO
    (PlayerInfoData (Some "mallory") (Some "pink")) 2500.

Lemma unhandled_types_ignored_witness :
  handleNetworkMessage sample_stringify ready_message initiator_connected
    = (Ret (), initiator_connected).
Proof.
  apply (unhandled_types_ignored sample_stringify ready_message "ready");
    [reflexivity |].
  refine (bool_decide_unpack _ _). vm_compute. exact I.
Defined.

Lemma channel_open_frames_witness :
  let w' := exec (dataChannel_onopen sample_stringify) initiator_opening in
  sent <$> dataChannel (webrtcManager w') = Some ["player_info"; "game_start"] ∧
  gameStarted (gameState w') = false.
Proof.
  destruct (channel_open_frames sample_stringify initiator_opening
              (mkDataChannel open []))
    as (_ & _ & Hsent & Hstate & _); [vm_compute; reflexivity.. |].
  cbv zeta. split.
  - rewrite Hsent. vm_compute. reflexivity.
  - rewrite Hstate. vm_compute. reflexivity.
Defined.

Lemma own_identity_invariant_witness :
  identity P2
    (run_inputs sample_stringify
       [Receive player_info_message; Receive death_message;
        Explode (mkVec3 50 30 0)] responder_playing)
  = (Some "bob", Some "blue").
Proof.
  rewrite (own_identity_invariant sample_stringify _ responder_playing P2).
  - vm_compute. reflexivity.
  - vm_compute. reflexivity.
Defined.


Lemma cutscene_names_the_winner_witness :
  let w' := exec (death_step sample_stringify RemoteDeath)
              responder_match_point in
  cutsceneManager w' = mkCutsceneManager true (Some (0, 2)) ∧
  cutscene_winner (points P1 w', points P2 w') = P2.
Proof.
  assert (Hin : in_match responder_match_point).
  { exists P2, P1. split_and!; [vm_compute; reflexivity.. | discriminate]. }
  assert (Htanks : ∀ k,
            is_Some (tank (player k (gameState responder_match_point)))).
  { intros []; vm_compute; by eexists. }
  destruct (cutscene_names_the_winner sample_stringify RemoteDeath P2
              responder_match_point Hin)
    as (Hscene & Hwinner & _); [vm_compute; reflexivity | exact Htanks
                               | vm_compute; reflexivity.. |].
  cbv zeta. split; [|exact Hwinner].
  rewrite Hscene. vm_compute. reflexivity.
Defined.

Lemma local_explosion_clears_trees_witness :
  let w' := exec (checkExplosionDamage sample_stringify (mkVec3 10 0 5))
              responder_playing in
  collidables w' = [2; 3] ∧ trees w' = [2; 3].
Proof.
  assert (Hin : in_match responder_playing).
  { exists P2, P1. split_and!; [vm_compute; reflexivity.. | discriminate]. }
  assert (Hnd : NoDup (trees responder_playing)).
  { refine (bool_decide_unpack _ _). vm_compute. exact I. }
  destruct (local_explosion_clears_trees sample_stringify (mkVec3 10 0 5)
              responder_playing Hin Hnd) as (_ & _ & Hcol & Htrees & _).
  cbv zeta. split.
  - rewrite Hcol. vm_compute. reflexivity.
  - rewrite Htrees. vm_compute. reflexivity.
Defined.

Lemma messages_before_start_throw_witness :
  handleNetworkMessage sample_stringify player_update_message
    initiator_connected = (Throw TypeError, initiator_connected) ∧
  handleNetworkMessage sample_stringify death_message
    initiator_connected = (Throw TypeError, initiator_connected).
Proof.
  split.
  - apply messages_before_start_throw;
      [vm_compute; reflexivity | vm_compute; reflexivity | left; reflexivity].
  - apply messages_before_start_throw;
      [vm_compute; reflexivity | vm_compute; reflexivity | right; reflexivity].
Defined.

(** A joiner who pastes into the answer box before any offer. *)
Definition responder_early_answer : World :=
  exec (on_join ;; paste_answer "{}") responder_loaded.

Lemma answer_without_connection_rejected_witness :
  lobbyStatus (dom (exec (handleAnswerSubmit sample_parse sample_trim)
                      responder_early_answer)) =
    "Invalid Answer JSON. Please check and try again.".
Proof.
  unfold exec.
  rewrite (answer_without_connection_rejected sample_parse sample_trim
             responder_early_answer (JString "{}"));
    [reflexivity | vm_compute; discriminate | vm_compute; reflexivity
    | vm_compute; reflexivity].
Defined.

(** * Properties of utils.js and menu.js *)

Section UserNames.

Implicit Types s u pre post : CodeUnits.

Lemma trimStart_split s :
  ∃ pre, s = pre ++ trimStart s ∧ Forall isWhiteSpace pre.
Proof.
  induction s as [|c s (pre & Hs & Hpre)]; [by exists []|].
  simpl. destruct (isWhiteSpace c) eqn:Hc.
  - exists (c :: pre). split; [by rewrite <- app_comm_cons, <- Hs|].
    constructor; [by rewrite Hc | done].
  - by exists [].
Qed.

Lemma trimStart_head s c s' :
  trimStart s = c :: s' → isWhiteSpace c = false.
Proof.
  induction s as [|d s IH]; [done|]. simpl.
  destruct (isWhiteSpace d) eqn:Hd; [done|]. by intros [= <- _].
Qed.

Lemma trimStart_skip pre s :
  Forall isWhiteSpace pre → trimStart (pre ++ s) = trimStart s.
Proof.
  induction 1 as [|c pre Hc _ IH]; [done|].
  simpl. by destruct (isWhiteSpace c).
Qed.

Lemma trimStart_keep c s :
  isWhiteSpace c = false → trimStart (c :: s) = c :: s.
Proof. intros Hc. simpl. by rewrite Hc. Qed.

Lemma isAlnum_not_space c : isAlnum c → isWhiteSpace c = false.
Proof.
  unfold isAlnum, isWhiteSpace. intros Hc.
  assert (48 ≤ c ≤ 122)%N as Hrange.
  { repeat (apply orb_prop_elim in Hc as [Hc|Hc]);
      apply andb_prop_elim in Hc as [H1 H2];
      apply Is_true_eq_true in H1, H2; apply N.leb_le in H1, H2; lia. }
  apply orb_false_intro.
  - apply bool_decide_eq_false. rewrite !elem_of_cons, elem_of_nil. lia.
  - apply andb_false_intro1, N.leb_gt. lia.
Qed.

(** Trimming leaves a string of letters and digits as it is. *)
Lemma String_trim_alnum pre u post :
  Forall isWhiteSpace pre → Forall isWhiteSpace post →
  u ≠ [] → Forall isAlnum u →
  String_trim (pre ++ u ++ post) = u.
Proof.
  intros Hpre Hpost Hne Hu. unfold String_trim, trimEnd.
  rewrite trimStart_skip by done.
  destruct u as [|c u]; [done|]. apply Forall_cons in Hu as [Hc Hu].
  rewrite <- app_comm_cons, trimStart_keep by by apply isAlnum_not_space.
  rewrite app_comm_cons, reverse_app, trimStart_skip
    by by apply Forall_reverse.
  destruct (reverse (c :: u)) as [|d r] eqn:Hr.
  { apply (f_equal length) in Hr. by rewrite length_reverse in Hr. }
  assert (isAlnum d) as Hd.
  { assert (d ∈ c :: u) as Hin
      by (apply elem_of_reverse; rewrite Hr; left).
    apply elem_of_cons in Hin as [->|Hin]; [done|].
    by apply (proj1 (Forall_forall _ _) Hu). }
  rewrite trimStart_keep by by apply isAlnum_not_space.
  by rewrite <- Hr, reverse_involutive.
Qed.

Lemma String_trim_split s :
  ∃ pre post, s = pre ++ String_trim s ++ post ∧
              Forall isWhiteSpace pre ∧ Forall isWhiteSpace post.
Proof.
  destruct (trimStart_split s) as (pre & Hs & Hpre).
  destruct (trimStart_split (reverse (trimStart s))) as (post & Hr & Hpost).
  exists pre, (reverse post). split_and!; [|done|by apply Forall_reverse].
  unfold String_trim, trimEnd. rewrite <- reverse_app, <- Hr.
  by rewrite reverse_involutive.
Qed.

Lemma alnum_test_Forall u : alnum_test u ↔ u ≠ [] ∧ Forall isAlnum u.
Proof.
  destruct u as [|c u]; [by intuition|].
  unfold alnum_test. rewrite forallb_True. by intuition.
Qed.

(** What [validateUsername] accepts, as a helper for the menu. *)
Lemma validateUsername_Accepted s u :
  validateUsername s = Accepted u ↔
  u = String_trim s ∧ (3 ≤ length u ≤ 12)%nat ∧ Forall isAlnum u.
Proof.
  unfold validateUsername.
  destruct (Nat.ltb_spec (length (String_trim s)) 3);
    [split; [done | intros (-> & ? & _); lia]|].
  destruct (Nat.ltb_spec 12 (length (String_trim s)));
    [split; [done | intros (-> & ? & _); lia]|].
  destruct (alnum_test (String_trim s)) eqn:Htest; simpl.
  - apply Is_true_eq_left, alnum_test_Forall in Htest as [_ Hall].
    split; [by intros [= <-] | by intros (-> & _)].
  - split; [done|]. intros (-> & ? & Hall).
    apply not_true_iff_false in Htest. destruct Htest.
    apply Is_true_eq_true, alnum_test_Forall. split; [|done].
    intros Hnil. rewrite Hnil in *. simpl in *. lia.
Qed.

Lemma validateUsername_fixed s u :
  validateUsername s = Accepted u → validateUsername u = Accepted u.
Proof.
  intros (-> & Hlen & Hall)%validateUsername_Accepted.
  apply validateUsername_Accepted. split_and!; [|lia|lia|done].
  symmetry. rewrite <- (app_nil_r (String_trim s)) at 1.
  apply (String_trim_alnum []); [done..| |done].
  intros Hnil. rewrite Hnil in Hlen. simpl in Hlen. lia.
Qed.

(** X19. [validateUsername] accepts a text exactly when, between leading
    and trailing white space, it consists of 3 to 12 letters and digits,
    and then returns that part: no accepted name contains a space or is
    shorter or longer, and validating an accepted name again accepts it
    unchanged. *)
Theorem validateUsername_accepts_exactly s u :
  (validateUsername s = Accepted u ↔
   (∃ pre post, s = pre ++ u ++ post ∧
                Forall isWhiteSpace pre ∧ Forall isWhiteSpace post) ∧
   (3 ≤ length u ≤ 12)%nat ∧ Forall isAlnum u) ∧
  (validateUsername s = Accepted u → validateUsername u = Accepted u).
Proof.
  split; [|apply validateUsername_fixed].
  rewrite validateUsername_Accepted. split.
  - intros (-> & Hlen & Hall). split_and!; [|lia|lia|done].
    apply String_trim_split.
  - intros ((pre & post & -> & Hpre & Hpost) & Hlen & Hall).
    split_and!; [|lia|lia|done].
    symmetry. apply String_trim_alnum; [done..| |done].
    intros ->. simpl in Hlen. lia.
Qed.

End UserNames.

Section MenuProperties.

Import Menu.

(** The name and the colour a listener of the menu reads are usable. *)
Definition player_chosen (m : State) : Prop :=
  validateUsername (Menu.username m) = Accepted (Menu.username m) ∧
  Menu.color m ≠ "".

(** While the buttons are enabled, the stored name is the accepted form of
    the text in the field, and a colour is selected. *)
Definition valid_means_checked (m : State) : Prop :=
  isValid m = true →
  validateUsername (usernameInput m) = Accepted (Menu.username m) ∧
  Menu.color m ≠ "".

Lemma valid_means_chosen m : valid_means_checked m → isValid m = true →
  player_chosen m.
Proof.
  intros Hm Hvalid. destruct (Hm Hvalid) as [Hname Hcolor].
  split; [by eapply validateUsername_fixed | done].
Qed.

Lemma validateInput_checked m : valid_means_checked (validateInput m).
Proof.
  unfold valid_means_checked, validateInput, updateButtons.
  destruct (validateUsername (usernameInput m)) as [error|u] eqn:Hu; cbn;
    [done|].
  rewrite Hu. intros Hcolor%bool_decide_eq_true. done.
Qed.

Lemma validateInput_chosen m : player_chosen m → player_chosen (validateInput m).
Proof.
  unfold player_chosen, validateInput, updateButtons. intros [Hname Hcolor].
  destruct (validateUsername (usernameInput m)) as [error|u] eqn:Hu; cbn;
    [done|].
  split; [by eapply validateUsername_fixed | done].
Qed.

Lemma validateInput_keeps m :
  modeSelection (validateInput m) = modeSelection m ∧
  Menu.color (validateInput m) = Menu.color m ∧
  Menu.emitted (validateInput m) = Menu.emitted m ∧
  storage (validateInput m) = storage m ∧
  usernameInput (validateInput m) = usernameInput m.
Proof.
  unfold validateInput, updateButtons.
  by destruct (validateUsername (usernameInput m)).
Qed.

Lemma validateInput_accepted m u :
  validateUsername (usernameInput m) = Accepted u → Menu.color m ≠ "" →
  Menu.username (validateInput m) = u ∧
  Menu.color (validateInput m) = Menu.color m ∧
  usernameInput (validateInput m) = usernameInput m ∧
  isValid (validateInput m) = true ∧
  hostBtn_disabled (validateInput m) = false ∧
  joinBtn_disabled (validateInput m) = false.
Proof.
  intros Hu Hcolor. unfold validateInput, updateButtons. rewrite Hu. cbn.
  by rewrite bool_decide_true.
Qed.

Lemma color_name_chosen colorName : colorName ∈ COLOR_NAMES → colorName ≠ "".
Proof.
  unfold COLOR_NAMES. rewrite !elem_of_cons, elem_of_nil.
  intros Hin ->. by repeat destruct Hin as [?|Hin].
Qed.

Lemma activateTestMode_keeps m :
  modeSelection (activateTestMode m) = modeSelection m.
Proof.
  unfold activateTestMode, saveAndProceed, savePlayerData, emit, selectColor,
    validateInput, updateButtons.
  repeat case_bool_decide; repeat case_match; reflexivity.
Qed.

Lemma activateTestMode_chosen m :
  player_chosen m → player_chosen (activateTestMode m).
Proof.
  intros [Hname Hcolor].
  assert (Menu.username m ≠ []) as Hne.
  { intros Hnil. by rewrite Hnil in Hname. }
  unfold activateTestMode. cbv zeta.
  rewrite (bool_decide_false (Menu.username m = [])) by done. cbv iota.
  rewrite (bool_decide_false (Menu.color m = "")) by done. cbv iota.
  unfold saveAndProceed, savePlayerData, emit.
  by apply (validateInput_chosen m).
Qed.

Lemma activateTestMode_checked m : valid_means_checked (activateTestMode m).
Proof.
  unfold activateTestMode, saveAndProceed, savePlayerData, emit.
  apply (validateInput_checked _).
Qed.

(** The invariant of the menu. *)
Definition menu_inv (m : State) : Prop :=
  valid_means_checked m ∧ (modeSelection m = true → player_chosen m).

Lemma new_MenuManager_inv page :
  modeSelection page = false → menu_inv (new_MenuManager page).
Proof.
  intros Hpage. unfold new_MenuManager, init, loadSavedData, loadPlayerData.
  cbn. destruct (storage page) as [[saved_username saved_color]|];
    [|by split; cbn; [intros ? | rewrite Hpage]].
  case_match; [|by split; cbn; [intros ? | rewrite Hpage]].
  split; [apply validateInput_checked|].
  unfold selectColor.
  rewrite (proj1 (validateInput_keeps _)), (proj1 (validateInput_keeps _)).
  cbn. by rewrite Hpage.
Qed.

Lemma handle_inv i m : possible i m → menu_inv m → menu_inv (handle i m).
Proof.
  intros Hi [Hchecked Hshown]. destruct i; cbn [handle possible] in *.
  - split; [apply validateInput_checked|].
    unfold usernameInput_oninput.
    rewrite (proj1 (validateInput_keeps _)). cbn. intros Hmode.
    destruct (Hshown Hmode). by apply validateInput_chosen.
  - split; [apply validateInput_checked|].
    unfold selectColor. rewrite (proj1 (validateInput_keeps _)). cbn.
    intros Hmode. destruct (Hshown Hmode). apply validateInput_chosen.
    split; [done|]. by apply color_name_chosen.
  - unfold hostBtn_onclick. destruct (isValid m) eqn:Hvalid; [|done].
    split; [done|]. intros _. by apply (valid_means_chosen m).
  - unfold joinBtn_onclick. by destruct (isValid m).
  - done.
  - split; [apply activateTestMode_checked|].
    rewrite activateTestMode_keeps. intros Hmode.
    by apply activateTestMode_chosen, Hshown.
  - done.
  - done.
  - split; [done|]. by cbn.
Qed.

Lemma reachable_inv page m :
  modeSelection page = false → reachable page m → menu_inv m.
Proof.
  intros Hpage. induction 1 as [|i m _ IH Hi];
    [by apply new_MenuManager_inv | by apply handle_inv].
Qed.

(** X20. Whatever the user does in the menu and whatever name and colour
    the storage held, a ['join'] or ['host'] is emitted only with a player
    the listener can use: at that moment [getPlayerData] gives a name that
    [validateUsername] accepts unchanged and a colour that is not empty;
    for ['join'] this is also the player just saved. *)
Theorem menu_emits_chosen_players (page m : State) (i : Input) (e : Emitted) :
  modeSelection page = false → reachable page m → possible i m →
  Menu.emitted (handle i m) = Menu.emitted m ++ [e] → e ≠ TestMode →
  let data := getPlayerData (handle i m) in
  validateUsername data.1 = Accepted data.1 ∧ data.2 ≠ "" ∧
  (e = Join → storage (handle i m) = Some data).
Proof.
  intros Hpage Hm Hi Hemit He.
  destruct (reachable_inv page m Hpage Hm) as [Hchecked Hshown].
  assert (∀ l : list Emitted, l ≠ l ++ [e]) as Hsame.
  { intros l Heq. apply (f_equal length) in Heq.
    rewrite length_app in Heq. simpl in Heq. lia. }
  destruct i; cbv zeta; cbn [handle possible getPlayerData fst snd] in *.
  - unfold usernameInput_oninput in Hemit.
    rewrite (proj1 (proj2 (proj2 (validateInput_keeps _)))) in Hemit.
    by cbn in Hemit; apply Hsame in Hemit.
  - unfold selectColor in Hemit.
    rewrite (proj1 (proj2 (proj2 (validateInput_keeps _)))) in Hemit.
    by cbn in Hemit; apply Hsame in Hemit.
  - unfold hostBtn_onclick in Hemit.
    destruct (isValid m); by cbn in Hemit; apply Hsame in Hemit.
  - unfold joinBtn_onclick in *.
    destruct (isValid m) eqn:Hvalid; [|by cbn in Hemit; apply Hsame in Hemit].
    destruct (valid_means_chosen m Hchecked Hvalid). by cbn.
  - unfold modeBtn_onclick in *. cbn in *.
    destruct (Hshown Hi). apply app_inj_tail in Hemit as [_ <-].
    by split_and!.
  - unfold activateTestMode, emit in Hemit. cbn in Hemit.
    apply app_inj_tail in Hemit as [_ <-]. done.
  - by cbn in Hemit; apply Hsame in Hemit.
  - by cbn in Hemit; apply Hsame in Hemit.
  - by cbn in Hemit; apply Hsame in Hemit.
Qed.

(** X21. Saving and loading round-trip: when the menu is valid, a page
    loaded with the player that [saveAndProceed] stores starts with the
    same name and colour, the name in the field, and the buttons
    enabled. *)
Theorem saved_player_is_restored (page page' m : State) :
  reachable page m → isValid m = true →
  storage page' = storage (saveAndProceed m) →
  let m' := new_MenuManager page' in
  Menu.username m' = Menu.username m ∧ Menu.color m' = Menu.color m ∧
  usernameInput m' = Menu.username m ∧ isValid m' = true ∧
  hostBtn_disabled m' = false ∧ joinBtn_disabled m' = false.
Proof.
  intros Hm Hvalid Hstorage.
  assert (valid_means_checked m) as Hchecked.
  { clear Hvalid Hstorage. induction Hm as [|i m _ IH Hi].
    - unfold new_MenuManager, init, loadSavedData, loadPlayerData. cbn.
      destruct (storage page) as [[saved_username saved_color]|];
        [|by intros ?].
      case_match; [apply validateInput_checked | by intros ?].
    - destruct i; cbn; try done;
        [apply validateInput_checked | apply validateInput_checked | |
         | apply activateTestMode_checked].
      + unfold hostBtn_onclick. by destruct (isValid m).
      + unfold joinBtn_onclick. by destruct (isValid m). }
  destruct (valid_means_chosen m Hchecked Hvalid) as [Hname Hcolor].
  assert (Menu.username m ≠ []) as Hne.
  { intros Hnil. by rewrite Hnil in Hname. }
  cbv zeta. unfold new_MenuManager, init, loadSavedData, loadPlayerData.
  set (m0 := set_isValid false (set_color "" (set_username [] page'))).
  assert (storage m0 = Some (Menu.username m, Menu.color m)) as ->
    by exact Hstorage.
  rewrite bool_decide_true by done. rewrite bool_decide_true by done.
  change (true && true) with true. cbv iota beta zeta. unfold selectColor.
  set (m1 := set_color _ _).
  destruct (validateInput_accepted m1 (Menu.username m) Hname Hcolor)
    as (Hu1 & Hc1 & Hi1 & _).
  destruct (validateInput_accepted (validateInput m1) (Menu.username m))
    as (Hu2 & Hc2 & Hi2 & Hrest); [by rewrite Hi1 | by rewrite Hc1 |].
  split_and!; [done | by rewrite Hc2, Hc1 | by rewrite Hi2, Hi1
               | apply Hrest..].
Qed.

End MenuProperties.

(** A page whose storage is empty; the visitor types " bob " and picks
    blue. *)
Definition empty_page : Menu.State :=
  Menu.mkState [] "" false [] "" false true true false false false None [].

Definition menu_filled : Menu.State :=
  Menu.handle (Menu.ClickColor "blue")
    (Menu.handle (Menu.EditName [32; 98; 111; 98; 32]%N)
       (Menu.new_MenuManager empty_page)).

Lemma menu_filled_reachable : Menu.reachable empty_page menu_filled.
Proof.
  apply Menu.reachable_handle;
    [apply Menu.reachable_handle; [apply Menu.reachable_new | exact I]|].
  cbn. unfold COLOR_NAMES. rewrite !elem_of_cons. auto.
Qed.

Lemma menu_emits_chosen_players_witness :
  Menu.getPlayerData (Menu.handle Menu.ClickJoin menu_filled) =
    ([98; 111; 98]%N, "blue") ∧
  validateUsername [98; 111; 98]%N = Accepted [98; 111; 98]%N.
Proof.
  split; [vm_compute; reflexivity|].
  refine (proj1 (menu_emits_chosen_players empty_page menu_filled
                   Menu.ClickJoin Menu.Join _ _ _ _ _));
    [reflexivity | apply menu_filled_reachable | exact I
    | vm_compute; reflexivity | discriminate].
Defined.

Lemma saved_player_is_restored_witness :
  let m' := Menu.new_MenuManager
              (Menu.set_storage
                 (Menu.storage (Menu.saveAndProceed menu_filled)) empty_page) in
  Menu.username m' = [98; 111; 98]%N ∧ Menu.isValid m' = true.
Proof.
  destruct (saved_player_is_restored empty_page
              (Menu.set_storage
                 (Menu.storage (Menu.saveAndProceed menu_filled)) empty_page)
              menu_filled menu_filled_reachable)
    as (Hname & _ & _ & Hvalid & _);
    [vm_compute; reflexivity | reflexivity |].
  split; [exact Hname | exact Hvalid].
Defined.

(** * Properties of the EventEmitter *)

Section EmitterProperties.

Import EventEmitter.

Variable throws : nat → list JSON → option Error.

(** No member of [Object.prototype] is an own property of [events], and a
    wrapper is registered for the event it takes itself off. *)
Definition well_formed (s : State) : Prop :=
  (∀ event, event ∈ Object_prototype → events s event = None) ∧
  (∀ event l w e id, events s event = Some l →
     OnceWrapper w e id ∈ l → e = event).

Lemma slot_Listeners event s l :
  slot event s = Listeners l ↔ events s event = Some l.
Proof.
  unfold slot. destruct (events s event); [|by case_bool_decide].
  split; by intros [= ->].
Qed.

Lemma slot_Inherited event s :
  well_formed s → event ∈ Object_prototype → slot event s = Inherited.
Proof.
  intros [Hw _] Hin. unfold slot. rewrite (Hw _ Hin).
  by rewrite bool_decide_true.
Qed.

Lemma slot_proper event s :
  well_formed s → event ∉ Object_prototype →
  slot event s = match events s event with
                 | Some l => Listeners l
                 | None => Undefined
                 end.
Proof.
  intros _ Hin. unfold slot. destruct (events s event); [done|].
  by rewrite bool_decide_false.
Qed.

Lemma well_formed_insert event l s :
  well_formed s → event ∉ Object_prototype →
  (∀ w e id, OnceWrapper w e id ∈ l → e = event) →
  well_formed (set_events (<[event := Some l]> (events s)) s).
Proof.
  intros [Hproto Hwrap] Hevent Hl. split; cbn.
  - intros ev Hev. rewrite fn_lookup_insert_ne; [by apply Hproto|].
    by intros ->.
  - intros ev l' w e id. destruct (decide (event = ev)) as [<-|Hne].
    + rewrite fn_lookup_insert. intros [= <-]. apply Hl.
    + rewrite fn_lookup_insert_ne by done. apply Hwrap.
Qed.

Lemma events_not_inherited event l s :
  well_formed s → events s event = Some l → event ∉ Object_prototype.
Proof. intros [Hproto _] Hl Hin. by rewrite (Hproto _ Hin) in Hl. Qed.

Lemma on_well_formed event cb s :
  well_formed s → (∀ w e id, cb = OnceWrapper w e id → e = event) →
  well_formed (on event cb s).2.
Proof.
  intros Hs Hcb. unfold on.
  destruct (slot event s) as [| |l] eqn:Hslot; cbn; [|done|].
  - apply well_formed_insert; [done| |].
    + intros Hin. by rewrite slot_Inherited in Hslot.
    + intros w e id [Heq|[]%elem_of_nil]%elem_of_cons. by eapply Hcb.
  - apply slot_Listeners in Hslot.
    apply well_formed_insert; [done|by eapply events_not_inherited|].
    intros w e id [Hin|[Heq|[]%elem_of_nil]%elem_of_cons]%elem_of_app;
      [by eapply (proj2 Hs) | by eapply Hcb].
Qed.

Lemma off_well_formed event cb s :
  well_formed s → well_formed (off event cb s).2.
Proof.
  intros Hs. unfold off.
  destruct (slot event s) as [| |l] eqn:Hslot; cbn; [done..|].
  apply slot_Listeners in Hslot.
  apply well_formed_insert; [done|by eapply events_not_inherited|].
  intros w e id [_ Hin]%list_elem_of_filter. by eapply (proj2 Hs).
Qed.

(** The listeners left for [event] after those of [done] have run to
    completion: the wrappers among them have taken themselves off. *)
Definition remaining (done cur : list Callback) : list Callback :=
  filter (λ cb, is_plain cb ∨ cb ∉ done) cur.

Lemma remaining_nil cur : remaining [] cur = cur.
Proof.
  unfold remaining. induction cur as [|c cur IH]; [done|].
  rewrite filter_cons_True; [by rewrite IH|]. right. apply not_elem_of_nil.
Qed.

Lemma remaining_plain id done cur :
  remaining (Plain id :: done) cur = remaining done cur.
Proof.
  unfold remaining. apply list_filter_iff. intros c.
  rewrite elem_of_cons. destruct c; cbn; [by intuition|].
  split; (intros [[]|Hc]; right); [by intuition|].
  by intros [|].
Qed.

Lemma remaining_wrapper w e id done cur :
  remaining (OnceWrapper w e id :: done) cur =
  remaining done (filter (λ cb, cb ≠ OnceWrapper w e id) cur).
Proof.
  unfold remaining. rewrite list_filter_filter. apply list_filter_iff.
  intros c. rewrite elem_of_cons.
  destruct (decide (c = OnceWrapper w e id)) as [->|Hne]; cbn.
  - split; [intros [[]|Hc]; destruct Hc; by left | by intros [_ []]].
  - split; [intros [?|Hc]; (split; [|done]); [by left|right; by intuition]|].
    intros [[?|Hc] _]; [by left|right]. by intros [|].
Qed.

Lemma remaining_within done l :
  l ⊆ done → remaining done l = filter (λ cb, is_plain cb) l.
Proof.
  unfold remaining. induction l as [|c l IH]; [done|]. intros Hl.
  assert (c ∈ done) as Hc by (apply Hl; left).
  rewrite !filter_cons, IH by (intros ??; apply Hl; by right).
  apply decide_ext. by intuition.
Qed.

Lemma remaining_self l : remaining l l = filter (λ cb, is_plain cb) l.
Proof. by apply remaining_within. Qed.

(** Running the listeners [l] that all return. *)
Lemma forEach_returns l args : ∀ s event cur,
  events s event = Some cur → well_formed s →
  (∀ w e id, OnceWrapper w e id ∈ l → e = event) →
  (∀ cb, cb ∈ l → throws (target cb) args = None) →
  ∃ s', forEach throws l args s = (Ret (), s') ∧
        calls s' = calls s ++ ((λ cb, (target cb, args)) <$> l) ∧
        events s' event = Some (remaining l cur) ∧
        (∀ event', event' ≠ event → events s' event' = events s event') ∧
        wrappers s' = wrappers s ∧ well_formed s'.
Proof.
  induction l as [|c l IH]; intros s event cur Hcur Hs Hl Hreturn.
  { exists s. rewrite remaining_nil, app_nil_r. by split_and!. }
  assert (throws (target c) args = None) as Hc by (apply Hreturn; left).
  cbn [EventEmitter.forEach]. destruct c as [id|w e id]; cbn in Hc.
  - unfold call, call_plain. rewrite Hc.
    set (s1 := set_calls _ s).
    destruct (IH s1 event cur) as (s' & -> & Hcalls & Hevents & Hother & Hw
                                   & Hs'); [done|done| | |].
    { intros ????. eapply Hl. by right. }
    { intros ??. apply Hreturn. by right. }
    exists s'. split_and!; [done| |by rewrite remaining_plain|done..].
    rewrite Hcalls. cbn. by rewrite <- app_assoc.
  - assert (e = event) as -> by (eapply Hl; left).
    unfold call, call_plain. rewrite Hc. unfold off.
    set (s1 := set_calls _ s).
    assert (slot event s1 = Listeners cur) as -> by by apply slot_Listeners.
    set (s2 := set_events _ s1).
    destruct (IH s2 event (filter (λ cb, cb ≠ OnceWrapper w event id) cur))
      as (s' & -> & Hcalls & Hevents & Hother & Hw & Hs').
    { cbn. by rewrite fn_lookup_insert. }
    { apply well_formed_insert;
        [exact Hs | by eapply events_not_inherited |].
      intros w' e' id' [_ Hin]%list_elem_of_filter. by eapply (proj2 Hs). }
    { intros ????. eapply Hl. by right. }
    { intros ??. apply Hreturn. by right. }
    exists s'. split_and!; [done| |by rewrite remaining_wrapper| |done..].
    + rewrite Hcalls. cbn. by rewrite <- app_assoc.
    + intros event' Hne. rewrite Hother by done. cbn.
      by rewrite fn_lookup_insert_ne.
Qed.

Lemma forEach_well_formed l args : ∀ s,
  well_formed s → well_formed (forEach throws l args s).2.
Proof.
  induction l as [|cb l IH]; intros s Hs; [done|]. cbn.
  assert (well_formed (call throws cb args s).2) as Hcall.
  { destruct cb as [id|w e id]; unfold call, call_plain.
    - by destruct (throws id args).
    - destruct (throws id args); [done|].
      by apply (off_well_formed e (OnceWrapper w e id) (set_calls _ s)). }
  destruct (call throws cb args s) as [[[]|e] s']; [|done].
  by apply IH.
Qed.

Lemma reachable_well_formed s : reachable throws s → well_formed s.
Proof.
  induction 1 as [|c s _ IH].
  { split; [done|]. intros ?????. by intros [=]. }
  destruct c as [event id|event id|event args|event id]; cbn.
  - by apply on_well_formed.
  - by apply off_well_formed.
  - unfold emit. destruct (slot event s); [done..|].
    by apply forEach_well_formed.
  - apply on_well_formed; [exact IH|]. by intros w e id' [= _ <- _].
Qed.

Lemma forEach_app l1 l2 args s :
  forEach throws (l1 ++ l2) args s =
    match forEach throws l1 args s with
    | (Ret _, s') => forEach throws l2 args s'
    | (Throw e, s') => (Throw e, s')
    end.
Proof.
  revert s. induction l1 as [|cb l1 IH]; intros s; [done|]. cbn.
  by destruct (call throws cb args s) as [[[]|e] s'].
Qed.

Lemma listeners_Some event s l :
  events s event = Some l → listeners event s = l.
Proof. unfold listeners. by intros ->. Qed.

Lemma listeners_wrappers event s w e id :
  well_formed s → OnceWrapper w e id ∈ listeners event s → e = event.
Proof.
  intros [_ Hs]. unfold listeners.
  destruct (events s event) as [l|] eqn:Hl; [by apply Hs|].
  by intros []%elem_of_nil.
Qed.

(** X22. On an emitter in use, [emit] calls every listener registered
    for the event once per registration, in the order of registration
    and with the arguments given; when none of them throws it returns,
    the listeners registered by [once] are gone afterwards, those
    registered by [on] stay, and no other event is touched. *)
Theorem emit_calls_every_listener (event : string) (args : list JSON)
    (s : State) :
  reachable throws s → event ∉ Object_prototype →
  (∀ cb, cb ∈ listeners event s → throws (target cb) args = None) →
  let r := emit throws event args s in
  r.1 = Ret () ∧
  calls r.2 = calls s ++ ((λ cb, (target cb, args)) <$> listeners event s) ∧
  listeners event r.2 = filter (λ cb, is_plain cb) (listeners event s) ∧
  (∀ event', event' ≠ event → listeners event' r.2 = listeners event' s).
Proof.
  intros Hs%reachable_well_formed Hevent Hreturn. cbv zeta. unfold emit.
  rewrite slot_proper by done.
  destruct (events s event) as [l|] eqn:Hl.
  - rewrite (listeners_Some _ _ _ Hl) in *.
    destruct (forEach_returns l args s event l)
      as (s' & -> & Hcalls & Hevents & Hother & _); [done..| |done|].
    { intros w e id Hin. eapply (proj2 Hs); [exact Hl | exact Hin]. }
    cbn. split_and!; [done..| |].
    + by rewrite (listeners_Some _ _ _ Hevents), remaining_self.
    + intros event' Hne. unfold listeners. by rewrite Hother.
  - unfold listeners. rewrite Hl. cbn. rewrite Hl, app_nil_r. by split_and!.
Qed.

(** X23. A listener that throws ends the emission: [emit] throws the
    same error, the listeners after it are not called, and of the
    listeners registered by [once] only those that ran before it are
    removed; it stays registered itself, also when it was registered by
    [once]. *)
Theorem emit_stops_at_throw (event : string) (args : list JSON) (s : State)
    (l1 l2 : list Callback) (cb : Callback) (e : Error) :
  reachable throws s → listeners event s = l1 ++ cb :: l2 →
  (∀ cb', cb' ∈ l1 → throws (target cb') args = None) →
  throws (target cb) args = Some e →
  let r := emit throws event args s in
  r.1 = Throw e ∧
  calls r.2 =
    calls s ++ ((λ cb', (target cb', args)) <$> l1 ++ [cb]) ∧
  listeners event r.2 =
    filter (λ cb', is_plain cb' ∨ cb' ∉ l1) (l1 ++ cb :: l2).
Proof.
  intros Hs%reachable_well_formed Hl Hreturn Hthrow. cbv zeta.
  assert (events s event = Some (l1 ++ cb :: l2)) as Hevents.
  { unfold listeners in Hl. destruct (events s event); cbn in Hl; [by subst|].
    by destruct l1. }
  unfold emit. rewrite (proj2 (slot_Listeners _ _ _) Hevents).
  rewrite forEach_app.
  destruct (forEach_returns l1 args s event (l1 ++ cb :: l2))
    as (s' & -> & Hcalls & Hevents' & _); [done..| |done|].
  { intros w e' id Hin. eapply (proj2 Hs); [exact Hevents|].
    apply elem_of_app. by left. }
  cbn.
  assert (call throws cb args s' =
          (Throw e, set_calls (calls s' ++ [(target cb, args)]) s')) as ->.
  { destruct cb as [id|w e' id]; unfold call, call_plain; cbn in *;
      by rewrite Hthrow. }
  cbn. split_and!; [done| |].
  - by rewrite Hcalls, fmap_app, app_assoc.
  - apply listeners_Some. exact Hevents'.
Qed.

(** X24. A listener registered by [once] is called by the next [emit] of
    its event, after the listeners registered before it, and by no later
    [emit]; and [off] with the function given to [once] does not take
    it off. *)
Theorem once_fires_once (event : string) (callback : nat)
    (args args' : list JSON) (s : State) :
  reachable throws s → event ∉ Object_prototype →
  (∀ cb a, cb ∈ listeners event s → throws (target cb) a = None) →
  (∀ a, throws callback a = None) →
  let s1 := (once event callback s).2 in
  let s2 := (emit throws event args s1).2 in
  let s3 := (emit throws event args' s2).2 in
  calls s2 =
    calls s ++ ((λ cb, (target cb, args)) <$> listeners event s)
            ++ [(callback, args)] ∧
  calls s3 =
    calls s2 ++ ((λ cb, (target cb, args')) <$>
                   filter (λ cb, is_plain cb) (listeners event s)) ∧
  OnceWrapper (wrappers s) event callback
    ∈ listeners event (off event (Plain callback) s1).2.
Proof.
  intros Hs Hevent Hreturn Hcallback.
  assert (reachable throws (once event callback s).2) as Hs1
    by exact (reachable_run throws (CallOnce event callback) s Hs).
  set (wrapper := OnceWrapper (wrappers s) event callback).
  assert (events (once event callback s).2 event
          = Some (listeners event s ++ [wrapper])) as Hevents1.
  { apply reachable_well_formed in Hs. unfold once, on.
    rewrite slot_proper by done. cbn. unfold listeners.
    destruct (events s event); cbn; by rewrite fn_lookup_insert. }
  assert (calls (once event callback s).2 = calls s) as Hcalls1.
  { unfold once, on. by destruct (slot event _). }
  intros s1 s2 s3.
  destruct (emit_calls_every_listener event args s1 Hs1 Hevent)
    as (_ & Hcalls2 & Hlisteners2 & _).
  { subst s1. rewrite (listeners_Some _ _ _ Hevents1).
    intros cb [Hcb|[->|[]%elem_of_nil]%elem_of_cons]%elem_of_app;
      [by apply Hreturn | apply Hcallback]. }
  fold s2 in Hcalls2, Hlisteners2.
  assert (listeners event s1 = listeners event s ++ [wrapper]) as Hl1
    by exact (listeners_Some _ _ _ Hevents1).
  rewrite Hl1 in Hcalls2, Hlisteners2.
  rewrite filter_app in Hlisteners2. cbn in Hlisteners2.
  rewrite app_nil_r in Hlisteners2.
  assert (reachable throws s2) as Hs2
    by exact (reachable_run throws (CallEmit event args) s1 Hs1).
  destruct (emit_calls_every_listener event args' s2 Hs2 Hevent)
    as (_ & Hcalls3 & _).
  { rewrite Hlisteners2. intros cb [_ Hcb]%list_elem_of_filter.
    by apply Hreturn. }
  fold s3 in Hcalls3. rewrite Hlisteners2 in Hcalls3.
  split_and!.
  - rewrite Hcalls2, fmap_app. fold s1. by rewrite <- Hcalls1.
  - exact Hcalls3.
  - unfold s1, off. rewrite (proj2 (slot_Listeners _ _ _) Hevents1). cbn.
    unfold listeners. cbn. rewrite fn_lookup_insert. cbn.
    apply list_elem_of_filter. split; [done|].
    apply elem_of_app. right. by left.
Qed.

(** The event a call is about. *)
Definition event_of (c : Call) : string :=
  match c with
  | CallOn event _ | CallOff event _ | CallEmit event _
  | CallOnce event _ => event
  end.

(** X25. An event named like a member of [Object.prototype] cannot be
    used: on an emitter in use [on], [off], [emit] and [once] for it
    throw a [TypeError], register nothing and call nothing. *)
Theorem inherited_names_throw (c : Call) (s : State) :
  reachable throws s → event_of c ∈ Object_prototype →
  (run throws c s).1 = Throw TypeError ∧
  events (run throws c s).2 = events s ∧
  calls (run throws c s).2 = calls s.
Proof.
  intros Hs%reachable_well_formed Hevent.
  destruct c as [event id|event id|event args|event id]; cbn in *;
    unfold on, off, emit, once, on.
  - by rewrite slot_Inherited.
  - by rewrite slot_Inherited.
  - by rewrite slot_Inherited.
  - assert (slot event (set_wrappers (S (wrappers s)) s) = Inherited) as ->;
      [|done].
    by apply (slot_Inherited event (set_wrappers _ s)).
Qed.

End EmitterProperties.

(** An emitter whose listener 9 throws; listener 1 is registered for
    ['join'] by [on] and listener 2 by [once]. *)
Definition sample_throws (id : nat) (args : list JSON) : option Error :=
  if decide (id = 9) then Some TypeError else None.

Definition emitter_waiting : EventEmitter.State :=
  (EventEmitter.run sample_throws (EventEmitter.CallOnce "join" 2)
     (EventEmitter.run sample_throws (EventEmitter.CallOn "join" 1)
        EventEmitter.new_EventEmitter).2).2.

Lemma emitter_waiting_reachable :
  EventEmitter.reachable sample_throws emitter_waiting.
Proof. repeat constructor. Qed.

(** Listener 9 is registered for ['host'] before listener 1. *)
Definition emitter_faulty : EventEmitter.State :=
  (EventEmitter.run sample_throws (EventEmitter.CallOn "host" 1)
     (EventEmitter.run sample_throws (EventEmitter.CallOn "host" 9)
        EventEmitter.new_EventEmitter).2).2.

Lemma emitter_faulty_reachable :
  EventEmitter.reachable sample_throws emitter_faulty.
Proof. repeat constructor. Qed.

Lemma not_inherited_join : "join" ∉ EventEmitter.Object_prototype.
Proof. refine (bool_decide_unpack _ _). vm_compute. exact I. Qed.

Lemma emit_calls_every_listener_witness :
  let r := EventEmitter.emit sample_throws "join" [JNull] emitter_waiting in
  EventEmitter.calls r.2 = [(1, [JNull]); (2, [JNull])] ∧
  EventEmitter.listeners "join" r.2 = [EventEmitter.Plain 1].
Proof.
  destruct (emit_calls_every_listener sample_throws "join" [JNull]
              emitter_waiting emitter_waiting_reachable not_inherited_join)
    as (_ & Hcalls & Hlisteners & _).
  { intros cb Hcb. vm_compute in Hcb.
    apply elem_of_cons in Hcb as [->|Hcb]; [reflexivity|].
    apply elem_of_cons in Hcb as [->|Hcb]; [reflexivity|].
    by apply elem_of_nil in Hcb. }
  cbv zeta. split; [exact Hcalls | exact Hlisteners].
Defined.

Lemma emit_stops_at_throw_witness :
  let r := EventEmitter.emit sample_throws "host" [] emitter_faulty in
  r.1 = Throw TypeError ∧ EventEmitter.calls r.2 = [(9, [])].
Proof.
  destruct (emit_stops_at_throw sample_throws "host" [] emitter_faulty []
              [EventEmitter.Plain 1] (EventEmitter.Plain 9) TypeError
              emitter_faulty_reachable)
    as (Hthrow & Hcalls & _); [reflexivity | | reflexivity |].
  { intros cb Hcb. by apply elem_of_nil in Hcb. }
  cbv zeta. split; [exact Hthrow | exact Hcalls].
Defined.

Lemma once_fires_once_witness :
  let s1 := (EventEmitter.once "join" 2 EventEmitter.new_EventEmitter).2 in
  let s2 := (EventEmitter.emit sample_throws "join" [JNull] s1).2 in
  let s3 := (EventEmitter.emit sample_throws "join" [JBool true] s2).2 in
  EventEmitter.calls s2 = [(2, [JNull])] ∧
  EventEmitter.calls s3 = [(2, [JNull])].
Proof.
  destruct (once_fires_once sample_throws "join" 2 [JNull] [JBool true]
              EventEmitter.new_EventEmitter
              (EventEmitter.reachable_new sample_throws) not_inherited_join)
    as (Hfirst & Hsecond & _).
  { intros cb a Hcb. by apply elem_of_nil in Hcb. }
  { reflexivity. }
  cbv zeta. split; [exact Hfirst|].
  cbv zeta in Hsecond. rewrite Hsecond. vm_compute. reflexivity.
Defined.

Lemma inherited_names_throw_witness :
  (EventEmitter.run sample_throws (EventEmitter.CallOn "toString" 1)
     emitter_waiting).1 = Throw TypeError.
Proof.
  refine (proj1 (inherited_names_throw sample_throws
                   (EventEmitter.CallOn "toString" 1) emitter_waiting
                   emitter_waiting_reachable _)).
  refine (bool_decide_unpack _ _). vm_compute. exact I.
Defined.

Lemma bullets_expire_witness :
  let w' := exec (updateBullets sample_stringify sample_intersect 1)
              responder_under_fire in
  returns (updateBullets sample_stringify sample_intersect 1)
    responder_under_fire ∧
  Forall (λ b, (5 <? bullet_age b)%float = false) (bullets w') ∧
  in_match w'.
Proof.
  assert (Hin : in_match responder_under_fire).
  { exists P2, P1. split_and!; [vm_compute; reflexivity.. | discriminate]. }
  assert (Hnd : NoDup (trees responder_under_fire)).
  { refine (bool_decide_unpack _ _). vm_compute. exact I. }
  destruct (bullets_expire sample_stringify sample_intersect 1
              responder_under_fire Hin Hnd)
    as (Hreturns & Hyoung & _ & Hin' & _).
  cbv zeta. split; [exact Hreturns|]. split; [exact Hyoung | exact Hin'].
Defined.
